(** * HttpServer and WebSocketServer: a shallow embedding

    The development embeds the two classes of
    [src/infra/http/utils/http-server/http-server.ts] and
    [src/infra/http/utils/websocket-server/websocket-server.ts]:
    the router registry, the start/stop life cycle, the directory loaders,
    the event registry and the middleware adapter.

    Conventions.
    - JavaScript objects with identity (express routers, node servers,
      functions) are natural numbers handed out by an allocator that lives
      in the world; two objects are the same object iff the numbers agree.
    - A method is a computation in the monad [M]: it reads and writes the
      world, records what it does to the outside (binding a port, closing a
      listener, logging, calling a callback, importing a module) in a trace,
      and either completes or throws.  What was written before a throw stays
      written, as in JavaScript.
    - Callbacks, middlewares and the setup functions of handler modules are
      foreign code: calling one is recorded in the trace; the environment
      says whether a startup callback fails, and when.
    - express and the operating system are part of the environment too:
      it says which mount paths [express.use] refuses, and what
      [server.address()] reports once [server.listen] has been called. *)

From Stdlib Require Import String Ascii List Bool Arith NArith Lia.
From Stdlib Require DecimalString.
Import ListNotations.
Open Scope string_scope.
Open Scope list_scope.
Set Warnings "-register-all".

(** ** Strings as the loaders use them *)

Module Js.

(** [String.prototype.toLocaleUpperCase], on the ASCII letters. *)
Definition upperChar (c : ascii) : ascii :=
  let n := nat_of_ascii c in
  if ((97 <=? n)%nat && (n <=? 122)%nat)%bool then ascii_of_nat (n - 32) else c.

Fixpoint toLocaleUpperCase (s : string) : string :=
  match s with
  | EmptyString => EmptyString
  | String c rest => String (upperChar c) (toLocaleUpperCase rest)
  end.

(** [String.prototype.includes]: [text] occurs somewhere in [s]. *)
Fixpoint includes (s text : string) : bool :=
  String.prefix text s ||
  match s with
  | EmptyString => false
  | String _ rest => includes rest text
  end.

(** [String.prototype.endsWith]. *)
Fixpoint endsWith (s ext : string) : bool :=
  String.eqb s ext ||
  match s with
  | EmptyString => false
  | String _ rest => endsWith rest ext
  end.

(** [s.replaceAll(/\/{2,}/g, '/')]: every run of slashes becomes one. *)
Fixpoint collapseSlashes (s : string) : string :=
  match s with
  | EmptyString => EmptyString
  | String c rest =>
      match rest with
      | String c' _ =>
          if (Ascii.eqb c "/"%char && Ascii.eqb c' "/"%char)%bool then collapseSlashes rest
          else String c (collapseSlashes rest)
      | EmptyString => String c EmptyString
      end
  end.

(** The values the file filter computes with, and their truthiness
    (ECMAScript ToBoolean: every object, so every array, is truthy). *)
Inductive Value :=
| Undefined
| Boolean (b : bool)
| Array (elems : list Value).

Definition ToBoolean (v : Value) : bool :=
  match v with
  | Undefined => false
  | Boolean b => b
  | Array _ => true
  end.

(** [a && b] yields [a] when [a] is falsy and [b] otherwise. *)
Definition and (a b : Value) : Value := if ToBoolean a then b else a.

(** [Array.prototype.map] with a boolean callback. *)
Definition mapBoolean {A} (f : A -> bool) (l : list A) : Value :=
  Array (map (fun x => Boolean (f x)) l).

(** [Array.prototype.some], which the loaders do not call. *)
Definition some {A} (f : A -> bool) (l : list A) : bool := existsb f l.

Inductive Error :=
| TypeError (message : string)
| SyntaxError (message : string)
| RangeError (code : string)
| SystemError (code : string)
| Rejected (reason : string).

End Js.

(** ** The file filter of [routesDirectory] and [eventsDirectory] *)

Definition extensionsToSearch : list string := [".TS"; ".JS"].
Definition ignoreIfIncludes : list string := [".MAP."; ".SPEC."; ".TEST."].

(** The condition of the [if] in the loop body, lines 242-252 of
    http-server.ts and 62-72 of websocket-server.ts (the same text). *)
Definition passesFilter (fileName : string) : bool :=
  let fileNameToUpperCase := Js.toLocaleUpperCase fileName in
  let hasAValidExtension :=
    Js.mapBoolean (fun text => Js.includes fileNameToUpperCase text)
                  ignoreIfIncludes in
  let haveAValidName :=
    Js.mapBoolean (fun ext => Js.endsWith fileNameToUpperCase ext)
                  extensionsToSearch in
  Js.ToBoolean (Js.and haveAValidName hasAValidExtension).

(** What the names in the source say: an accepted extension and no excluded
    marker.  Used only to tell the files the filter was meant to drop. *)
Definition hasExcludedMarker (fileName : string) : bool :=
  Js.some (fun text => Js.includes (Js.toLocaleUpperCase fileName) text)
          ignoreIfIncludes.

Definition hasAcceptedExtension (fileName : string) : bool :=
  Js.some (fun ext => Js.endsWith (Js.toLocaleUpperCase fileName) ext)
          extensionsToSearch.

(** ** Data *)

(** JSON-like data: request bodies, params, queries, event payloads. *)
Inductive Json :=
| JUndefined
| JNull
| JBool (b : bool)
| JNumber (n : nat)
| JString (s : string)
| JArray (items : list Json)
| JObject (members : list (string * Json)).

(** Identities of foreign objects. *)
Definition Router := nat.       (* an express [Router()] *)
Definition NodeServer := nat.   (* an [http.Server] made by [createServer] *)
Definition SocketServer := nat. (* a socket.io [Server] *)
Definition Callback := nat.     (* a function value *)
Definition Middleware := nat.   (* a middleware, function or object *)
Definition Port := nat.

(** The default [() => {}] of [listen], [listenAsync] and [connect]. *)
Definition noop : Callback := 0.

(** An element of [HttpServer.routers]. *)
Record RouterEntry := {
  entry_path : option string;
  entry_baseUrl : option string;
  entry_router : Router;
  entry_loaded : bool;
  entry_hidden : bool
}.

(** [router.loaded = true]. *)
Definition markLoaded (e : RouterEntry) : RouterEntry :=
  {| entry_path := entry_path e; entry_baseUrl := entry_baseUrl e;
     entry_router := entry_router e; entry_loaded := true;
     entry_hidden := entry_hidden e |}.

(** The [Route] facade of [./route]: a handle on one router. *)
Record Route := { route_router : Router }.

(** What the express application has been told to [use], in order. *)
Inductive Layer :=
| SharedStateInitializer
| RouterLayer (url : string) (r : Router)
| MiddlewareLayer (path : option string) (ms : list Middleware).

(** [{ callback, port: +port }]; ports are numbers here, on which the unary
    plus changes nothing. *)
Record ListenerOptions := { lo_port : Port; lo_callback : Callback }.

(** The result of [server.address()] taken right after [server.listen]. *)
Record AddressInfo := { address_server : NodeServer; address_port : Port }.

(** Modelled from the spec: [EventOptions] is declared in
    [websocket-server/types], which is not among the sources; the spec gives
    it as [{name, enabled, payload?}]. *)
Record EventOptions := {
  name : string;
  enabled : bool;
  payload : option Json
}.

(** An element of [WebSocketServer.events]. *)
Record EventDescriptor := {
  options : EventOptions;
  callbacks : list Callback
}.

(** A function given to [server.on] of the socket server. *)
Inductive SocketListener :=
| EventListener (event : EventDescriptor)       (* bound by [loadEvents] *)
| ConnectionListener (disconnectCallback : Callback). (* bound by [connect] *)

Definition ServerOptions := nat.

Record WebSocketServer := {
  ws_server : SocketServer;
  ws_options : option ServerOptions;
  ws_events : list EventDescriptor;
  (** the listeners [ws_server.on] has received, with their event names *)
  ws_listeners : list (string * SocketListener)
}.

(** The one [WebSocketServer] there can be (its constructor is private and
    [getInstance] keeps the first): a reference to it is this token. *)
Inductive WebSocketServerRef := TheWebSocketServer.

(** The fields of the class.  A field declared with [!] holds [None]
    ([undefined]) until it is written; [addressInfo], once written, holds an
    address or [None] for [null]. *)
Record HttpServer := {
  express : list Layer;
  server : option NodeServer;
  startWebSocketServer : bool;
  websocketServer : option WebSocketServerRef;
  websocketServerOptions : option ServerOptions;
  listenerOptions : option ListenerOptions;
  baseUrl : string;
  addressInfo : option (option AddressInfo);
  routers : list RouterEntry;
  startupCallbacks : list Callback;
  isStarted : bool
}.

(** The process: the [HttpServer] singleton, the static
    [WebSocketServer.instance], and the allocator of object identities. *)
Record World := {
  app : HttpServer;
  wsInstance : option WebSocketServer;
  nextObject : nat
}.

(** What a method does to the outside. *)
Inductive SetupTarget :=
| ToRoute (r : Router)
| ToEventHandler.

Inductive Event :=
| CreateServer (s : NodeServer)
| ServerListen (s : NodeServer) (port : Port) (callback : Callback)
| ServerClose (s : NodeServer) (message : string)
| LoggerLog (level message : string)
| CallbackCall (callback : Callback)
| ImportModule (filePath : string)
| SetupCall (filePath : string) (target : SetupTarget)
| RouteUse (r : Router) (ms : list Middleware)
| NewSocketServer (s : SocketServer) (attachedTo : NodeServer).

(** ** The monad of methods *)

Inductive Completion (A : Type) :=
| Normal (a : A)
| Throw (e : Js.Error).
Arguments Normal {A} a.
Arguments Throw {A} e.

Definition M (A : Type) : Type := World -> Completion A * World * list Event.

Definition ret {A} (a : A) : M A := fun w => (Normal a, w, []).

Definition bind {A B} (m : M A) (k : A -> M B) : M B :=
  fun w =>
    match m w with
    | (Normal a, w1, t1) =>
        match k a w1 with
        | (c, w2, t2) => (c, w2, t1 ++ t2)
        end
    | (Throw e, w1, t1) => (Throw e, w1, t1)
    end.

Notation "x <- m ;; k" := (bind m (fun x => k))
  (at level 61, m at next level, right associativity).
Notation "m ;; k" := (bind m (fun _ => k))
  (at level 61, right associativity).

Definition throw {A} (e : Js.Error) : M A := fun w => (Throw e, w, []).
Definition emit (e : Event) : M unit := fun w => (Normal tt, w, [e]).
Definition getApp : M HttpServer := fun w => (Normal (app w), w, []).
Definition getWs : M (option WebSocketServer) :=
  fun w => (Normal (wsInstance w), w, []).

Definition modifyApp (f : HttpServer -> HttpServer) : M unit :=
  fun w => (Normal tt,
            {| app := f (app w); wsInstance := wsInstance w;
               nextObject := nextObject w |}, []).

Definition putWs (ws : WebSocketServer) : M unit :=
  fun w => (Normal tt,
            {| app := app w; wsInstance := Some ws;
               nextObject := nextObject w |}, []).

(** A new object: its identity is the next free number. *)
Definition newObject : M nat :=
  fun w => (Normal (nextObject w),
            {| app := app w; wsInstance := wsInstance w;
               nextObject := S (nextObject w) |}, []).

Definition result {A} (x : Completion A * World * list Event) := fst (fst x).
Definition world {A} (x : Completion A * World * list Event) := snd (fst x).
Definition trace {A} (x : Completion A * World * list Event) := snd x.

(** Field updates of [HttpServer] ([this.f = v]). *)
Definition set_express (v : list Layer) (this : HttpServer) : HttpServer :=
  {| express := v; server := server this;
     startWebSocketServer := startWebSocketServer this;
     websocketServer := websocketServer this;
     websocketServerOptions := websocketServerOptions this;
     listenerOptions := listenerOptions this; baseUrl := baseUrl this;
     addressInfo := addressInfo this; routers := routers this;
     startupCallbacks := startupCallbacks this; isStarted := isStarted this |}.

Definition set_server (v : option NodeServer) (this : HttpServer) : HttpServer :=
  {| express := express this; server := v;
     startWebSocketServer := startWebSocketServer this;
     websocketServer := websocketServer this;
     websocketServerOptions := websocketServerOptions this;
     listenerOptions := listenerOptions this; baseUrl := baseUrl this;
     addressInfo := addressInfo this; routers := routers this;
     startupCallbacks := startupCallbacks this; isStarted := isStarted this |}.

Definition set_startWebSocketServer (v : bool) (this : HttpServer) : HttpServer :=
  {| express := express this; server := server this;
     startWebSocketServer := v;
     websocketServer := websocketServer this;
     websocketServerOptions := websocketServerOptions this;
     listenerOptions := listenerOptions this; baseUrl := baseUrl this;
     addressInfo := addressInfo this; routers := routers this;
     startupCallbacks := startupCallbacks this; isStarted := isStarted this |}.

Definition set_websocketServer (v : option WebSocketServerRef)
    (this : HttpServer) : HttpServer :=
  {| express := express this; server := server this;
     startWebSocketServer := startWebSocketServer this;
     websocketServer := v;
     websocketServerOptions := websocketServerOptions this;
     listenerOptions := listenerOptions this; baseUrl := baseUrl this;
     addressInfo := addressInfo this; routers := routers this;
     startupCallbacks := startupCallbacks this; isStarted := isStarted this |}.

Definition set_websocketServerOptions (v : option ServerOptions)
    (this : HttpServer) : HttpServer :=
  {| express := express this; server := server this;
     startWebSocketServer := startWebSocketServer this;
     websocketServer := websocketServer this;
     websocketServerOptions := v;
     listenerOptions := listenerOptions this; baseUrl := baseUrl this;
     addressInfo := addressInfo this; routers := routers this;
     startupCallbacks := startupCallbacks this; isStarted := isStarted this |}.

Definition set_listenerOptions (v : option ListenerOptions)
    (this : HttpServer) : HttpServer :=
  {| express := express this; server := server this;
     startWebSocketServer := startWebSocketServer this;
     websocketServer := websocketServer this;
     websocketServerOptions := websocketServerOptions this;
     listenerOptions := v; baseUrl := baseUrl this;
     addressInfo := addressInfo this; routers := routers this;
     startupCallbacks := startupCallbacks this; isStarted := isStarted this |}.

Definition set_baseUrl (v : string) (this : HttpServer) : HttpServer :=
  {| express := express this; server := server this;
     startWebSocketServer := startWebSocketServer this;
     websocketServer := websocketServer this;
     websocketServerOptions := websocketServerOptions this;
     listenerOptions := listenerOptions this; baseUrl := v;
     addressInfo := addressInfo this; routers := routers this;
     startupCallbacks := startupCallbacks this; isStarted := isStarted this |}.

Definition set_addressInfo (v : option (option AddressInfo))
    (this : HttpServer) : HttpServer :=
  {| express := express this; server := server this;
     startWebSocketServer := startWebSocketServer this;
     websocketServer := websocketServer this;
     websocketServerOptions := websocketServerOptions this;
     listenerOptions := listenerOptions this; baseUrl := baseUrl this;
     addressInfo := v; routers := routers this;
     startupCallbacks := startupCallbacks this; isStarted := isStarted this |}.

Definition set_routers (v : list RouterEntry) (this : HttpServer) : HttpServer :=
  {| express := express this; server := server this;
     startWebSocketServer := startWebSocketServer this;
     websocketServer := websocketServer this;
     websocketServerOptions := websocketServerOptions this;
     listenerOptions := listenerOptions this; baseUrl := baseUrl this;
     addressInfo := addressInfo this; routers := v;
     startupCallbacks := startupCallbacks this; isStarted := isStarted this |}.

Definition set_startupCallbacks (v : list Callback) (this : HttpServer)
    : HttpServer :=
  {| express := express this; server := server this;
     startWebSocketServer := startWebSocketServer this;
     websocketServer := websocketServer this;
     websocketServerOptions := websocketServerOptions this;
     listenerOptions := listenerOptions this; baseUrl := baseUrl this;
     addressInfo := addressInfo this; routers := routers this;
     startupCallbacks := v; isStarted := isStarted this |}.

Definition set_isStarted (v : bool) (this : HttpServer) : HttpServer :=
  {| express := express this; server := server this;
     startWebSocketServer := startWebSocketServer this;
     websocketServer := websocketServer this;
     websocketServerOptions := websocketServerOptions this;
     listenerOptions := listenerOptions this; baseUrl := baseUrl this;
     addressInfo := addressInfo this; routers := routers this;
     startupCallbacks := startupCallbacks this; isStarted := v |}.

(** ** The environment: express, the operating system, the file system,
       the module loader, callbacks *)

Inductive DefaultExport :=
| ExportFunction   (* [typeof setup === 'function'] *)
| ExportOther.

Record Env := {
  (** [express.use(path, ...)] compiles the mount path when it is called:
      [Some e] when it throws [e] (an unbalanced parenthesis, for one),
      [None] when it takes the path *)
  expressUse : string -> option Js.Error;
  (** what [server.address()] reports right after [server.listen(port)]:
      the port the operating system gave ([listen(0)] asks it to choose),
      or [None] for [null] (the port is taken and nothing is bound yet) *)
  osBind : Port -> option Port;
  (** [readdirSync(path)]; [None] when it throws *)
  readdirSync : string -> option (list string);
  (** [resolve(path, fileName)] *)
  resolve : string -> string -> string;
  (** [(await import(filePath)).default]; [None] when the import rejects *)
  importDefault : string -> option DefaultExport;
  (** the failure of a startup callback, if it fails *)
  callbackFailure : Callback -> option Js.Error;
  (** the time at which a failing startup callback's promise rejects; a
      callback that throws before its first [await] rejects at time 0 *)
  rejectedAt : Callback -> nat
}.

(** ** HttpServer *)

(** The constructor: [express()] and the shared-state initializer. *)
Definition newHttpServer : HttpServer :=
  {| express := [SharedStateInitializer]; server := None;
     startWebSocketServer := false; websocketServer := None;
     websocketServerOptions := None; listenerOptions := None;
     baseUrl := ""; addressInfo := None; routers := [];
     startupCallbacks := []; isStarted := false |}.

(** The process after [HttpServer.getInstance()] has built the singleton. *)
Definition initialWorld : World :=
  {| app := newHttpServer; wsInstance := None; nextObject := 0 |}.

Section WithEnv.

Variable env : Env.

Definition setWebSocketServerOptions (options : option ServerOptions) : M unit :=
  modifyApp (set_websocketServerOptions options);;
  modifyApp (set_startWebSocketServer true).

Definition address : M (option (option AddressInfo)) :=
  this <- getApp;; ret (addressInfo this).

(** The mount point [loadRoutes] computes for an entry. *)
Definition mountUrl (thisBaseUrl : string) (router : RouterEntry) : string :=
  let baseUrl :=
    match entry_baseUrl router with Some b => b | None => thisBaseUrl end in
  let path := match entry_path router with Some p => p | None => "" end in
  Js.collapseSlashes (baseUrl ++ "/" ++ path)%string.

(** The [forEach] of [loadRoutes], entry by entry.  An entry already
    loaded is passed over ([filter]); another is handed to [express.use],
    which throws when it cannot compile the mount path: the loop ends there,
    that entry and the ones behind it are neither mounted nor flagged.  The
    objects [filter] yields are the objects of [this.routers], so the flag
    written in the loop is the flag of the list's own entry.  The result is
    the list after the loop, the layers express took, and what was thrown. *)
Fixpoint mountPending (thisBaseUrl : string) (routerList : list RouterEntry)
    : list RouterEntry * list Layer * option Js.Error :=
  match routerList with
  | [] => ([], [], None)
  | router :: rest =>
      if entry_loaded router then
        let '(rest', layers, failure) := mountPending thisBaseUrl rest in
        (router :: rest', layers, failure)
      else
        let url := mountUrl thisBaseUrl router in
        match expressUse env url with
        | Some e => (router :: rest, [], Some e)
        | None =>
            let '(rest', layers, failure) := mountPending thisBaseUrl rest in
            (markLoaded router :: rest',
             RouterLayer url (entry_router router) :: layers, failure)
        end
  end.

Definition loadRoutes : M unit :=
  this <- getApp;;
  let '(routerList, layers, failure) :=
    mountPending (baseUrl this) (routers this) in
  modifyApp (fun this =>
    set_routers routerList (set_express (express this ++ layers) this));;
  match failure with
  | Some e => throw e
  | None => ret tt
  end.

Definition getServer : M NodeServer :=
  loadRoutes;;
  s <- newObject;;
  emit (CreateServer s);;
  ret s.

Definition getHttpServerInstance : M (option NodeServer) :=
  this <- getApp;; ret (server this).

(** The largest port number. *)
Definition maxPort : Port := (2 ^ 16 - 1)%nat.

(** [server.listen(port, callback)]: a port above 65535 is refused at once
    with a RangeError; any other is handed to the operating system. *)
Definition serverListen (s : NodeServer) (port : Port) (callback : Callback)
    : M unit :=
  if (port <=? maxPort)%nat then emit (ServerListen s port callback)
  else throw (Js.RangeError "ERR_SOCKET_BAD_PORT").

(** [server.address()] right after [server.listen(port, callback)]: an
    address, or [None] for [null]. *)
Definition serverAddress (s : NodeServer) (port : Port) : option AddressInfo :=
  match osBind env port with
  | Some bound => Some {| address_server := s; address_port := bound |}
  | None => None
  end.

Definition listen (port : Port) (callback : Callback) : M (option NodeServer) :=
  this <- getApp;;
  if isStarted this then ret None
  else
    modifyApp (set_isStarted true);;
    loadRoutes;;
    modifyApp (set_listenerOptions
                 (Some {| lo_port := port; lo_callback := callback |}));;
    s <- getServer;;
    modifyApp (set_server (Some s));;
    serverListen s port callback;;
    modifyApp (set_addressInfo (Some (serverAddress s port)));;
    ret (Some s).

Definition onStart (callbackList : list Callback) : M unit :=
  modifyApp (set_startupCallbacks callbackList).

Definition undefinedRead (property : string) : Js.Error :=
  Js.TypeError
    ("Cannot read properties of undefined (reading '" ++ property ++ "')")%string.

Definition notAFunction (expression : string) : Js.Error :=
  Js.TypeError (expression ++ " is not a function")%string.

Definition refresh : M unit :=
  this <- getApp;;
  if negb (isStarted this) then ret tt
  else
    match server this with
    | None => throw (undefinedRead "close")
    | Some s => emit (ServerClose s "Refreshing server")
    end;;
    match listenerOptions this with
    | None => throw (undefinedRead "port")
    | Some lo => listen (lo_port lo) (lo_callback lo);; ret tt
    end.

(** [close].  The class [WebSocketServer] (websocket-server.ts, lines 12-98)
    declares [loadEvents], [loadEventsAsync], [eventsDirectory], [register]
    and [connect]; it has no [close], so the last call has nothing to call. *)
Definition close : M unit :=
  this <- getApp;;
  if negb (isStarted this) then ret tt
  else
    match server this with
    | None => throw (undefinedRead "close")
    | Some s => emit (ServerClose s "Shutting down server")
    end;;
    if negb (startWebSocketServer this) then ret tt
    else
      match websocketServer this with
      | None => throw (undefinedRead "close")
      | Some TheWebSocketServer =>
          throw (notAFunction "this.websocketServer.close")
      end.

Inductive UseValue :=
| UsePath (value : string)
| UseMiddleware (value : Middleware).

(** [this.express.use(layer)] for a layer express takes. *)
Definition addLayer (layer : Layer) : M unit :=
  modifyApp (fun this => set_express (express this ++ [layer]) this).

(** [use].  With a path and no middleware, [express.use(value)] has no
    function to mount and throws a TypeError; with a path express cannot
    compile it throws as well; nothing is added in either case. *)
Definition use (value : UseValue) (middlewares : list Middleware) : M unit :=
  match value with
  | UsePath p =>
      match middlewares with
      | [] => throw (Js.TypeError "app.use() requires a middleware function")
      | _ :: _ =>
          match expressUse env p with
          | Some e => throw e
          | None => addLayer (MiddlewareLayer (Some p) middlewares)
          end
      end
  | UseMiddleware m => addLayer (MiddlewareLayer None (m :: middlewares))
  end.

Definition setBaseUrl (url : string) : M unit :=
  this <- getApp;;
  if isStarted this then
    emit (LoggerLog "warn"
            "Only set the default base url if the server is not started")
  else modifyApp (set_baseUrl url).

(** [createRoute], after either overload has produced its three values. *)
Definition createRoute (path baseUrl : option string) (hidden : option bool)
    : M Route :=
  router <- newObject;;
  modifyApp (fun this =>
    set_routers
      (routers this ++
       [{| entry_path := path; entry_baseUrl := baseUrl;
           entry_router := router; entry_loaded := false;
           entry_hidden := match hidden with Some h => h | None => false end |}])
      this);;
  ret {| route_router := router |}.

(** [===] on [string | undefined]. *)
Definition strictEq (a b : option string) : bool :=
  match a, b with
  | Some x, Some y => String.eqb x y
  | None, None => true
  | _, _ => false
  end.

(** The predicate [getRoute] gives to [find]. *)
Definition isRoute (path baseUrl : option string) (route : RouterEntry) : bool :=
  strictEq (entry_path route) path &&
  strictEq (entry_baseUrl route) baseUrl &&
  negb (entry_hidden route).

Definition getRoute (path baseUrl : option string) : M (option Route) :=
  this <- getApp;;
  match find (isRoute path baseUrl) (routers this) with
  | None => ret None
  | Some route => ret (Some {| route_router := entry_router route |})
  end.

(** The first argument of [route]: a path (or nothing) or an options object. *)
Inductive RouteArg :=
| PathArg (path : option string)
| OptionsArg (path baseUrl : option string).

(** [typeof arg1 === 'object' ? arg1 : { path: arg1, baseUrl: arg2 }]. *)
Definition routeOptions (arg1 : RouteArg) (arg2 : option string)
    : option string * option string :=
  match arg1 with
  | OptionsArg p b => (p, b)
  | PathArg p => (p, arg2)
  end.

Definition route (arg1 : RouteArg) (arg2 : option string) : M Route :=
  let '(path, baseUrl) := routeOptions arg1 arg2 in
  found <- getRoute path baseUrl;;
  match found with
  | Some r => ret r
  | None => createRoute path baseUrl None
  end.

(** ** WebSocketServer *)

Definition set_events (v : list EventDescriptor) (this : WebSocketServer)
    : WebSocketServer :=
  {| ws_server := ws_server this; ws_options := ws_options this;
     ws_events := v; ws_listeners := ws_listeners this |}.

(** [this.server.on(name, listener)]. *)
Definition on (eventName : string) (listener : SocketListener)
    (this : WebSocketServer) : WebSocketServer :=
  {| ws_server := ws_server this; ws_options := ws_options this;
     ws_events := ws_events this;
     ws_listeners := ws_listeners this ++ [(eventName, listener)] |}.

Definition register (options : EventOptions) (callbacks : list Callback)
    (this : WebSocketServer) : WebSocketServer :=
  if negb (enabled options) then this
  else set_events
         (ws_events this ++ [{| options := options; callbacks := callbacks |}])
         this.

(** [this.events.forEach(event => this.server.on(event.options.name, ...))]. *)
Definition loadEvents (this : WebSocketServer) : WebSocketServer :=
  fold_left (fun ws event => on (name (options event)) (EventListener event) ws)
            (ws_events this) this.

(** The [async] arrows of [loadEventsAsync] contain no [await]: each runs to
    its end inside [map], so the listeners are bound as by [loadEvents]. *)
Definition loadEventsAsync (this : WebSocketServer) : WebSocketServer :=
  fold_left (fun ws event => on (name (options event)) (EventListener event) ws)
            (ws_events this) this.

Definition connect (disconnectCallback : Callback) (this : WebSocketServer)
    : WebSocketServer :=
  on "connection" (ConnectionListener disconnectCallback) this.

(** A method call on the instance a reference designates. *)
Definition callWs (method : string)
    (f : WebSocketServer -> WebSocketServer) : M unit :=
  ws <- getWs;;
  match ws with
  | None => throw (undefinedRead method)
  | Some this => putWs (f this)
  end.

(** The value a caller hands to [WebSocketServer.getInstance] as
    [httpServer]: the [HttpServer] the parameter is declared to be, or the
    node server that [initializeWebSocketServer] passes
    ([this.getHttpServerInstance()] is [this.server]). *)
Inductive HttpServerValue :=
| TheHttpServer
| ANodeServer (s : option NodeServer).

(** [getInstance] with the constructor inlined.  The constructor calls
    [httpServer.getServer()]; a node server has no such method. *)
Definition getInstance (httpServer : HttpServerValue)
    (options : option ServerOptions) : M WebSocketServerRef :=
  ws <- getWs;;
  match ws with
  | Some _ => ret TheWebSocketServer
  | None =>
      match httpServer with
      | TheHttpServer =>
          s <- getServer;;
          sock <- newObject;;
          emit (NewSocketServer sock s);;
          putWs {| ws_server := sock; ws_options := options;
                   ws_events := []; ws_listeners := [] |};;
          ret TheWebSocketServer
      | ANodeServer _ => throw (notAFunction "httpServer.getServer")
      end
  end.

(** ** The directory loaders and the asynchronous start *)

Definition readdir (path : string) : M (list string) :=
  match readdirSync env path with
  | Some files => ret files
  | None => throw (Js.SystemError "ENOENT")
  end.

(** The [for await] loop of both directory loaders; [target] is what
    [setup] is called with ([route] or [this.eventHandler]). *)
Fixpoint loadFiles (path : string) (target : SetupTarget)
    (files : list string) : M unit :=
  match files with
  | [] => ret tt
  | fileName :: rest =>
      (if passesFilter fileName then
         let filePath := resolve env path fileName in
         emit (ImportModule filePath);;
         match importDefault env filePath with
         | None => throw (Js.Rejected filePath)
         | Some ExportOther => ret tt
         | Some ExportFunction => emit (SetupCall filePath target)
         end
       else ret tt);;
      loadFiles path target rest
  end.

Definition eventsDirectory (path : string) : M unit :=
  files <- readdir path;;
  loadFiles path ToEventHandler files.

(** The second argument of [routesDirectory]. *)
Inductive DirectoryArg :=
| NoArg
| BaseUrlArg (baseUrl : string)
| MiddlewareArg (middleware : Middleware)
| RouteHandle (route : Route).

Definition routesDirectory (path : string) (arg1 : DirectoryArg)
    (args : list Middleware) : M unit :=
  this <- getApp;;
  let baseUrl :=
    match arg1 with BaseUrlArg s => s | _ => baseUrl this end in
  let middlewares :=
    match arg1 with MiddlewareArg m => m :: args | _ => args end in
  files <- readdir path;;
  route <- match arg1 with
           | RouteHandle r => ret r
           | _ => createRoute (Some "") (Some baseUrl) (Some true)
           end;;
  match middlewares with
  | [] => ret tt
  | _ :: _ => emit (RouteUse (route_router route) middlewares)
  end;;
  loadFiles path (ToRoute (route_router route)) files;;
  loadRoutes.

Definition initializeWebSocketServer : M unit :=
  this <- getApp;;
  if negb (startWebSocketServer this) then ret tt
  else
    ref <- getInstance (ANodeServer (server this))
                       (websocketServerOptions this);;
    modifyApp (set_websocketServer (Some ref));;
    eventsDirectory "src/main/events".

(** [this.startupCallbacks.map(async (callback) => callback?.())]: every
    callback is called, in order, before anything is awaited. *)
Fixpoint callAll (callbackList : list Callback) : M unit :=
  match callbackList with
  | [] => ret tt
  | callback :: rest => emit (CallbackCall callback);; callAll rest
  end.

(** [await Promise.all(promises)] rejects with the rejection that comes
    first in time; of two at the same time, the one of the callback that
    comes first in the list (its promise was made first).  [earliest] walks
    the list with the earliest rejection seen so far. *)
Fixpoint earliest (seen : option (nat * Js.Error))
    (callbackList : list Callback) : option (nat * Js.Error) :=
  match callbackList with
  | [] => seen
  | callback :: rest =>
      match callbackFailure env callback with
      | None => earliest seen rest
      | Some e =>
          let time := rejectedAt env callback in
          match seen with
          | None => earliest (Some (time, e)) rest
          | Some (best, _) =>
              if (time <? best)%nat then earliest (Some (time, e)) rest
              else earliest seen rest
          end
      end
  end.

Definition firstFailure (callbackList : list Callback) : option Js.Error :=
  match earliest None callbackList with
  | Some (_, e) => Some e
  | None => None
  end.

Definition listenAsync (port : Port) (callback : Callback)
    : M (option NodeServer) :=
  this <- getApp;;
  if isStarted this then ret None
  else
    modifyApp (set_isStarted true);;
    callAll (startupCallbacks this);;
    match firstFailure (startupCallbacks this) with
    | Some e => throw e
    | None => ret tt
    end;;
    loadRoutes;;
    modifyApp (set_listenerOptions
                 (Some {| lo_port := port; lo_callback := callback |}));;
    s <- newObject;;
    emit (CreateServer s);;
    modifyApp (set_server (Some s));;
    initializeWebSocketServer;;
    this' <- getApp;;
    match websocketServer this' with
    | None => throw (undefinedRead "connect")
    | Some TheWebSocketServer => callWs "connect" (connect noop)
    end;;
    serverListen s port callback;;
    modifyApp (set_addressInfo (Some (serverAddress s port)));;
    ret (Some s).

(** ** Clients *)

(** The calls a client can make on the two singletons.  A call on the
    WebSocket server goes through [WebSocketServer.getInstance(application)],
    the only way to reach the instance.  [HttpServer.set] is left out: it
    writes an express setting and nothing this development holds. *)
Inductive Op :=
| SetWebSocketServerOptions (options : option ServerOptions)
| Address
| Listen (port : Port) (callback : Callback)
| GetServer
| GetHttpServerInstance
| ListenAsync (port : Port) (callback : Callback)
| OnStart (callbackList : list Callback)
| Refresh
| Close
| Use (value : UseValue) (middlewares : list Middleware)
| SetBaseUrl (url : string)
| RoutesDirectory (path : string) (arg1 : DirectoryArg) (args : list Middleware)
| RouteCall (arg1 : RouteArg) (arg2 : option string)
| GetRoute (path baseUrl : option string)
| WsGetInstance (options : option ServerOptions)
| WsRegister (options : EventOptions) (callbacks : list Callback)
| WsLoadEvents
| WsLoadEventsAsync
| WsEventsDirectory (path : string)
| WsConnect (disconnectCallback : Callback).

Definition onInstance (method : string)
    (f : WebSocketServer -> WebSocketServer) : M unit :=
  getInstance TheHttpServer None;; callWs method f.

Definition exec (op : Op) : M unit :=
  match op with
  | SetWebSocketServerOptions options => setWebSocketServerOptions options
  | Address => address;; ret tt
  | Listen port callback => listen port callback;; ret tt
  | GetServer => getServer;; ret tt
  | GetHttpServerInstance => getHttpServerInstance;; ret tt
  | ListenAsync port callback => listenAsync port callback;; ret tt
  | OnStart callbackList => onStart callbackList
  | Refresh => refresh
  | Close => close
  | Use value middlewares => use value middlewares
  | SetBaseUrl url => setBaseUrl url
  | RoutesDirectory path arg1 args => routesDirectory path arg1 args
  | RouteCall arg1 arg2 => route arg1 arg2;; ret tt
  | GetRoute path baseUrl => getRoute path baseUrl;; ret tt
  | WsGetInstance options => getInstance TheHttpServer options;; ret tt
  | WsRegister options callbacks =>
      onInstance "register" (register options callbacks)
  | WsLoadEvents => onInstance "loadEvents" loadEvents
  | WsLoadEventsAsync => onInstance "loadEventsAsync" loadEventsAsync
  | WsEventsDirectory path =>
      getInstance TheHttpServer None;; eventsDirectory path
  | WsConnect disconnectCallback =>
      onInstance "connect" (connect disconnectCallback)
  end.

(** A client runs calls one after the other and goes on after a call that
    threw (it may catch). *)
Fixpoint run (ops : list Op) (w : World) : World * list Event :=
  match ops with
  | [] => (w, [])
  | op :: rest =>
      let '(_, w1, t1) := exec op w in
      let '(w2, t2) := run rest w1 in
      (w2, t1 ++ t2)
  end.

(** The worlds a client can bring about. *)
Definition reachable (w : World) : Prop :=
  exists ops, fst (run ops initialWorld) = w.

End WithEnv.

(** ** The middleware adapter *)

(** The part of an express request the adapter touches;
    [sharedState] is [request[SHARED_STATE_SYMBOL]]. *)
Record Request := {
  body : Json;
  params : Json;
  query : Json;
  sharedState : Json
}.

Definition set_body (v : Json) (request : Request) : Request :=
  {| body := v; params := params request; query := query request;
     sharedState := sharedState request |}.

Definition set_params (v : Json) (request : Request) : Request :=
  {| body := body request; params := v; query := query request;
     sharedState := sharedState request |}.

Definition set_query (v : Json) (request : Request) : Request :=
  {| body := body request; params := params request; query := v;
     sharedState := sharedState request |}.

(** What a controller or middleware answers: [{statusCode, body?, headers?}];
    an absent [body] is [JUndefined]. *)
Record HttpResponse := {
  statusCode : nat;
  response_body : Json;
  headers : option Json
}.

(** A [Middleware | Controller]: an object with [handle]; [None] is a falsy
    result (nothing returned, e.g. after [next()]). *)
Record Controller := {
  handle : Request -> option HttpResponse
}.

(** A [RouteMiddleware]: a plain function or an object with [handle]. *)
Inductive RouteMiddleware :=
| FunctionMiddleware (f : Callback)
| ObjectMiddleware (middleware : Controller).

(** What an adapted handler does, in order. *)
Inductive AdapterEvent :=
| FunctionCall (f : Callback) (request : Request)
| HandleCall (request : Request)
| ResponseSet (headers : Json)
| ResponseStatus (code : nat)
| ResponseJson (body : Json).

Section WithConverters.

(** The two converters of [@/util], which is not among the sources. *)
Variable convertSnakeCaseKeysToCamelCase : Json -> Json.
Variable convertCamelCaseKeysToSnakeCase : Json -> Json.

(** [middlewareAdapter(middleware)], applied to a request: the request as
    the adapter leaves it, and what happened. *)
Definition middlewareAdapter (middleware : Controller) (request : Request)
    : Request * list AdapterEvent :=
  let request := set_body (convertSnakeCaseKeysToCamelCase (body request))
                          request in
  let request := set_params (convertSnakeCaseKeysToCamelCase (params request))
                            request in
  let request := set_query (convertSnakeCaseKeysToCamelCase (query request))
                           request in
  let httpResponse := handle middleware request in
  (request,
   HandleCall request ::
   match httpResponse with
   | None => []
   | Some httpResponse =>
       match headers httpResponse with
       | Some h => [ResponseSet h]
       | None => []
       end ++
       [ResponseStatus (statusCode httpResponse);
        ResponseJson
          (convertCamelCaseKeysToSnakeCase (response_body httpResponse))]
   end).

Definition adapter := middlewareAdapter.

Definition adaptMiddlewares (middlewares : list RouteMiddleware)
    : list (Request -> Request * list AdapterEvent) :=
  map (fun middleware =>
         match middleware with
         | FunctionMiddleware f =>
             fun request => (request, [FunctionCall f request])
         | ObjectMiddleware m => middlewareAdapter m
         end)
      middlewares.

End WithConverters.

(** Modelled from the spec: the module [@/util] with the two case converters
    is not among the sources.  The spec has them convert the keys of
    mappings between snake_case and camelCase, recursively over nested
    mappings and sequences, and gives [user_name] / [userName] as the
    example.  They serve the end-to-end example only; the adapter is
    verified for converters of any kind. *)
Module Util.

Definition lowerChar (c : ascii) : ascii :=
  let n := nat_of_ascii c in
  if ((65 <=? n)%nat && (n <=? 90)%nat)%bool then ascii_of_nat (n + 32) else c.

Definition isUpper (c : ascii) : bool :=
  let n := nat_of_ascii c in ((65 <=? n)%nat && (n <=? 90)%nat)%bool.

(** Modelled from the spec: the key conversion of [@/util], which is not
    among the sources; the spec's example turns [user_name] into
    [userName]: an underscore is dropped and the letter after it raised. *)
Fixpoint snakeToCamel (key : string) : string :=
  match key with
  | EmptyString => EmptyString
  | String c rest =>
      if Ascii.eqb c "_"%char then
        match rest with
        | EmptyString => String c EmptyString
        | String c' rest' => String (Js.upperChar c') (snakeToCamel rest')
        end
      else String c (snakeToCamel rest)
  end.

(** Modelled from the spec: the key conversion of [@/util] in the other
    direction; [userName] becomes [user_name]: a capital is lowered and
    gets an underscore before it. *)
Fixpoint camelToSnake (key : string) : string :=
  match key with
  | EmptyString => EmptyString
  | String c rest =>
      if isUpper c then String "_"%char (String (lowerChar c) (camelToSnake rest))
      else String c (camelToSnake rest)
  end.

(** Modelled from the spec: the converters of [@/util] work on the keys of
    mappings, recursively over nested mappings and sequences. *)
Fixpoint convertKeys (f : string -> string) (value : Json) : Json :=
  match value with
  | JArray items => JArray (map (convertKeys f) items)
  | JObject members =>
      JObject (map (fun member =>
                      match member with
                      | (key, v) => (f key, convertKeys f v)
                      end)
                   members)
  | other => other
  end.

Definition convertSnakeCaseKeysToCamelCase : Json -> Json :=
  convertKeys snakeToCamel.

Definition convertCamelCaseKeysToSnakeCase : Json -> Json :=
  convertKeys camelToSnake.

End Util.

(** ** Invariants and relations between worlds *)

(** A computation takes every world to one related to it by [R]. *)
Definition respects (R : World -> World -> Prop) {A} (m : M A) : Prop :=
  forall w, R w (world (m w)).

(** How often the express application has been told to use router [r]. *)
Definition mounts (r : Router) (layer : Layer) : bool :=
  match layer with
  | RouterLayer _ r' => Nat.eqb r' r
  | _ => false
  end.

Definition mountCount (r : Router) (layers : list Layer) : nat :=
  length (filter (mounts r) layers).

(** The registry is well formed: every entry has a router of its own, made
    by the allocator, and that router is mounted once if the entry is
    flagged and not at all otherwise. *)
Record wf (w : World) : Prop := {
  wf_nodup : NoDup (map entry_router (routers (app w)));
  wf_entries : forall e, In e (routers (app w)) -> entry_router e < nextObject w;
  wf_layers : forall url r,
      In (RouterLayer url r) (express (app w)) -> r < nextObject w;
  wf_mounted : forall e, In e (routers (app w)) ->
      mountCount (entry_router e) (express (app w)) =
      if entry_loaded e then 1 else 0
}.

Definition keeps (P : World -> Prop) (w w' : World) : Prop := P w -> P w'.

(** An entry later on: the same but for the flag, which only goes up. *)
Record entryStep (e e' : RouterEntry) : Prop := {
  step_path : entry_path e' = entry_path e;
  step_baseUrl : entry_baseUrl e' = entry_baseUrl e;
  step_router : entry_router e' = entry_router e;
  step_hidden : entry_hidden e' = entry_hidden e;
  step_loaded : entry_loaded e = true -> entry_loaded e' = true
}.

(** A router list later on: every entry still at its place, new ones after. *)
Inductive extends : list RouterEntry -> list RouterEntry -> Prop :=
| extends_nil : forall l, extends [] l
| extends_cons : forall e e' l l',
    entryStep e e' -> extends l l' -> extends (e :: l) (e' :: l').

(** A world later on. *)
Record grows (w w' : World) : Prop := {
  grows_started : isStarted (app w) = true -> isStarted (app w') = true;
  grows_baseUrl : isStarted (app w) = true ->
                  baseUrl (app w') = baseUrl (app w);
  grows_routers : extends (routers (app w)) (routers (app w'));
  grows_express : exists extra, express (app w') = express (app w) ++ extra;
  grows_objects : nextObject w <= nextObject w'
}.

(** The WebSocket switch is as it was, and while it is off so is the field. *)
Record sameSwitch (w w' : World) : Prop := {
  switch_same : startWebSocketServer (app w') = startWebSocketServer (app w);
  switch_field : startWebSocketServer (app w) = false ->
                 websocketServer (app w') = websocketServer (app w)
}.

(** What [loadRoutes] throws in a world, if it throws: the error of
    [express.use] at the first router still to be mounted whose mount path
    express cannot compile. *)
Definition mountFailure (env : Env) (w : World) : option Js.Error :=
  snd (mountPending env (baseUrl (app w)) (routers (app w))).

Definition isSetWebSocketServerOptions (op : Op) : bool :=
  match op with SetWebSocketServerOptions _ => true | _ => false end.

Definition isServerListen (e : Event) : bool :=
  match e with ServerListen _ _ _ => true | _ => false end.

Definition isSetupCall (e : Event) : bool :=
  match e with SetupCall _ _ => true | _ => false end.

Definition setupCalls (t : list Event) : nat :=
  length (filter isSetupCall t).

(** ** Fixtures *)

(** A directory with one handler and one spec file, both modules exporting
    a function by default. *)
Definition twoFiles : Env :=
  {| expressUse := fun _ => None;
     osBind := fun port => Some port;
     readdirSync := fun _ => Some ["health.ts"; "foo.spec.ts"];
     resolve := fun path fileName => (path ++ "/" ++ fileName)%string;
     importDefault := fun _ => Some ExportFunction;
     callbackFailure := fun _ => None;
     rejectedAt := fun _ => 0 |}.

(** The same, with an express that cannot compile the mount path [/(]. *)
Definition unbalancedPath : Env :=
  {| expressUse := fun url =>
       if String.eqb url "/(" then Some (Js.SyntaxError "Unterminated group")
       else None;
     osBind := fun port => Some port;
     readdirSync := fun _ => Some ["health.ts"; "foo.spec.ts"];
     resolve := fun path fileName => (path ++ "/" ++ fileName)%string;
     importDefault := fun _ => Some ExportFunction;
     callbackFailure := fun _ => None;
     rejectedAt := fun _ => 0 |}.

(** A server with a WebSocket server configured, started by [listen]. *)
Definition configuredAndListening : World :=
  world (listen twoFiles 3000 7
           (world (setWebSocketServerOptions None initialWorld))).

(** A world in which [listenAsync] can complete: the WebSocket server is
    configured and its instance was made, by a client, from the
    [HttpServer] itself. *)
Definition instanceMade : World :=
  fst (run twoFiles [SetWebSocketServerOptions None; WsGetInstance None]
           initialWorld).

(** A registry with a hidden entry, made by [routesDirectory], and an
    entry for the path [health]. *)
Definition someRoutes : World :=
  fst (run twoFiles
           [RoutesDirectory "routes" NoArg [];
            RouteCall (PathArg (Some "health")) None]
           initialWorld).

(** The warning of [setBaseUrl]. *)
Definition baseUrlWarning : Event :=
  LoggerLog "warn" "Only set the default base url if the server is not started".

(** An instance of the WebSocket server as the constructor leaves it. *)
Definition freshInstance : WebSocketServer :=
  {| ws_server := 1; ws_options := None; ws_events := []; ws_listeners := [] |}.

(** The controller of the end-to-end example: it answers 200 with the
    body [{userName: "a"}]. *)
Definition userController : Controller :=
  {| handle := fun _ =>
       Some {| statusCode := 200;
               response_body := JObject [("userName", JString "a")];
               headers := None |} |}.

Definition postUser : Request :=
  {| body := JObject [("user_name", JString "a")];
     params := JObject []; query := JObject []; sharedState := JObject [] |}.

(** ** The shared state of a request *)

(** [obj[key]] on the members of an object: the own property, if any. *)
Fixpoint get (key : string) (obj : list (string * Json)) : option Json :=
  match obj with
  | [] => None
  | (k, v) :: rest => if String.eqb k key then Some v else get key rest
  end.

(** The value of a decimal digit. *)
Definition digit (c : ascii) : option N :=
  let code := N_of_ascii c in
  if ((48 <=? code) && (code <=? 57))%N then Some (code - 48)%N else None.

Fixpoint digits (s : string) (acc : N) : option N :=
  match s with
  | EmptyString => Some acc
  | String c rest =>
      match digit c with
      | Some d => digits rest (10 * acc + d)%N
      | None => None
      end
  end.

(** A key that is an array index: the decimal form, with no zero in front,
    of an integer from 0 to 2^32 - 2. *)
Definition arrayIndex (key : string) : option N :=
  match key with
  | EmptyString => None
  | String "0" EmptyString => Some 0%N
  | String "0" _ => None
  | _ =>
      match digits key 0 with
      | Some n => if (n <=? 4294967294)%N then Some n else None
      | None => None
      end
  end.

(** What the bag inherits from. *)
Inductive Prototype :=
| ObjectPrototype                 (* [Object.prototype], as for [{}] *)
| NullPrototype                   (* nothing *)
| ValuePrototype (value : Json).  (* an object or an array *)

(** The bag [request[SHARED_STATE_SYMBOL]]: its own properties, in the
    order JavaScript keeps them (array indices first, in ascending order,
    then the other keys as they were created), and its prototype. *)
Record Bag := {
  own : list (string * Json);
  prototype : Prototype
}.

(** An own property is written where it is. *)
Fixpoint update (key : string) (v : Json) (obj : list (string * Json))
    : list (string * Json) :=
  match obj with
  | [] => []
  | (k, old) :: rest =>
      if String.eqb k key then (k, v) :: rest
      else (k, old) :: update key v rest
  end.

(** A new array index goes before the first key that is no index or a
    larger one. *)
Fixpoint insertIndex (n : N) (key : string) (v : Json)
    (obj : list (string * Json)) : list (string * Json) :=
  match obj with
  | [] => [(key, v)]
  | (k, x) :: rest =>
      match arrayIndex k with
      | Some m =>
          if (m <? n)%N then (k, x) :: insertIndex n key v rest
          else (key, v) :: (k, x) :: rest
      | None => (key, v) :: (k, x) :: rest
      end
  end.

(** A new own property takes its place in the property order. *)
Definition define (key : string) (v : Json) (obj : list (string * Json))
    : list (string * Json) :=
  match arrayIndex key with
  | Some n => insertIndex n key v obj
  | None => obj ++ [(key, v)]
  end.

(** Whether an assignment to [__proto__] on an object with this prototype
    and no such property of its own reaches the setter of
    [Object.prototype]: not when the chain ends before it, and not when an
    object on the chain has a property [__proto__] of its own. *)
Definition inheritsProtoSetter (p : Prototype) : bool :=
  match p with
  | ObjectPrototype => true
  | NullPrototype => false
  | ValuePrototype (JObject members) =>
      match get "__proto__" members with
      | Some _ => false
      | None => true
      end
  | ValuePrototype _ => true
  end.

(** The setter of [Object.prototype.__proto__]: an object or [null]
    becomes the prototype, any other value is ignored. *)
Definition setPrototype (v : Json) (p : Prototype) : Prototype :=
  match v with
  | JObject _ | JArray _ => ValuePrototype v
  | JNull => NullPrototype
  | _ => p
  end.

(** [bag[key] = v].  An own property is written where it is.  Without
    one, the key [__proto__] goes to the inherited setter, if there is one,
    and the bag gets no property; any other key becomes a new own
    property. *)
Definition assign (key : string) (v : Json) (bag : Bag) : Bag :=
  match get key (own bag) with
  | Some _ => {| own := update key v (own bag); prototype := prototype bag |}
  | None =>
      if (String.eqb key "__proto__" && inheritsProtoSetter (prototype bag))%bool
      then {| own := own bag; prototype := setPrototype v (prototype bag) |}
      else {| own := define key v (own bag); prototype := prototype bag |}
  end.

(** The key of an array index or of a character position. *)
Definition indexKey (i : nat) : string :=
  DecimalString.NilEmpty.string_of_uint (Nat.to_uint i).

Fixpoint indexed (i : nat) (items : list Json) : list (string * Json) :=
  match items with
  | [] => []
  | item :: rest => (indexKey i, item) :: indexed (S i) rest
  end.

Fixpoint characters (s : string) : list Json :=
  match s with
  | EmptyString => []
  | String c rest => JString (String c EmptyString) :: characters rest
  end.

(** [state[key]] for a key of an object. *)
Definition valueOf (key : string) (members : list (string * Json)) : Json :=
  match get key members with
  | Some v => v
  | None => JUndefined
  end.

(** One more member of an object gone through: a key seen before is
    passed over, a new one takes its place in the property order, with the
    value the object holds for it. *)
Definition visit (members seen : list (string * Json))
    (member : string * Json) : list (string * Json) :=
  match get (fst member) seen with
  | Some _ => seen
  | None => define (fst member) (valueOf (fst member) members) seen
  end.

(** The properties of an object in property order: each key once, the
    array indices first, in ascending order, then the other keys in the
    order of the members. *)
Definition ownProperties (members : list (string * Json))
    : list (string * Json) :=
  fold_left (visit members) members [].

(** [for (const key in state)]: the keys visited, each with [state[key]].
    An object gives its own keys in property order, an array its indices,
    a string its positions; [undefined], [null], booleans and numbers give
    nothing. *)
Definition forIn (state : Json) : list (string * Json) :=
  match state with
  | JObject members => ownProperties members
  | JArray items => indexed 0 items
  | JString s => indexed 0 (characters s)
  | _ => []
  end.

(** [typeof key] for a key that [for ... in] yields: always a string. *)
Definition typeofKey (key : string) : string := "string".

(** The loop of the function [makeSetStateInRequest] returns, run on the
    bag of the request. *)
Definition setState (state : Json) (bag : Bag) : Bag :=
  fold_left
    (fun bag entry =>
       let key := fst entry in
       if (String.eqb (typeofKey key) "string" ||
           String.eqb (typeofKey key) "number")%bool
       then assign key (snd entry) bag
       else bag)
    (forIn state) bag.

(** [request[SHARED_STATE_SYMBOL] = {}] of [makeSharedStateInitializer]:
    the bag every request starts with. *)
Definition makeSharedStateInitializer : Bag :=
  {| own := []; prototype := ObjectPrototype |}.

(** [makeSetStateInRequest(request)(state)], on the bag of the request.
    Nothing else writes [request[SHARED_STATE_SYMBOL]]: the changer
    [makeSharedStateChanger] is never installed. *)
Definition makeSetStateInRequest (bag : Bag) (state : Json) : Bag :=
  setState state bag.

(** The request after the adapted handlers have run on it one after the
    other, as they do on a route when each passes on with [next()]. *)
Definition threadRequest
    (handlers : list (Request -> Request * list AdapterEvent))
    (request : Request) : Request :=
  fold_left (fun r adapted => fst (adapted r)) handlers request.

Definition isObjectMiddleware (middleware : RouteMiddleware) : bool :=
  match middleware with ObjectMiddleware _ => true | _ => false end.

(** The first character of a string, if it has one. *)
Definition firstChar (s : string) : option ascii :=
  match s with
  | EmptyString => None
  | String c _ => Some c
  end.

(** ** More relations between worlds *)

(** Once the server has started, the node server, the listener options and
    the address are settled. *)
Record settled (w w' : World) : Prop := {
  settled_started : isStarted (app w) = true -> isStarted (app w') = true;
  settled_server : isStarted (app w) = true ->
                   server (app w') = server (app w);
  settled_options : isStarted (app w) = true ->
                    listenerOptions (app w') = listenerOptions (app w);
  settled_address : isStarted (app w) = true ->
                    addressInfo (app w') = addressInfo (app w)
}.

(** Before the start there is no node server, no listener options and no
    address. *)
Definition unstarted (w : World) : Prop :=
  isStarted (app w) = false ->
  server (app w) = None /\ listenerOptions (app w) = None /\
  addressInfo (app w) = None.

(** No router is mounted at a URL with two slashes in a row. *)
Definition cleanUrls (w : World) : Prop :=
  forall url r, In (RouterLayer url r) (express (app w)) ->
                Js.includes url "//" = false.

(** The WebSocket instance later on: the same socket server and options,
    the events and the listeners it had, and maybe more after them. *)
Record instanceGrows (w w' : World) : Prop := {
  instance_kept : forall ws, wsInstance w = Some ws ->
    exists ws', wsInstance w' = Some ws' /\
      ws_server ws' = ws_server ws /\ ws_options ws' = ws_options ws /\
      (exists more, ws_events ws' = ws_events ws ++ more) /\
      (exists more, ws_listeners ws' = ws_listeners ws ++ more)
}.

Definition isEventListener (l : string * SocketListener) : bool :=
  match snd l with EventListener _ => true | _ => false end.

(** The listeners bound for registered events, on the instance if there
    is one. *)
Definition boundEvents (w : World) : list (string * SocketListener) :=
  match wsInstance w with
  | Some ws => filter isEventListener (ws_listeners ws)
  | None => []
  end.

Definition sameBound (w w' : World) : Prop := boundEvents w' = boundEvents w.

Definition isLoadEvents (op : Op) : bool :=
  match op with
  | WsLoadEvents | WsLoadEventsAsync => true
  | _ => false
  end.

(** A method of the instance that keeps the socket server and the options
    and only adds, after what is there, to the events and the listeners. *)
Definition addsOnly (f : WebSocketServer -> WebSocketServer) : Prop :=
  forall ws,
    ws_server (f ws) = ws_server ws /\ ws_options (f ws) = ws_options ws /\
    (exists more, ws_events (f ws) = ws_events ws ++ more) /\
    (exists more, ws_listeners (f ws) = ws_listeners ws ++ more).

Definition isCallbackCall (e : Event) : bool :=
  match e with CallbackCall _ => true | _ => false end.

Definition isImportModule (e : Event) : bool :=
  match e with ImportModule _ => true | _ => false end.

(** A computation that, run in a world where [I] holds, keeps [I] and
    does nothing of the kind [p] to the outside. *)
Definition quiet (I : World -> Prop) (p : Event -> bool) {A} (m : M A) : Prop :=
  forall w, I w -> I (world (m w)) /\ filter p (trace (m w)) = [].

Definition started (w : World) : Prop := isStarted (app w) = true.

Definition anyWorld (w : World) : Prop := True.

(** A binding of a node server other than [s]. *)
Definition bindsOther (s : NodeServer) (e : Event) : bool :=
  match e with
  | ServerListen s' _ _ => negb (Nat.eqb s' s)
  | _ => false
  end.

(** The WebSocket switch, once on, is on. *)
Definition switchStays (w w' : World) : Prop :=
  startWebSocketServer (app w) = true -> startWebSocketServer (app w') = true.

(** The number of port bindings in a trace. *)
Definition binds (t : list Event) : nat := length (filter isServerListen t).

(** A computation that does at most [n] things of the kind [p]. *)
Definition atMost (p : Event -> bool) (n : nat) {A} (m : M A) : Prop :=
  forall w, length (filter p (trace (m w))) <= n.

Definition isFunctionExport (env : Env) (path fileName : string) : bool :=
  match importDefault env (resolve env path fileName) with
  | Some ExportFunction => true
  | _ => false
  end.

(** ** More fixtures *)

(** A directory whose second module cannot be imported. *)
Definition brokenSecond : Env :=
  {| expressUse := fun _ => None;
     osBind := fun port => Some port;
     rejectedAt := fun _ => 0;
     readdirSync := fun _ => Some ["a.ts"; "b.ts"; "c.ts"];
     resolve := fun path fileName => (path ++ "/" ++ fileName)%string;
     importDefault := fun filePath =>
       if String.eqb filePath "routes/b.ts" then None else Some ExportFunction;
     callbackFailure := fun _ => None |}.

(** No directory can be read and every port is taken; the startup
    callbacks 5 and 6 fail, 6 before 5. *)
Definition nothingReadable : Env :=
  {| expressUse := fun _ => None;
     osBind := fun _ => None;
     rejectedAt := fun callback => if Nat.eqb callback 5 then 2 else 1;
     readdirSync := fun _ => None;
     resolve := fun path fileName => (path ++ "/" ++ fileName)%string;
     importDefault := fun _ => None;
     callbackFailure := fun callback =>
       if Nat.eqb callback 5 then Some (Js.Rejected "startup")
       else if Nat.eqb callback 6 then Some (Js.Rejected "sooner")
       else None |}.

(** A server with the WebSocket switch on and no instance made. *)
Definition switchedOn : World :=
  world (setWebSocketServerOptions None initialWorld).

(** * Properties *)

(** ** Strings and the filter *)

Example upper_spec : Js.toLocaleUpperCase "foo.spec.ts" = "FOO.SPEC.TS".
Proof. reflexivity. Qed.

Example marker_spec : hasExcludedMarker "foo.spec.ts" = true.
Proof. reflexivity. Qed.

Example marker_health : hasExcludedMarker "health.ts" = false.
Proof. reflexivity. Qed.

Example ext_health : hasAcceptedExtension "health.ts" = true.
Proof. reflexivity. Qed.

Example ext_readme : hasAcceptedExtension "README.md" = false.
Proof. reflexivity. Qed.

Example collapse_api : Js.collapseSlashes "/api/v1//health" = "/api/v1/health".
Proof. reflexivity. Qed.

Example collapse_run : Js.collapseSlashes "///" = "/".
Proof. reflexivity. Qed.

(** ** The directory loaders *)

(** An array is truthy whatever it holds: the filter lets every name in. *)
Lemma passesFilter_always (fileName : string) : passesFilter fileName = true.
Proof. reflexivity. Qed.

Lemma setupCalls_app (a b : list Event) :
  setupCalls (a ++ b) = setupCalls a + setupCalls b.
Proof. unfold setupCalls. now rewrite filter_app, length_app. Qed.

(** Whatever the names, every file whose module exports a function has its
    setup called. *)
Lemma loadFiles_calls_every_setup (env : Env) (path : string)
    (target : SetupTarget) (files : list string) (w : World) :
  (forall fileName, In fileName files ->
     importDefault env (resolve env path fileName) = Some ExportFunction) ->
  result (loadFiles env path target files w) = Normal tt /\
  setupCalls (trace (loadFiles env path target files w)) = length files.
Proof.
  induction files as [|f files IH]; intros H; [split; reflexivity|].
  destruct IH as [IHr IHt]; [intros x Hx; apply H; now right|].
  simpl. unfold bind, emit, result, trace in *. simpl.
  rewrite (H f) by now left. simpl.
  destruct (loadFiles env path target files w) as [[c w'] t]. simpl in *.
  split; [assumption|]. unfold setupCalls in *. simpl. now rewrite IHt.
Qed.

(** C1, at the directory [twoFiles]: one file carries an excluded marker
    and an accepted extension, the other is a plain handler, and both
    loaders call the setup of both. *)
Theorem directory_loaders_call_excluded_file :
  hasExcludedMarker "foo.spec.ts" = true /\
  hasExcludedMarker "health.ts" = false /\
  hasAcceptedExtension "health.ts" = true /\
  trace (routesDirectory twoFiles "routes" NoArg [] initialWorld) =
    [ImportModule "routes/health.ts";
     SetupCall "routes/health.ts" (ToRoute 0);
     ImportModule "routes/foo.spec.ts";
     SetupCall "routes/foo.spec.ts" (ToRoute 0)] /\
  setupCalls (trace (routesDirectory twoFiles "routes" NoArg [] initialWorld)) = 2 /\
  setupCalls (trace (eventsDirectory twoFiles "events" initialWorld)) = 2.
Proof. repeat split; reflexivity. Qed.

(** ** refresh *)

Lemma refresh_not_started (env : Env) (w : World) :
  isStarted (app w) = false -> refresh env w = (Normal tt, w, []).
Proof. intros H. unfold refresh, bind, getApp. simpl. rewrite H. reflexivity. Qed.

(** C2: on a started server [refresh] closes the listener and leaves it
    at that: the [listen] it calls returns at its guard, nothing is bound
    again and the world is as it was. *)
Theorem refresh_closes_without_listening (env : Env) (w : World)
    (s : NodeServer) (lo : ListenerOptions) :
  isStarted (app w) = true ->
  server (app w) = Some s ->
  listenerOptions (app w) = Some lo ->
  refresh env w = (Normal tt, w, [ServerClose s "Refreshing server"]).
Proof.
  intros Hst Hsrv Hlo.
  unfold refresh, listen, bind, getApp, emit, ret. simpl.
  rewrite Hst, Hsrv, Hlo. simpl. rewrite Hst. reflexivity.
Qed.

Lemma refresh_closes_without_listening_witness :
  refresh twoFiles (world (listen twoFiles 3000 7 initialWorld)) =
    (Normal tt, world (listen twoFiles 3000 7 initialWorld),
     [ServerClose 0 "Refreshing server"]).
Proof.
  apply (refresh_closes_without_listening twoFiles
           (world (listen twoFiles 3000 7 initialWorld)) 0
           {| lo_port := 3000; lo_callback := 7 |});
    vm_compute; reflexivity.
Defined.

(** ** close *)

Lemma close_not_started (w : World) :
  isStarted (app w) = false -> close w = (Normal tt, w, []).
Proof. intros H. unfold close, bind, getApp. simpl. rewrite H. reflexivity. Qed.

Lemma close_without_websocket (w : World) (s : NodeServer) :
  isStarted (app w) = true ->
  server (app w) = Some s ->
  startWebSocketServer (app w) = false ->
  close w = (Normal tt, w, [ServerClose s "Shutting down server"]).
Proof.
  intros Hst Hsrv Hws. unfold close, bind, getApp, emit, ret. simpl.
  rewrite Hst, Hsrv, Hws. reflexivity.
Qed.

(** C3: with a WebSocket server configured, [close] on a started server
    closes the HTTP listener and then throws a [TypeError]; no call reaches
    the WebSocket server. *)
Theorem close_throws_when_websocket_configured (w : World) (s : NodeServer) :
  isStarted (app w) = true ->
  server (app w) = Some s ->
  startWebSocketServer (app w) = true ->
  exists message,
    close w = (Throw (Js.TypeError message), w,
               [ServerClose s "Shutting down server"]).
Proof.
  intros Hst Hsrv Hws. unfold close, bind, getApp, emit, ret, throw. simpl.
  rewrite Hst, Hsrv, Hws. simpl.
  destruct (websocketServer (app w)) as [[]|]; eexists; reflexivity.
Qed.

Lemma close_throws_when_websocket_configured_witness :
  exists message,
    close configuredAndListening =
      (Throw (Js.TypeError message), configuredAndListening,
       [ServerClose 0 "Shutting down server"]).
Proof.
  apply (close_throws_when_websocket_configured configuredAndListening 0);
    vm_compute; reflexivity.
Defined.

(** ** Reasoning about computations *)

Section Respects.

Variable R : World -> World -> Prop.
Hypothesis R_refl : forall w, R w w.
Hypothesis R_trans : forall a b c, R a b -> R b c -> R a c.

Lemma respects_ret {A} (a : A) : respects R (ret a).
Proof. intros w. apply R_refl. Qed.

Lemma respects_throw {A} (e : Js.Error) : respects R (@throw A e).
Proof. intros w. apply R_refl. Qed.

Lemma respects_emit (e : Event) : respects R (emit e).
Proof. intros w. apply R_refl. Qed.

Lemma respects_getApp : respects R getApp.
Proof. intros w. apply R_refl. Qed.

Lemma respects_getWs : respects R getWs.
Proof. intros w. apply R_refl. Qed.

Lemma respects_bind {A B} (m : M A) (k : A -> M B) :
  respects R m -> (forall a, respects R (k a)) -> respects R (bind m k).
Proof.
  intros Hm Hk w. unfold bind, world. specialize (Hm w). unfold world in Hm.
  destruct (m w) as [[[a|e] w1] t1]; simpl in *; [|exact Hm].
  specialize (Hk a w1). unfold world in Hk.
  destruct (k a w1) as [[c w2] t2]; simpl in *. eauto.
Qed.

(** Reading [this] first: the rest may be examined at the world read. *)
Lemma respects_this {A} (k : HttpServer -> M A) :
  (forall w, R w (world (k (app w) w))) -> respects R (bind getApp k).
Proof.
  intros H w. specialize (H w). unfold bind, getApp, world in *. simpl.
  destruct (k (app w) w) as [[c w2] t2]. exact H.
Qed.

End Respects.

Lemma callAll_run (l : list Callback) (w : World) :
  callAll l w = (Normal tt, w, map CallbackCall l).
Proof.
  induction l as [|c l IH]; [reflexivity|].
  simpl. unfold bind, emit. simpl. rewrite IH. reflexivity.
Qed.

Lemma loadFiles_world (env : Env) (path : string) (target : SetupTarget)
    (files : list string) (w : World) :
  world (loadFiles env path target files w) = w.
Proof.
  induction files as [|f files IH]; [reflexivity|].
  simpl. unfold bind, emit, ret, throw, world in *. simpl.
  destruct (importDefault env (resolve env path f)) as [[|]|]; simpl;
    try reflexivity;
    destruct (loadFiles env path target files w) as [[c w'] t];
    simpl in *; exact IH.
Qed.

Lemma readdir_world (env : Env) (path : string) (w : World) :
  world (readdir env path w) = w.
Proof. unfold readdir. destruct (readdirSync env path); reflexivity. Qed.

Lemma respects_callAll R (l : list Callback) :
  (forall w, R w w) -> respects R (callAll l).
Proof. intros H w. rewrite callAll_run. apply H. Qed.

Lemma respects_loadFiles R env path target files :
  (forall w, R w w) -> respects R (loadFiles env path target files).
Proof. intros H w. rewrite loadFiles_world. apply H. Qed.

Lemma respects_readdir R env path :
  (forall w, R w w) -> respects R (readdir env path).
Proof. intros H w. rewrite readdir_world. apply H. Qed.

(** Splitting a computation along its binds and its case analyses. *)
Ltac respects_by leaf :=
  repeat first
    [ leaf
    | apply respects_ret; solve [auto]
    | apply respects_throw; solve [auto]
    | apply respects_emit; solve [auto]
    | apply respects_getApp; solve [auto]
    | apply respects_getWs; solve [auto]
    | apply respects_callAll; solve [auto]
    | apply respects_loadFiles; solve [auto]
    | apply respects_readdir; solve [auto]
    | apply respects_bind; [solve [eauto] | | intros ]
    | match goal with
      | |- respects _ (if ?b then _ else _) => destruct b
      | |- respects _ (match ?x with _ => _ end) => destruct x
      | |- respects _ (let '(_, _) := ?x in _) => destruct x
      end ].

(** ** Worlds only grow *)

Lemma entryStep_refl (e : RouterEntry) : entryStep e e.
Proof. constructor; auto. Qed.

Lemma entryStep_trans (a b c : RouterEntry) :
  entryStep a b -> entryStep b c -> entryStep a c.
Proof.
  intros [] []. constructor; try congruence. auto.
Qed.

Lemma entryStep_markLoaded (e : RouterEntry) : entryStep e (markLoaded e).
Proof. constructor; reflexivity. Qed.

Lemma extends_refl (l : list RouterEntry) : extends l l.
Proof.
  induction l; constructor; auto using entryStep_refl.
Qed.

Lemma extends_trans (a b c : list RouterEntry) :
  extends a b -> extends b c -> extends a c.
Proof.
  intros Hab. revert c. induction Hab; intros c Hbc; [constructor|].
  inversion Hbc; subst. constructor; eauto using entryStep_trans.
Qed.

Lemma extends_app (l extra : list RouterEntry) : extends l (l ++ extra).
Proof.
  induction l; simpl; constructor; auto using entryStep_refl.
Qed.

Lemma extends_length (l l' : list RouterEntry) :
  extends l l' -> length l <= length l'.
Proof. induction 1; simpl; lia. Qed.

(** An entry of the earlier list is, later, the entry at the same place. *)
Lemma extends_nth (l l' : list RouterEntry) (i : nat) (e : RouterEntry) :
  extends l l' -> nth_error l i = Some e ->
  exists e', nth_error l' i = Some e' /\ entryStep e e'.
Proof.
  intros H. revert i. induction H; intros i Hi.
  - destruct i; discriminate.
  - destruct i; simpl in *.
    + inversion Hi; subst. eauto.
    + eauto.
Qed.

Lemma grows_refl (w : World) : grows w w.
Proof.
  constructor; auto using extends_refl.
  exists []. now rewrite app_nil_r.
Qed.

Lemma grows_trans (a b c : World) : grows a b -> grows b c -> grows a c.
Proof.
  intros [s1 b1 r1 [x1 e1] o1] [s2 b2 r2 [x2 e2] o2]. constructor.
  - auto.
  - intros H. rewrite b2, b1; auto.
  - eauto using extends_trans.
  - exists (x1 ++ x2). rewrite e2, e1. now rewrite app_assoc.
  - lia.
Qed.

#[local] Hint Resolve grows_refl grows_trans : core.

Lemma grows_modifyApp (f : HttpServer -> HttpServer) :
  (forall this, isStarted this = true -> isStarted (f this) = true) ->
  (forall this, isStarted this = true -> baseUrl (f this) = baseUrl this) ->
  (forall this, extends (routers this) (routers (f this))) ->
  (forall this, exists extra, express (f this) = express this ++ extra) ->
  respects grows (modifyApp f).
Proof.
  intros Hs Hb Hr He w. constructor; simpl; auto.
Qed.

Lemma grows_newObject : respects grows newObject.
Proof.
  intros w. constructor; simpl; auto using extends_refl.
  exists []. now rewrite app_nil_r.
Qed.

Lemma grows_putWs (ws : WebSocketServer) : respects grows (putWs ws).
Proof.
  intros w. constructor; simpl; auto using extends_refl.
  exists []. now rewrite app_nil_r.
Qed.

Ltac grows_field :=
  apply grows_modifyApp; intros; simpl;
  auto using extends_refl, extends_app;
  try (exists []; now rewrite app_nil_r); try (eexists; reflexivity).

Create HintDb grows.

Ltac grows_auto :=
  respects_by ltac:(solve [auto with grows nocore]);
  try first [ apply grows_newObject | apply grows_putWs | grows_field ].

(** What the loop of [loadRoutes] leaves: the entries at their places,
    flags only raised. *)
Lemma mountPending_extends (env : Env) (base : string) (l : list RouterEntry) :
  extends l (fst (fst (mountPending env base l))).
Proof.
  induction l as [|e l IH]; simpl; [constructor|].
  destruct (entry_loaded e) eqn:El.
  - destruct (mountPending env base l) as [[l' layers] failure]. simpl in *.
    constructor; auto using entryStep_refl.
  - destruct (expressUse env (mountUrl base e)).
    + simpl. apply extends_refl.
    + destruct (mountPending env base l) as [[l' layers] failure]. simpl in *.
      constructor; auto using entryStep_markLoaded.
Qed.

(** [loadRoutes] as one step: the outcome, the world, no event. *)
Lemma loadRoutes_run (env : Env) (w : World) :
  loadRoutes env w =
    (match snd (mountPending env (baseUrl (app w)) (routers (app w))) with
     | Some e => Throw e
     | None => Normal tt
     end,
     {| app :=
          set_routers
            (fst (fst (mountPending env (baseUrl (app w)) (routers (app w)))))
            (set_express
               (express (app w) ++
                snd (fst (mountPending env (baseUrl (app w))
                                       (routers (app w)))))
               (app w));
        wsInstance := wsInstance w;
        nextObject := nextObject w |},
     []).
Proof.
  unfold loadRoutes, bind, getApp, modifyApp, throw, ret. simpl.
  destruct (mountPending env (baseUrl (app w)) (routers (app w)))
    as [[l layers] [e|]]; reflexivity.
Qed.

Lemma grows_loadRoutes env : respects grows (loadRoutes env).
Proof.
  intros w. rewrite loadRoutes_run. constructor; simpl; auto.
  - apply mountPending_extends.
  - eexists; reflexivity.
Qed.

#[local] Hint Resolve grows_loadRoutes : grows.

Lemma grows_createRoute path baseUrl hidden :
  respects grows (createRoute path baseUrl hidden).
Proof. unfold createRoute. grows_auto. Qed.

Lemma grows_getServer env : respects grows (getServer env).
Proof. unfold getServer. grows_auto. Qed.

#[local] Hint Resolve grows_createRoute grows_getServer
  grows_newObject grows_putWs : grows.

Lemma grows_listen env port callback :
  respects grows (listen env port callback).
Proof. unfold listen, serverListen. grows_auto. Qed.

Lemma grows_setBaseUrl url : respects grows (setBaseUrl url).
Proof.
  unfold setBaseUrl. apply respects_this; auto. intros w.
  destruct (isStarted (app w)) eqn:E; [apply grows_refl|].
  constructor; simpl; auto using extends_refl; try congruence.
  exists []. now rewrite app_nil_r.
Qed.

Lemma grows_getInstance env httpServer options :
  respects grows (getInstance env httpServer options).
Proof. unfold getInstance. grows_auto. Qed.

Lemma grows_callWs method f : respects grows (callWs method f).
Proof. unfold callWs. grows_auto. Qed.

#[local] Hint Resolve grows_listen grows_setBaseUrl grows_getInstance
  grows_callWs : grows.

Lemma grows_exec env op : respects grows (exec env op).
Proof.
  destruct op; simpl;
    unfold setWebSocketServerOptions, address, getHttpServerInstance,
      listenAsync, initializeWebSocketServer, eventsDirectory, onStart,
      refresh, close, use, addLayer, serverListen, routesDirectory, route,
      getRoute, onInstance;
    grows_auto.
Qed.

Lemma grows_run env ops w : grows w (fst (run env ops w)).
Proof.
  revert w. induction ops as [|op ops IH]; intros w; simpl; [auto|].
  pose proof (grows_exec env op w) as H. unfold world in H.
  destruct (exec env op w) as [[c w1] t1]. simpl in H.
  specialize (IH w1). destruct (run env ops w1) as [w2 t2]. simpl in *.
  eauto.
Qed.

(** ** The registry stays well formed *)

Lemma mountCount_app (r : Router) (a b : list Layer) :
  mountCount r (a ++ b) = mountCount r a + mountCount r b.
Proof. unfold mountCount. now rewrite filter_app, length_app. Qed.

Lemma mountCount_absent (r : Router) (layers : list Layer) :
  (forall url, ~ In (RouterLayer url r) layers) -> mountCount r layers = 0.
Proof.
  induction layers as [|layer layers IH]; intros H; [reflexivity|].
  unfold mountCount in *. simpl.
  destruct layer as [|url r'|p ms]; simpl;
    try (apply IH; intros url' Hin; apply (H url'); now right).
  destruct (Nat.eqb_spec r' r) as [->|Hne].
  - exfalso. apply (H url). now left.
  - apply IH. intros url' Hin. apply (H url'). now right.
Qed.

Section MountPending.

Variable env : Env.
Variable base : string.

Lemma mountPending_routers (l : list RouterEntry) :
  map entry_router (fst (fst (mountPending env base l))) =
  map entry_router l.
Proof.
  induction l as [|e l IH]; simpl; [reflexivity|].
  destruct (entry_loaded e).
  - destruct (mountPending env base l) as [[l' layers] failure]. simpl in *.
    now rewrite IH.
  - destruct (expressUse env (mountUrl base e)); [reflexivity|].
    destruct (mountPending env base l) as [[l' layers] failure]. simpl in *.
    now rewrite IH.
Qed.

(** The loop mounts routers only, each the router of an entry that was not
    flagged, at the URL of that entry. *)
Lemma mountPending_layers (l : list RouterEntry) (layer : Layer) :
  In layer (snd (fst (mountPending env base l))) ->
  exists e, In e l /\ entry_loaded e = false /\
            layer = RouterLayer (mountUrl base e) (entry_router e).
Proof.
  induction l as [|e l IH]; simpl; [contradiction|].
  destruct (entry_loaded e) eqn:El.
  - destruct (mountPending env base l) as [[l' layers] failure]. simpl in *.
    intros Hin. destruct (IH Hin) as [x [Hx H]]. eauto.
  - destruct (expressUse env (mountUrl base e)); [contradiction|].
    destruct (mountPending env base l) as [[l' layers] failure]. simpl in *.
    intros [<-|Hin]; [eauto|]. destruct (IH Hin) as [x [Hx H]]. eauto.
Qed.

Lemma mountPending_absent (l : list RouterEntry) (r : Router) :
  ~ In r (map entry_router l) ->
  mountCount r (snd (fst (mountPending env base l))) = 0.
Proof.
  intros H. apply mountCount_absent. intros url Hin.
  apply mountPending_layers in Hin. destruct Hin as [e [Hin [_ Heq]]].
  inversion Heq; subst. apply H. now apply in_map.
Qed.

(** Each entry after the loop comes from an entry before it with the same
    router; the loop has mounted that router once if it raised the flag
    and not at all otherwise. *)
Lemma mountPending_count (l : list RouterEntry) (e' : RouterEntry) :
  NoDup (map entry_router l) ->
  In e' (fst (fst (mountPending env base l))) ->
  exists e, In e l /\ entry_router e' = entry_router e /\
   mountCount (entry_router e) (snd (fst (mountPending env base l))) +
      (if entry_loaded e then 1 else 0) =
    (if entry_loaded e' then 1 else 0).
Proof.
  induction l as [|a l IH]; intros Hnd Hin; [contradiction|].
  simpl in Hnd. inversion Hnd as [|x xs Hnotin Hnd']; subst.
  pose proof (mountPending_absent l (entry_router a) Hnotin) as Habs.
  assert (Hother : forall e, In e l -> entry_router a <> entry_router e).
  { intros e He Heq. apply Hnotin. rewrite Heq. now apply in_map. }
  simpl in *. destruct (entry_loaded a) eqn:El.
  - destruct (mountPending env base l) as [[l' layers] failure]. simpl in *.
    destruct Hin as [<-|Hin].
    + exists a. rewrite El, Habs. auto.
    + destruct (IH Hnd' Hin) as [e [He [Hr Hc]]]. exists e. auto.
  - destruct (expressUse env (mountUrl base a)).
    + simpl in *. exists e'. repeat split; auto.
    + destruct (mountPending env base l) as [[l' layers] failure]. simpl in *.
      destruct Hin as [<-|Hin].
      * exists a. rewrite El. simpl. unfold mountCount in *. simpl.
        rewrite Nat.eqb_refl. simpl. rewrite Habs. auto.
      * destruct (IH Hnd' Hin) as [e [He [Hr Hc]]]. exists e.
        repeat split; auto. unfold mountCount in *. simpl.
        destruct (Nat.eqb_spec (entry_router a) (entry_router e)) as [Heq|Hne];
          [exfalso; now apply (Hother e)|]. exact Hc.
Qed.

(** A loop that went through has flagged every entry. *)
Lemma mountPending_done (l : list RouterEntry) (e' : RouterEntry) :
  snd (mountPending env base l) = None ->
  In e' (fst (fst (mountPending env base l))) -> entry_loaded e' = true.
Proof.
  induction l as [|a l IH]; simpl; [contradiction|].
  destruct (entry_loaded a) eqn:El.
  - destruct (mountPending env base l) as [[l' layers] failure]. simpl in *.
    intros Hf [<-|Hin]; auto.
  - destruct (expressUse env (mountUrl base a)); [discriminate|].
    destruct (mountPending env base l) as [[l' layers] failure]. simpl in *.
    intros Hf [<-|Hin]; auto.
Qed.

(** With every entry flagged the loop has nothing to do. *)
Lemma mountPending_loaded (l : list RouterEntry) :
  (forall e, In e l -> entry_loaded e = true) ->
  mountPending env base l = (l, [], None).
Proof.
  induction l as [|a l IH]; intros H; [reflexivity|].
  simpl. rewrite (H a) by now left.
  rewrite IH; [reflexivity|]. intros e He. apply H. now right.
Qed.

End MountPending.

Lemma keeps_refl (P : World -> Prop) (w : World) : keeps P w w.
Proof. intros H. exact H. Qed.

Lemma keeps_trans (P : World -> Prop) (a b c : World) :
  keeps P a b -> keeps P b c -> keeps P a c.
Proof. unfold keeps. auto. Qed.

#[local] Hint Resolve keeps_refl keeps_trans : core.

Lemma wf_frame (w w' : World) :
  routers (app w') = routers (app w) ->
  express (app w') = express (app w) ->
  nextObject w <= nextObject w' ->
  wf w -> wf w'.
Proof.
  intros Hr He Hn [nd en la mo]. constructor; rewrite ?Hr, ?He; auto.
  - intros e Hin. specialize (en e Hin). lia.
  - intros url r Hin. specialize (la url r Hin). lia.
Qed.

Lemma wf_modifyApp (f : HttpServer -> HttpServer) :
  (forall this, routers (f this) = routers this) ->
  (forall this, express (f this) = express this) ->
  respects (keeps wf) (modifyApp f).
Proof. intros Hr He w Hw. apply (wf_frame w); simpl; auto. Qed.

Lemma wf_newObject : respects (keeps wf) newObject.
Proof. intros w Hw. apply (wf_frame w); simpl; auto. Qed.

Lemma wf_putWs (ws : WebSocketServer) : respects (keeps wf) (putWs ws).
Proof. intros w Hw. apply (wf_frame w); simpl; auto. Qed.

Lemma wf_loadRoutes env : respects (keeps wf) (loadRoutes env).
Proof.
  intros w [nd en la mo]. rewrite loadRoutes_run. constructor; simpl.
  - now rewrite mountPending_routers.
  - intros e' Hin. apply (in_map entry_router) in Hin.
    rewrite mountPending_routers in Hin. apply in_map_iff in Hin.
    destruct Hin as [e [<- Hin]]. auto.
  - intros url r Hin. apply in_app_or in Hin. destruct Hin as [Hin|Hin]; eauto.
    apply mountPending_layers in Hin. destruct Hin as [e [Hin [_ Heq]]].
    inversion Heq; subst. auto.
  - intros e' Hin. apply mountPending_count in Hin; [|assumption].
    destruct Hin as [e [Hin [Hr Hc]]].
    rewrite mountCount_app, Hr, (mo e Hin).
    destruct (entry_loaded e); destruct (entry_loaded e'); simpl in *; lia.
Qed.

Lemma wf_createRoute path baseUrl hidden :
  respects (keeps wf) (createRoute path baseUrl hidden).
Proof.
  intros w [nd en la mo]. constructor; simpl.
  - rewrite map_app. simpl. apply NoDup_app; auto.
    + repeat constructor. intros [].
    + intros r Hin [<-|[]]. apply in_map_iff in Hin.
      destruct Hin as [e [Heq Hin]]. specialize (en e Hin). lia.
  - intros e Hin. apply in_app_or in Hin. destruct Hin as [Hin|[<-|[]]].
    + specialize (en e Hin). lia.
    + simpl. lia.
  - intros url r Hin. specialize (la url r Hin). lia.
  - intros e Hin. apply in_app_or in Hin. destruct Hin as [Hin|[<-|[]]]; auto.
    simpl. apply mountCount_absent. intros url Hl.
    specialize (la url _ Hl). lia.
Qed.

Lemma wf_addLayer path middlewares :
  respects (keeps wf) (addLayer (MiddlewareLayer path middlewares)).
Proof.
  intros w [nd en la mo]. constructor; simpl; auto.
  - intros url r Hin. apply in_app_or in Hin.
    destruct Hin as [Hin|[Heq|[]]]; eauto. discriminate.
  - intros e Hin. rewrite mountCount_app, (mo e Hin).
    unfold mountCount; simpl; lia.
Qed.

Create HintDb wf.

#[local] Hint Resolve wf_newObject wf_putWs wf_loadRoutes wf_createRoute
  wf_addLayer : wf.

Ltac wf_auto :=
  respects_by ltac:(solve [auto with wf nocore]);
  try (apply wf_modifyApp; intros; reflexivity).

Lemma wf_getServer env : respects (keeps wf) (getServer env).
Proof. unfold getServer. wf_auto. Qed.

#[local] Hint Resolve wf_getServer : wf.

Lemma wf_listen env port callback :
  respects (keeps wf) (listen env port callback).
Proof. unfold listen, serverListen. wf_auto. Qed.

Lemma wf_getInstance env httpServer options :
  respects (keeps wf) (getInstance env httpServer options).
Proof. unfold getInstance. wf_auto. Qed.

Lemma wf_callWs method f : respects (keeps wf) (callWs method f).
Proof. unfold callWs. wf_auto. Qed.

#[local] Hint Resolve wf_listen wf_getInstance wf_callWs : wf.

Lemma wf_exec env op : respects (keeps wf) (exec env op).
Proof.
  destruct op; simpl;
    unfold setWebSocketServerOptions, address, getHttpServerInstance,
      listenAsync, initializeWebSocketServer, eventsDirectory, onStart,
      refresh, close, use, serverListen, setBaseUrl, routesDirectory, route,
      getRoute, onInstance;
    wf_auto.
Qed.

Lemma wf_initialWorld : wf initialWorld.
Proof.
  constructor; simpl.
  - constructor.
  - intros e [].
  - intros url r [Heq|[]]. discriminate.
  - intros e [].
Qed.

Lemma wf_run env ops w : wf w -> wf (fst (run env ops w)).
Proof.
  revert w. induction ops as [|op ops IH]; intros w Hw; simpl; [auto|].
  pose proof (wf_exec env op w Hw) as H. unfold world in H.
  destruct (exec env op w) as [[c w1] t1]. simpl in H.
  specialize (IH w1 H). destruct (run env ops w1) as [w2 t2]. exact IH.
Qed.

Lemma wf_reachable env w : reachable env w -> wf w.
Proof. intros [ops <-]. apply wf_run, wf_initialWorld. Qed.

(** ** The WebSocket switch *)

Lemma sameSwitch_refl (w : World) : sameSwitch w w.
Proof. constructor; auto. Qed.

Lemma sameSwitch_trans (a b c : World) :
  sameSwitch a b -> sameSwitch b c -> sameSwitch a c.
Proof.
  intros [s1 f1] [s2 f2]. constructor.
  - congruence.
  - intros H. rewrite f2, f1; congruence.
Qed.

#[local] Hint Resolve sameSwitch_refl sameSwitch_trans : core.

Lemma sameSwitch_modifyApp (f : HttpServer -> HttpServer) :
  (forall this, startWebSocketServer (f this) = startWebSocketServer this) ->
  (forall this, websocketServer (f this) = websocketServer this) ->
  respects sameSwitch (modifyApp f).
Proof. intros Hs Hf w. constructor; simpl; auto. Qed.

Lemma sameSwitch_newObject : respects sameSwitch newObject.
Proof. intros w. constructor; reflexivity. Qed.

Lemma sameSwitch_putWs (ws : WebSocketServer) : respects sameSwitch (putWs ws).
Proof. intros w. constructor; reflexivity. Qed.

Lemma eventsDirectory_world (env : Env) (path : string) (w : World) :
  world (eventsDirectory env path w) = w.
Proof.
  unfold eventsDirectory, readdir, bind, world.
  destruct (readdirSync env path) as [files|]; simpl; [|reflexivity].
  pose proof (loadFiles_world env path ToEventHandler files w) as H.
  unfold world in H.
  destruct (loadFiles env path ToEventHandler files w) as [[c w'] t].
  exact H.
Qed.

(** While the switch is off [initializeWebSocketServer] does nothing. *)
Lemma initializeWebSocketServer_off (env : Env) (w : World) :
  startWebSocketServer (app w) = false ->
  initializeWebSocketServer env w = (Normal tt, w, []).
Proof.
  intros H. unfold initializeWebSocketServer, bind, getApp. simpl.
  rewrite H. reflexivity.
Qed.

Lemma sameSwitch_initializeWebSocketServer (env : Env) :
  respects sameSwitch (initializeWebSocketServer env).
Proof.
  intros w. destruct (startWebSocketServer (app w)) eqn:E.
  - unfold initializeWebSocketServer, getInstance, bind, getApp, getWs, world.
    simpl. rewrite E. simpl.
    destruct (wsInstance w) as [ws|]; simpl; [|auto].
    match goal with
    | |- context [eventsDirectory env ?p ?w1] =>
        pose proof (eventsDirectory_world env p w1) as H;
        unfold world in H;
        destruct (eventsDirectory env p w1) as [[c w2] t]
    end.
    simpl in *. subst w2. constructor; simpl; congruence.
  - rewrite initializeWebSocketServer_off by assumption. apply sameSwitch_refl.
Qed.

Create HintDb switch.

#[local] Hint Resolve sameSwitch_newObject sameSwitch_putWs
  sameSwitch_initializeWebSocketServer : switch.

Ltac switch_auto :=
  respects_by ltac:(solve [auto with switch nocore]);
  try (apply sameSwitch_modifyApp; intros; reflexivity).

Lemma sameSwitch_exec (env : Env) (op : Op) :
  isSetWebSocketServerOptions op = false ->
  respects sameSwitch (exec env op).
Proof.
  destruct op; simpl; intros Hop; try discriminate;
    unfold address, getHttpServerInstance, listen, listenAsync, getServer,
      loadRoutes, eventsDirectory, onStart, refresh, close, use, setBaseUrl,
      routesDirectory, route, getRoute, createRoute, onInstance, getInstance,
      callWs, listen, getServer, loadRoutes, addLayer, serverListen;
    switch_auto.
Qed.

(** As long as [setWebSocketServerOptions] is not called the switch is off
    and [websocketServer] holds nothing. *)
Lemma switch_off_run (env : Env) (ops : list Op) (w : World) :
  forallb (fun op => negb (isSetWebSocketServerOptions op)) ops = true ->
  sameSwitch w (fst (run env ops w)).
Proof.
  revert w. induction ops as [|op ops IH]; intros w Hops; simpl; [auto|].
  simpl in Hops. apply andb_prop in Hops. destruct Hops as [Hop Hops].
  apply negb_true_iff in Hop.
  pose proof (sameSwitch_exec env op Hop w) as H. unfold world in H.
  destruct (exec env op w) as [[c w1] t1]. simpl in H.
  specialize (IH w1 Hops). destruct (run env ops w1) as [w2 t2]. simpl in *.
  eauto.
Qed.

(** ** listenAsync without a WebSocket server *)

Lemma no_listen_in_calls (l : list Callback) :
  filter isServerListen (map CallbackCall l) = [].
Proof. induction l; simpl; auto. Qed.

(** The run of [listenAsync] on a server that is not started, whose switch
    is off and whose [websocketServer] field holds nothing. *)
Lemma listenAsync_unconfigured (env : Env) (w : World) (port : Port)
    (callback : Callback) :
  isStarted (app w) = false ->
  startWebSocketServer (app w) = false ->
  websocketServer (app w) = None ->
  result (listenAsync env port callback w) =
    Throw (match firstFailure env (startupCallbacks (app w)) with
           | Some e => e
           | None =>
               match mountFailure env w with
               | Some e => e
               | None => undefinedRead "connect"
               end
           end) /\
  filter isServerListen (trace (listenAsync env port callback w)) = [] /\
  addressInfo (app (world (listenAsync env port callback w))) =
    addressInfo (app w).
Proof.
  intros Hst Hsw Hws.
  unfold listenAsync, bind, getApp, result, trace, world. simpl.
  rewrite Hst. simpl. rewrite callAll_run. simpl.
  destruct (firstFailure env (startupCallbacks (app w))) as [e|]; simpl.
  - rewrite app_nil_r. auto using no_listen_in_calls.
  - rewrite loadRoutes_run. unfold mountFailure. simpl.
    destruct (snd (mountPending env (baseUrl (app w)) (routers (app w))))
      as [e|]; simpl.
    + rewrite app_nil_r. auto using no_listen_in_calls.
    + rewrite initializeWebSocketServer_off by (simpl; assumption).
      simpl. rewrite Hws. simpl.
      rewrite filter_app, no_listen_in_calls. auto.
Qed.

(** C10 as it is stated does not hold of a server that has started: after
    [listen], and with [setWebSocketServerOptions] never called,
    [listenAsync] returns at its guard and completes. *)
Lemma listenAsync_completes_once_started :
  ~ (forall (env : Env) (ops : list Op) (port : Port) (callback : Callback),
       forallb (fun op => negb (isSetWebSocketServerOptions op)) ops = true ->
       exists e,
         result (listenAsync env port callback (fst (run env ops initialWorld)))
         = Throw e).
Proof.
  intros H. destruct (H twoFiles [Listen 3000 7] 3000 7 eq_refl) as [e He].
  vm_compute in He. discriminate.
Qed.

(** C10, amended: on a server that is not started and on which
    [setWebSocketServerOptions] was never called, [listenAsync] throws; no
    port is bound and no address is stored; when the startup callbacks all
    succeed and express takes every router still to be mounted, the error
    is the [TypeError] of reading [connect] from the empty
    [websocketServer]. *)
Theorem listenAsync_throws_without_websocket (env : Env) (ops : list Op)
    (port : Port) (callback : Callback) :
  let w := fst (run env ops initialWorld) in
  forallb (fun op => negb (isSetWebSocketServerOptions op)) ops = true ->
  isStarted (app w) = false ->
  websocketServer (app w) = None /\
  (exists e, result (listenAsync env port callback w) = Throw e /\
     (firstFailure env (startupCallbacks (app w)) = None ->
      mountFailure env w = None ->
      e = undefinedRead "connect")) /\
  filter isServerListen (trace (listenAsync env port callback w)) = [] /\
  addressInfo (app (world (listenAsync env port callback w))) =
    addressInfo (app w).
Proof.
  intros w Hops Hst.
  destruct (switch_off_run env ops initialWorld Hops) as [Hs Hf].
  fold w in Hs, Hf. simpl in Hs, Hf. specialize (Hf eq_refl).
  destruct (listenAsync_unconfigured env w port callback Hst Hs Hf)
    as [Hr [Ht Ha]].
  repeat split; auto.
  eexists. split; [exact Hr|]. intros Hnone Hmount.
  now rewrite Hnone, Hmount.
Qed.

Lemma listenAsync_throws_without_websocket_witness :
  let w := fst (run twoFiles
                    [SetBaseUrl "/api/v1"; OnStart [4; 5];
                     RouteCall (PathArg (Some "health")) None]
                    initialWorld) in
  websocketServer (app w) = None /\
  (exists e, result (listenAsync twoFiles 3000 7 w) = Throw e /\
     (firstFailure twoFiles (startupCallbacks (app w)) = None ->
      mountFailure twoFiles w = None ->
      e = undefinedRead "connect")) /\
  filter isServerListen (trace (listenAsync twoFiles 3000 7 w)) = [] /\
  addressInfo (app (world (listenAsync twoFiles 3000 7 w))) =
    addressInfo (app w).
Proof.
  apply (listenAsync_throws_without_websocket twoFiles
           [SetBaseUrl "/api/v1"; OnStart [4; 5];
            RouteCall (PathArg (Some "health")) None] 3000 7);
    vm_compute; reflexivity.
Defined.

(** ** listen twice *)

Lemma world_this {A} (k : HttpServer -> M A) (w : World) :
  world (bind getApp k w) = world (k (app w) w).
Proof.
  unfold bind, getApp, world. simpl.
  now destruct (k (app w) w) as [[c w2] t].
Qed.

Lemma world_modifyApp {A} (f : HttpServer -> HttpServer) (k : unit -> M A)
    (w : World) :
  world (bind (modifyApp f) k w) = world (k tt (world (modifyApp f w))).
Proof.
  unfold bind, modifyApp, world. simpl.
  match goal with |- context [k tt ?w1] => now destruct (k tt w1) as [[c w2] t] end.
Qed.

Lemma listen_started (env : Env) (port : Port) (callback : Callback)
    (w : World) :
  isStarted (app (world (listen env port callback w))) = true.
Proof.
  unfold listen. rewrite world_this.
  destruct (isStarted (app w)) eqn:E; [exact E|].
  rewrite world_modifyApp.
  match goal with
  | |- isStarted (app (world (?rest ?w1))) = true =>
      assert (Hk : respects grows rest)
        by (unfold serverListen; grows_auto);
      apply (grows_started _ _ (Hk w1))
  end.
  reflexivity.
Qed.

Lemma listenAsync_started (env : Env) (port : Port) (callback : Callback)
    (w : World) :
  isStarted (app (world (listenAsync env port callback w))) = true.
Proof.
  unfold listenAsync. rewrite world_this.
  destruct (isStarted (app w)) eqn:E; [exact E|].
  rewrite world_modifyApp.
  match goal with
  | |- isStarted (app (world (?rest ?w1))) = true =>
      assert (Hk : respects grows rest)
        by (unfold serverListen; grows_auto);
      apply (grows_started _ _ (Hk w1))
  end.
  reflexivity.
Qed.

Lemma listen_when_started (env : Env) (port : Port) (callback : Callback)
    (w : World) :
  isStarted (app w) = true ->
  listen env port callback w = (Normal None, w, []).
Proof. intros H. unfold listen, bind, getApp. simpl. now rewrite H. Qed.

Lemma listenAsync_when_started (env : Env) (port : Port) (callback : Callback)
    (w : World) :
  isStarted (app w) = true ->
  listenAsync env port callback w = (Normal None, w, []).
Proof. intros H. unfold listenAsync, bind, getApp. simpl. now rewrite H. Qed.

(** C5: once a call of [listen] or [listenAsync] has completed, and
    whatever the client has done since, a further call of either returns
    [undefined], changes nothing in the world and does nothing outside:
    no bind, no callback. *)
Theorem listen_again_is_noop (env : Env) (w w1 : World) (port : Port)
    (callback : Callback) (ops : list Op) (port' : Port)
    (callback' : Callback) :
  (exists s t, listen env port callback w = (Normal s, w1, t) \/
               listenAsync env port callback w = (Normal s, w1, t)) ->
  let w2 := fst (run env ops w1) in
  listen env port' callback' w2 = (Normal None, w2, []) /\
  listenAsync env port' callback' w2 = (Normal None, w2, []).
Proof.
  intros [s [t H]] w2.
  assert (H1 : isStarted (app w1) = true).
  { destruct H as [H|H].
    - pose proof (listen_started env port callback w) as Hs.
      now rewrite H in Hs.
    - pose proof (listenAsync_started env port callback w) as Hs.
      now rewrite H in Hs. }
  assert (H2 : isStarted (app w2) = true)
    by (apply (grows_started _ _ (grows_run env ops w1)); exact H1).
  split.
  - now apply listen_when_started.
  - now apply listenAsync_when_started.
Qed.

(** In [instanceMade], [listenAsync] completes. *)
Example listenAsync_completes :
  result (listenAsync twoFiles 3000 7 instanceMade) = Normal (Some 2) /\
  filter isServerListen (trace (listenAsync twoFiles 3000 7 instanceMade)) =
    [ServerListen 2 3000 7].
Proof. split; vm_compute; reflexivity. Qed.

(** There [close] reaches an initialised [websocketServer] and finds no
    [close] on it. *)
Example close_after_listenAsync :
  result (close (world (listenAsync twoFiles 3000 7 instanceMade))) =
    Throw (notAFunction "this.websocketServer.close") /\
  trace (close (world (listenAsync twoFiles 3000 7 instanceMade))) =
    [ServerClose 2 "Shutting down server"].
Proof. split; vm_compute; reflexivity. Qed.

Lemma listen_again_is_noop_witness :
  let w1 := world (listenAsync twoFiles 3000 7 instanceMade) in
  let w2 := fst (run twoFiles [RouteCall (PathArg (Some "health")) None] w1) in
  listen twoFiles 4000 9 w2 = (Normal None, w2, []) /\
  listenAsync twoFiles 4000 9 w2 = (Normal None, w2, []).
Proof.
  apply (listen_again_is_noop twoFiles instanceMade
           (world (listenAsync twoFiles 3000 7 instanceMade)) 3000 7
           [RouteCall (PathArg (Some "health")) None] 4000 9).
  exists (Some 2), (trace (listenAsync twoFiles 3000 7 instanceMade)).
  right. vm_compute. reflexivity.
Defined.

(** ** route *)

Lemma strictEq_true (a b : option string) : strictEq a b = true -> a = b.
Proof.
  destruct a, b; simpl; intros H; try discriminate; auto.
  apply String.eqb_eq in H. now subst.
Qed.

Lemma strictEq_refl (a : option string) : strictEq a a = true.
Proof. destruct a; simpl; auto. apply String.eqb_refl. Qed.

Lemma isRoute_true (path baseUrl : option string) (e : RouterEntry) :
  isRoute path baseUrl e = true ->
  entry_path e = path /\ entry_baseUrl e = baseUrl /\ entry_hidden e = false.
Proof.
  unfold isRoute. intros H.
  apply andb_prop in H. destruct H as [H Hh].
  apply andb_prop in H. destruct H as [Hp Hb].
  repeat split; auto using strictEq_true.
  now destruct (entry_hidden e).
Qed.

Lemma isRoute_step (path baseUrl : option string) (e e' : RouterEntry) :
  entryStep e e' -> isRoute path baseUrl e' = isRoute path baseUrl e.
Proof. intros []. unfold isRoute. congruence. Qed.

(** What [find] finds stays what it finds: entries are not removed, none is
    put before another, and the fields looked at do not change. *)
Lemma extends_find (path baseUrl : option string) (l l' : list RouterEntry)
    (e : RouterEntry) :
  extends l l' -> find (isRoute path baseUrl) l = Some e ->
  exists e', find (isRoute path baseUrl) l' = Some e' /\ entryStep e e'.
Proof.
  induction 1 as [|a a' l l' Ha Hl IH]; intros Hf; [discriminate|].
  simpl in *. rewrite (isRoute_step _ _ _ _ Ha).
  destruct (isRoute path baseUrl a).
  - inversion Hf; subst. eauto.
  - auto.
Qed.

Lemma extends_in (l l' : list RouterEntry) (e : RouterEntry) :
  extends l l' -> In e l -> exists e', In e' l' /\ entryStep e e'.
Proof.
  induction 1 as [|a a' l l' Ha Hl IH]; intros Hin; [contradiction|].
  destruct Hin as [->|Hin].
  - exists a'. split; [now left|assumption].
  - destruct (IH Hin) as [e' [Hin' He']]. exists e'. split; [now right|assumption].
Qed.

Lemma find_app_new {A} (p : A -> bool) (l : list A) (x : A) :
  find p l = None -> p x = true -> find p (l ++ [x]) = Some x.
Proof.
  induction l as [|a l IH]; simpl; intros Hf Hx.
  - now rewrite Hx.
  - destruct (p a); [discriminate|auto].
Qed.

Lemma NoDup_map_eq {A B} (f : A -> B) (l : list A) (a b : A) :
  NoDup (map f l) -> In a l -> In b l -> f a = f b -> a = b.
Proof.
  induction l as [|x l IH]; simpl; intros Hnd Ha Hb Heq; [contradiction|].
  inversion Hnd as [|y ys Hnotin Hnd']; subst.
  destruct Ha as [->|Ha], Hb as [->|Hb]; auto.
  - exfalso. apply Hnotin. rewrite Heq. now apply in_map.
  - exfalso. apply Hnotin. rewrite <- Heq. now apply in_map.
Qed.

(** [route] answers with the router of the entry that [find] finds for its
    pair in the world it leaves. *)
Lemma route_entry (arg1 : RouteArg) (arg2 : option string) (w : World) :
  exists e,
    result (route arg1 arg2 w) = Normal {| route_router := entry_router e |} /\
    find (isRoute (fst (routeOptions arg1 arg2)) (snd (routeOptions arg1 arg2)))
         (routers (app (world (route arg1 arg2 w)))) = Some e.
Proof.
  unfold route. destruct (routeOptions arg1 arg2) as [path baseUrl]. simpl.
  unfold getRoute, bind, getApp, result, world. simpl.
  destruct (find (isRoute path baseUrl) (routers (app w))) as [e|] eqn:F;
    simpl.
  - exists e. auto.
  - exists {| entry_path := path; entry_baseUrl := baseUrl;
              entry_router := nextObject w; entry_loaded := false;
              entry_hidden := false |}.
    split; [reflexivity|]. simpl.
    apply find_app_new; auto.
    unfold isRoute. simpl. now rewrite !strictEq_refl.
Qed.

Lemma grows_route arg1 arg2 : respects grows (route arg1 arg2).
Proof.
  unfold route. destruct (routeOptions arg1 arg2). unfold getRoute.
  grows_auto.
Qed.

Lemma wf_route arg1 arg2 : respects (keeps wf) (route arg1 arg2).
Proof.
  unfold route. destruct (routeOptions arg1 arg2). unfold getRoute.
  wf_auto.
Qed.

Lemma getRoute_entry (path baseUrl : option string) (w : World) (r : Route) :
  result (getRoute path baseUrl w) = Normal (Some r) ->
  exists e, find (isRoute path baseUrl) (routers (app w)) = Some e /\
            r = {| route_router := entry_router e |}.
Proof.
  unfold getRoute, bind, getApp, result. simpl.
  destruct (find (isRoute path baseUrl) (routers (app w))) as [e|]; simpl;
    intros H; inversion H. eauto.
Qed.

(** The routers of [route], by the pair of options each call comes down
    to, whichever way the arguments give it: the same pair, the same
    router; another pair, another router; and [getRoute] answers with the
    router of no hidden entry. *)
Lemma route_by_options (env : Env) (w : World) :
  reachable env w ->
  (forall arg1 arg2 ops arg1' arg2',
     routeOptions arg1' arg2' = routeOptions arg1 arg2 ->
     exists r r',
       result (route arg1 arg2 w) = Normal r /\
       result (route arg1' arg2'
                 (fst (run env ops (world (route arg1 arg2 w))))) = Normal r' /\
       route_router r' = route_router r) /\
  (forall arg1 arg2 ops arg1' arg2',
     routeOptions arg1' arg2' <> routeOptions arg1 arg2 ->
     exists r r',
       result (route arg1 arg2 w) = Normal r /\
       result (route arg1' arg2'
                 (fst (run env ops (world (route arg1 arg2 w))))) = Normal r' /\
       route_router r' <> route_router r) /\
  (forall path baseUrl r,
     result (getRoute path baseUrl w) = Normal (Some r) ->
     forall e, In e (routers (app w)) -> entry_hidden e = true ->
               entry_router e <> route_router r).
Proof.
  intros Hreach. pose proof (wf_reachable env w Hreach) as Hwf.
  split; [|split].
  - intros arg1 arg2 ops arg1' arg2' Hsame.
    destruct (route_entry arg1 arg2 w) as [e [Hr Hf]].
    set (w1 := world (route arg1 arg2 w)) in *.
    set (w2 := fst (run env ops w1)).
    destruct (extends_find _ _ _ _ _
                (grows_routers _ _ (grows_run env ops w1)) Hf)
      as [e' [Hf' He']].
    fold w2 in Hf'.
    exists {| route_router := entry_router e |},
           {| route_router := entry_router e' |}.
    repeat split; auto.
    + unfold route. rewrite Hsame.
      destruct (routeOptions arg1 arg2) as [path baseUrl]. simpl in *.
      unfold getRoute, bind, getApp, result. simpl. now rewrite Hf'.
    + simpl. apply (step_router _ _ He').
  - intros arg1 arg2 ops arg1' arg2' Hdiff.
    destruct (route_entry arg1 arg2 w) as [e [Hr Hf]].
    set (w1 := world (route arg1 arg2 w)) in *.
    set (w2 := fst (run env ops w1)).
    destruct (route_entry arg1' arg2' w2) as [e2 [Hr2 Hf2]].
    set (w3 := world (route arg1' arg2' w2)) in *.
    assert (Hwf3 : wf w3).
    { apply wf_route, wf_run, wf_route, Hwf. }
    assert (Hext : extends (routers (app w1)) (routers (app w3))).
    { eapply extends_trans.
      - apply (grows_routers _ _ (grows_run env ops w1)).
      - apply (grows_routers _ _ (grows_route arg1' arg2' w2)). }
    apply find_some in Hf. destruct Hf as [Hin He].
    apply find_some in Hf2. destruct Hf2 as [Hin2 He2].
    destruct (extends_in _ _ _ Hext Hin) as [e' [Hin' Hstep]].
    exists {| route_router := entry_router e |},
           {| route_router := entry_router e2 |}.
    repeat split; auto. simpl. intros Heq.
    apply isRoute_true in He. destruct He as [Hp [Hb _]].
    apply isRoute_true in He2. destruct He2 as [Hp2 [Hb2 _]].
    rewrite <- (step_router _ _ Hstep) in Heq.
    assert (e2 = e')
      by (apply (NoDup_map_eq entry_router _ _ _ (wf_nodup _ Hwf3));
          assumption).
    subst e2. apply Hdiff.
    rewrite (surjective_pairing (routeOptions arg1' arg2')),
            (surjective_pairing (routeOptions arg1 arg2)).
    rewrite <- Hp, <- Hb, <- Hp2, <- Hb2.
    now rewrite (step_path _ _ Hstep), (step_baseUrl _ _ Hstep).
  - intros path baseUrl r Hr e Hin Hh Heq.
    destruct (getRoute_entry _ _ _ _ Hr) as [e0 [Hf ->]]. simpl in Heq.
    apply find_some in Hf. destruct Hf as [Hin0 He0].
    apply isRoute_true in He0. destruct He0 as [_ [_ Hh0]].
    assert (e = e0)
      by (apply (NoDup_map_eq entry_router _ _ _ (wf_nodup _ Hwf));
          assumption).
    subst e0. congruence.
Qed.

(** C6: in a world a client can bring about, (1) [route(path, baseUrl)]
    called again with the same two arguments, whatever was called in
    between, answers with the same router; (2) called with two arguments
    of which one differs, it answers with a different router; (3) the
    options form [route({path, baseUrl}, ignored)] does in every world what
    [route(path, baseUrl)] does; (4) the router [getRoute] answers with is
    the router of no hidden entry. *)
Theorem route_pairs_and_routers (env : Env) (w : World) :
  reachable env w ->
  (forall path baseUrl ops,
     exists r r',
       result (route (PathArg path) baseUrl w) = Normal r /\
       result (route (PathArg path) baseUrl
                 (fst (run env ops (world (route (PathArg path) baseUrl w)))))
         = Normal r' /\
       route_router r' = route_router r) /\
  (forall path baseUrl ops path' baseUrl',
     (path', baseUrl') <> (path, baseUrl) ->
     exists r r',
       result (route (PathArg path) baseUrl w) = Normal r /\
       result (route (PathArg path') baseUrl'
                 (fst (run env ops (world (route (PathArg path) baseUrl w)))))
         = Normal r' /\
       route_router r' <> route_router r) /\
  (forall path baseUrl ignored w',
     route (OptionsArg path baseUrl) ignored w' =
     route (PathArg path) baseUrl w') /\
  (forall path baseUrl r,
     result (getRoute path baseUrl w) = Normal (Some r) ->
     forall e, In e (routers (app w)) -> entry_hidden e = true ->
               entry_router e <> route_router r).
Proof.
  intros Hreach.
  destruct (route_by_options env w Hreach) as [Hsame [Hdiff Hhidden]].
  split; [|split; [|split]].
  - intros path baseUrl ops.
    apply (Hsame (PathArg path) baseUrl ops (PathArg path) baseUrl).
    reflexivity.
  - intros path baseUrl ops path' baseUrl' Hne.
    apply (Hdiff (PathArg path) baseUrl ops (PathArg path') baseUrl').
    exact Hne.
  - reflexivity.
  - exact Hhidden.
Qed.

(** ** setBaseUrl *)

(** C8: once the server has started, and whatever the client has done
    since, [setBaseUrl] completes, logs a warning and leaves the world, so
    the base URL, as it was at the start; before the start it sets the base
    URL to the value given and logs nothing. *)
Theorem setBaseUrl_only_before_start (env : Env) (w : World) (url : string) :
  (isStarted (app w) = true ->
   forall ops,
     let w' := fst (run env ops w) in
     setBaseUrl url w' = (Normal tt, w', [baseUrlWarning]) /\
     baseUrl (app w') = baseUrl (app w)) /\
  (isStarted (app w) = false ->
   result (setBaseUrl url w) = Normal tt /\
   trace (setBaseUrl url w) = [] /\
   baseUrl (app (world (setBaseUrl url w))) = url).
Proof.
  split.
  - intros Hst ops w'.
    pose proof (grows_run env ops w) as Hg. fold w' in Hg.
    split.
    + unfold setBaseUrl, bind, getApp. simpl.
      now rewrite (grows_started _ _ Hg Hst).
    + apply (grows_baseUrl _ _ Hg Hst).
  - intros Hst. unfold setBaseUrl, bind, getApp, result, trace, world. simpl.
    rewrite Hst. simpl. auto.
Qed.

Lemma setBaseUrl_only_before_start_witness :
  (let w' := fst (run twoFiles [RouteCall (PathArg (Some "health")) None]
                      configuredAndListening) in
   setBaseUrl "/api/v2" w' = (Normal tt, w', [baseUrlWarning]) /\
   baseUrl (app w') = baseUrl (app configuredAndListening)) /\
  (result (setBaseUrl "/api/v1" initialWorld) = Normal tt /\
   trace (setBaseUrl "/api/v1" initialWorld) = [] /\
   baseUrl (app (world (setBaseUrl "/api/v1" initialWorld))) = "/api/v1").
Proof.
  split.
  - apply (proj1 (setBaseUrl_only_before_start twoFiles
                    configuredAndListening "/api/v2")).
    vm_compute. reflexivity.
  - apply (proj2 (setBaseUrl_only_before_start twoFiles
                    initialWorld "/api/v1")).
    reflexivity.
Defined.

(** ** loadRoutes *)

Lemma loadRoutes_all_loaded (env : Env) (w : World) (e : RouterEntry) :
  result (loadRoutes env w) = Normal tt ->
  In e (routers (app (world (loadRoutes env w)))) -> entry_loaded e = true.
Proof.
  rewrite loadRoutes_run. unfold result, world. simpl. intros Hr.
  apply mountPending_done.
  destruct (snd (mountPending env (baseUrl (app w)) (routers (app w))));
    [discriminate|reflexivity].
Qed.

(** A loop that was cut short has left the entry it stopped at: not
    flagged, at a mount path that express refuses. *)
Lemma mountPending_failed (env : Env) (base : string) (l : list RouterEntry)
    (e : Js.Error) :
  snd (mountPending env base l) = Some e ->
  exists entry, In entry (fst (fst (mountPending env base l))) /\
    entry_loaded entry = false /\
    expressUse env (mountUrl base entry) = Some e.
Proof.
  induction l as [|a l IH]; simpl; [discriminate|].
  destruct (entry_loaded a) eqn:El.
  - destruct (mountPending env base l) as [[l' layers] failure]. simpl in *.
    intros Hf. destruct (IH Hf) as [entry [Hin H]]. eauto.
  - destruct (expressUse env (mountUrl base a)) eqn:Eu.
    + simpl. intros Hf. inversion Hf; subst. exists a. auto.
    + destruct (mountPending env base l) as [[l' layers] failure]. simpl in *.
      intros Hf. destruct (IH Hf) as [entry [Hin H]]. eauto.
Qed.

(** The loop run again on what it left: the flagged entries are passed
    over and express refuses what it refused, so nothing is mounted and
    the outcome is the same. *)
Lemma mountPending_again (env : Env) (base : string) (l : list RouterEntry) :
  mountPending env base (fst (fst (mountPending env base l))) =
    (fst (fst (mountPending env base l)), [],
     snd (mountPending env base l)).
Proof.
  induction l as [|a l IH]; simpl; [reflexivity|].
  destruct (entry_loaded a) eqn:El.
  - destruct (mountPending env base l) as [[l' layers] failure]. simpl in *.
    rewrite El, IH. reflexivity.
  - destruct (expressUse env (mountUrl base a)) eqn:Eu.
    + simpl. rewrite El, Eu. reflexivity.
    + destruct (mountPending env base l) as [[l' layers] failure]. simpl in *.
      rewrite IH. reflexivity.
Qed.

Lemma loadRoutes_again (env : Env) (w : World) :
  express (app (world (loadRoutes env (world (loadRoutes env w))))) =
  express (app (world (loadRoutes env w))).
Proof.
  rewrite (loadRoutes_run env (world (loadRoutes env w))).
  rewrite (loadRoutes_run env w). unfold world. simpl.
  rewrite mountPending_again. apply app_nil_r.
Qed.

Lemma getServer_routers (env : Env) (w : World) :
  routers (app (world (getServer env w))) =
    routers (app (world (loadRoutes env w))) /\
  express (app (world (getServer env w))) =
    express (app (world (loadRoutes env w))).
Proof.
  unfold getServer, bind, newObject, emit, ret, world.
  destruct (loadRoutes env w) as [[[[]|e] w1] t1]; split; reflexivity.
Qed.

Lemma getServer_completes (env : Env) (w : World) (s : NodeServer) :
  result (getServer env w) = Normal s -> result (loadRoutes env w) = Normal tt.
Proof.
  unfold getServer, bind, result.
  destruct (loadRoutes env w) as [[[[]|e] w1] t1]; simpl;
    [reflexivity|discriminate].
Qed.

(** C9 as it is stated does not hold where express refuses a mount path:
    the router registered for [b], behind the one registered for [(], is
    not mounted, however often [loadRoutes] runs ([getServer] throws, and
    so do [listen] and [routesDirectory]). *)
Lemma router_never_mounted :
  let ops := [RouteCall (PathArg (Some "(")) None;
              RouteCall (PathArg (Some "b")) None;
              GetServer; Listen 3000 7; RoutesDirectory "routes" NoArg []] in
  let w := fst (run unbalancedPath ops initialWorld) in
  result (getServer unbalancedPath w) =
    Throw (Js.SyntaxError "Unterminated group") /\
  exists e, In e (routers (app (world (getServer unbalancedPath w)))) /\
    entry_path e = Some "b" /\ entry_loaded e = false /\
    mountCount (entry_router e)
               (express (app (world (getServer unbalancedPath w)))) = 0.
Proof.
  split; [vm_compute; reflexivity|].
  exists {| entry_path := Some "b"; entry_baseUrl := None; entry_router := 1;
            entry_loaded := false; entry_hidden := false |}.
  vm_compute. auto.
Qed.

(** C9, amended: from a world a client can bring about, whatever the
    client calls, (1) every entry stays at its place in the router list,
    the same but for its flag, which only goes from false to true; (2) a
    router is mounted once if its entry is flagged and not at all
    otherwise, so never more than once; (3) a run of [loadRoutes] that
    completes leaves every entry flagged and its router mounted once, and
    so does a [getServer] that completes; (4) a run of [loadRoutes] that
    throws leaves an entry that is not flagged and whose router is not
    mounted: the one whose mount path express refused; (5) [loadRoutes]
    run again mounts nothing; (6) a router that is mounted stays mounted
    exactly once. *)
Theorem routers_mounted_exactly_once (env : Env) (w : World) (ops : list Op) :
  reachable env w ->
  let w' := fst (run env ops w) in
  extends (routers (app w)) (routers (app w')) /\
  (forall e, In e (routers (app w')) ->
     mountCount (entry_router e) (express (app w')) =
     if entry_loaded e then 1 else 0) /\
  (result (loadRoutes env w') = Normal tt ->
   forall e, In e (routers (app (world (loadRoutes env w')))) ->
     entry_loaded e = true /\
     mountCount (entry_router e)
                (express (app (world (loadRoutes env w')))) = 1) /\
  (forall s, result (getServer env w') = Normal s ->
   forall e, In e (routers (app (world (getServer env w')))) ->
     entry_loaded e = true /\
     mountCount (entry_router e)
                (express (app (world (getServer env w')))) = 1) /\
  (forall error, result (loadRoutes env w') = Throw error ->
   exists e, In e (routers (app (world (loadRoutes env w')))) /\
     entry_loaded e = false /\
     mountCount (entry_router e)
                (express (app (world (loadRoutes env w')))) = 0 /\
     expressUse env (mountUrl (baseUrl (app w')) e) = Some error) /\
  express (app (world (loadRoutes env (world (loadRoutes env w'))))) =
    express (app (world (loadRoutes env w'))) /\
  (forall e, In e (routers (app w)) -> entry_loaded e = true ->
     mountCount (entry_router e) (express (app w')) = 1).
Proof.
  intros Hreach w'.
  pose proof (wf_reachable env w Hreach) as Hwf.
  assert (Hwf' : wf w') by now apply wf_run.
  pose proof (wf_loadRoutes env w' Hwf') as Hwfl.
  pose proof (grows_routers _ _ (grows_run env ops w)) as Hext. fold w' in Hext.
  assert (Hl : result (loadRoutes env w') = Normal tt ->
     forall e, In e (routers (app (world (loadRoutes env w')))) ->
     entry_loaded e = true /\
     mountCount (entry_router e)
                (express (app (world (loadRoutes env w')))) = 1).
  { intros Hdone e Hin.
    pose proof (loadRoutes_all_loaded env w' e Hdone Hin) as Hl.
    split; [assumption|]. rewrite (wf_mounted _ Hwfl e Hin). now rewrite Hl. }
  destruct (getServer_routers env w') as [Hr He].
  split; [exact Hext|].
  split; [apply (wf_mounted _ Hwf')|].
  split; [exact Hl|].
  split.
  { intros s Hs e Hin. rewrite Hr in Hin. rewrite He.
    apply Hl; [|assumption]. now apply (getServer_completes env w' s). }
  split.
  { intros error Herr.
    assert (Hf : snd (mountPending env (baseUrl (app w')) (routers (app w')))
                 = Some error).
    { rewrite loadRoutes_run in Herr. unfold result in Herr. simpl in Herr.
      destruct (snd (mountPending env (baseUrl (app w')) (routers (app w'))));
        [now inversion Herr|discriminate]. }
    destruct (mountPending_failed env _ _ _ Hf) as [e [Hin [Hflag Hu]]].
    assert (Hin' : In e (routers (app (world (loadRoutes env w')))))
      by (rewrite loadRoutes_run; exact Hin).
    exists e. split; [exact Hin'|]. split; [exact Hflag|]. split; [|exact Hu].
    rewrite (wf_mounted _ Hwfl e Hin'). now rewrite Hflag. }
  split; [apply loadRoutes_again|].
  intros e Hin Hloaded.
  destruct (extends_in _ _ _ Hext Hin) as [e' [Hin' Hstep]].
  rewrite <- (step_router _ _ Hstep), (wf_mounted _ Hwf' e' Hin').
  now rewrite (step_loaded _ _ Hstep Hloaded).
Qed.

(** ** Events *)

Lemma bind_listeners (events : list EventDescriptor) (this : WebSocketServer) :
  let bound :=
    fold_left (fun ws event =>
                 on (name (options event)) (EventListener event) ws)
              events this in
  ws_listeners bound =
    ws_listeners this ++
    map (fun event => (name (options event), EventListener event)) events /\
  ws_events bound = ws_events this.
Proof.
  revert this. induction events as [|event events IH]; intros this; simpl.
  - now rewrite app_nil_r.
  - destruct (IH (on (name (options event)) (EventListener event) this))
      as [Hl He].
    simpl in *. rewrite Hl, He. split; [|reflexivity].
    now rewrite <- app_assoc.
Qed.

Lemma loadEvents_listeners (this : WebSocketServer) :
  ws_listeners (loadEvents this) =
    ws_listeners this ++
    map (fun event => (name (options event), EventListener event))
        (ws_events this).
Proof. apply (bind_listeners (ws_events this) this). Qed.

Lemma loadEventsAsync_listeners (this : WebSocketServer) :
  ws_listeners (loadEventsAsync this) = ws_listeners (loadEvents this).
Proof. reflexivity. Qed.

(** C7: [register] with [enabled = false] leaves the instance as it is, so
    [loadEvents] binds what it would have bound without the call, and
    nothing on an instance with no other registration; with
    [enabled = true] it stores exactly one descriptor, after those already
    there; [loadEvents] binds one listener for each stored descriptor, under
    the descriptor's name, in order. *)
Theorem register_stores_enabled_only (this : WebSocketServer)
    (opts : EventOptions) (cbs : list Callback) :
  (enabled opts = false ->
   register opts cbs this = this /\
   ws_listeners (loadEvents (register opts cbs this)) =
     ws_listeners (loadEvents this) /\
   (ws_events this = [] ->
    ws_listeners (loadEvents (register opts cbs this)) = ws_listeners this)) /\
  (enabled opts = true ->
   ws_events (register opts cbs this) =
     ws_events this ++ [{| options := opts; callbacks := cbs |}] /\
   ws_listeners (loadEvents (register opts cbs this)) =
     ws_listeners (loadEvents this) ++
     [(name opts, EventListener {| options := opts; callbacks := cbs |})]) /\
  ws_listeners (loadEvents this) =
    ws_listeners this ++
    map (fun event => (name (options event), EventListener event))
        (ws_events this).
Proof.
  split; [|split].
  - intros Hoff. unfold register. rewrite Hoff. simpl.
    repeat split. intros Hnone. rewrite loadEvents_listeners, Hnone.
    apply app_nil_r.
  - intros Hon. unfold register. rewrite Hon. simpl. split; [reflexivity|].
    rewrite !loadEvents_listeners. simpl. rewrite map_app. simpl.
    now rewrite app_assoc.
  - apply loadEvents_listeners.
Qed.

Lemma register_stores_enabled_only_witness :
  let off := {| name := "ping"; enabled := false; payload := None |} in
  let on := {| name := "chat"; enabled := true; payload := None |} in
  ws_listeners (loadEvents (register off [3] freshInstance)) = [] /\
  ws_listeners (loadEvents (register on [3] freshInstance)) =
    [("chat", EventListener {| options := on; callbacks := [3] |})].
Proof.
  intros off on. split.
  - apply (proj1 (register_stores_enabled_only freshInstance off [3]));
      reflexivity.
  - apply (proj1 (proj2 (register_stores_enabled_only freshInstance on [3])));
      reflexivity.
Defined.

(** The same through the singleton: a disabled registration, then
    [loadEvents]; no listener is bound. *)
Example disabled_registration_binds_nothing :
  option_map ws_listeners
    (wsInstance
       (fst (run twoFiles
               [WsRegister {| name := "ping"; enabled := false;
                              payload := None |} [3];
                WsLoadEvents]
               initialWorld))) = Some [].
Proof. reflexivity. Qed.

(** ** The middleware adapter *)

(** C4: the adapter hands [handle] the request with [body], [params] and
    [query] converted from snake_case, before anything is sent; when
    [handle] answers, what is sent ends with the answer's status and, as
    JSON, the answer's body converted to snake_case, and no other body is
    sent; when [handle] answers nothing, nothing is sent. *)
Theorem middlewareAdapter_converts (toCamel toSnake : Json -> Json)
    (middleware : Controller) (request : Request) :
  let converted :=
    {| body := toCamel (body request); params := toCamel (params request);
       query := toCamel (query request);
       sharedState := sharedState request |} in
  exists sent,
    middlewareAdapter toCamel toSnake middleware request =
      (converted, HandleCall converted :: sent) /\
    (forall q, ~ In (HandleCall q) sent) /\
    (forall r, handle middleware converted = Some r ->
       exists before,
         sent = before ++ [ResponseStatus (statusCode r);
                           ResponseJson (toSnake (response_body r))] /\
         forall b, ~ In (ResponseJson b) before) /\
    (handle middleware converted = None -> sent = []).
Proof.
  intros converted. subst converted.
  unfold middlewareAdapter, set_query, set_params, set_body.
  cbn [body params query sharedState].
  set (converted :=
         {| body := toCamel (body request); params := toCamel (params request);
            query := toCamel (query request);
            sharedState := sharedState request |}).
  eexists. split; [reflexivity|].
  destruct (handle middleware converted) as [r|]; repeat split.
  - intros q Hin. apply in_app_or in Hin.
    destruct Hin as [Hin|[Heq|[Heq|[]]]]; try discriminate.
    destruct (headers r); [destruct Hin as [Heq|[]]; discriminate|destruct Hin].
  - intros r' Heq. inversion Heq; subst r'. eexists. split; [reflexivity|].
    intros b Hin. destruct (headers r); [destruct Hin as [Heq'|[]]; discriminate|destruct Hin].
  - discriminate.
  - intros q [].
  - discriminate.
Qed.

(** The end-to-end example of the spec, with the converters modelled in
    [Util]: the controller sees [userName], the client gets [user_name]. *)
Example post_user_round_trip :
  middlewareAdapter Util.convertSnakeCaseKeysToCamelCase
                    Util.convertCamelCaseKeysToSnakeCase
                    userController postUser =
    ({| body := JObject [("userName", JString "a")];
        params := JObject []; query := JObject [];
        sharedState := JObject [] |},
     [HandleCall {| body := JObject [("userName", JString "a")];
                    params := JObject []; query := JObject [];
                    sharedState := JObject [] |};
      ResponseStatus 200;
      ResponseJson (JObject [("user_name", JString "a")])]).
Proof. reflexivity. Qed.

(** A plain function among the middlewares is called with the request as
    it came: [adaptMiddlewares] converts nothing for it. *)
Example function_middleware_not_converted :
  map (fun adapted => adapted postUser)
      (adaptMiddlewares Util.convertSnakeCaseKeysToCamelCase
                        Util.convertCamelCaseKeysToSnakeCase
                        [FunctionMiddleware 5]) =
    [(postUser, [FunctionCall 5 postUser])].
Proof. reflexivity. Qed.

(** ** Instances *)

Lemma middlewareAdapter_converts_witness :
  let converted :=
    {| body := Util.convertSnakeCaseKeysToCamelCase (body postUser);
       params := Util.convertSnakeCaseKeysToCamelCase (params postUser);
       query := Util.convertSnakeCaseKeysToCamelCase (query postUser);
       sharedState := sharedState postUser |} in
  exists sent,
    middlewareAdapter Util.convertSnakeCaseKeysToCamelCase
                      Util.convertCamelCaseKeysToSnakeCase
                      userController postUser =
      (converted, HandleCall converted :: sent) /\
    (forall q, ~ In (HandleCall q) sent) /\
    (forall r, handle userController converted = Some r ->
       exists before,
         sent = before ++
                [ResponseStatus (statusCode r);
                 ResponseJson
                   (Util.convertCamelCaseKeysToSnakeCase (response_body r))] /\
         forall b, ~ In (ResponseJson b) before) /\
    (handle userController converted = None -> sent = []).
Proof.
  apply (middlewareAdapter_converts Util.convertSnakeCaseKeysToCamelCase
           Util.convertCamelCaseKeysToSnakeCase userController postUser).
Defined.

Lemma route_pairs_and_routers_witness :
  reachable twoFiles someRoutes /\
  (forall path baseUrl ops,
     exists r r',
       result (route (PathArg path) baseUrl someRoutes) = Normal r /\
       result (route (PathArg path) baseUrl
                 (fst (run twoFiles ops
                         (world (route (PathArg path) baseUrl someRoutes)))))
         = Normal r' /\
       route_router r' = route_router r) /\
  (forall path baseUrl ops path' baseUrl',
     (path', baseUrl') <> (path, baseUrl) ->
     exists r r',
       result (route (PathArg path) baseUrl someRoutes) = Normal r /\
       result (route (PathArg path') baseUrl'
                 (fst (run twoFiles ops
                         (world (route (PathArg path) baseUrl someRoutes)))))
         = Normal r' /\
       route_router r' <> route_router r) /\
  (forall path baseUrl ignored w',
     route (OptionsArg path baseUrl) ignored w' =
     route (PathArg path) baseUrl w') /\
  (forall path baseUrl r,
     result (getRoute path baseUrl someRoutes) = Normal (Some r) ->
     forall e, In e (routers (app someRoutes)) -> entry_hidden e = true ->
               entry_router e <> route_router r).
Proof.
  split.
  - exists [RoutesDirectory "routes" NoArg [];
            RouteCall (PathArg (Some "health")) None].
    reflexivity.
  - apply (route_pairs_and_routers twoFiles someRoutes).
    exists [RoutesDirectory "routes" NoArg [];
            RouteCall (PathArg (Some "health")) None].
    reflexivity.
Defined.

(** In [someRoutes] the hidden entry and the [health] entry have the
    routers 0 and 1; asking again for [health], by path or by options,
    gives router 1, and asking for another pair gives a new one. *)
Example someRoutes_lookup :
  map (fun e => (entry_router e, entry_hidden e)) (routers (app someRoutes)) =
    [(0, true); (1, false)] /\
  result (route (PathArg (Some "health")) None someRoutes) =
    Normal {| route_router := 1 |} /\
  result (route (OptionsArg (Some "health") None) (Some "ignored") someRoutes) =
    Normal {| route_router := 1 |} /\
  result (route (PathArg (Some "")) (Some "") someRoutes) =
    Normal {| route_router := 2 |} /\
  result (getRoute (Some "") (Some "") someRoutes) = Normal None.
Proof. repeat split; reflexivity. Qed.

Lemma routers_mounted_exactly_once_witness :
  let ops := [RoutesDirectory "routes" NoArg []; GetServer; Listen 3000 7;
              RoutesDirectory "routes" NoArg []] in
  reachable twoFiles someRoutes /\
  (let w' := fst (run twoFiles ops someRoutes) in
   extends (routers (app someRoutes)) (routers (app w')) /\
   (forall e, In e (routers (app w')) ->
      mountCount (entry_router e) (express (app w')) =
      if entry_loaded e then 1 else 0) /\
   (result (loadRoutes twoFiles w') = Normal tt ->
    forall e, In e (routers (app (world (loadRoutes twoFiles w')))) ->
      entry_loaded e = true /\
      mountCount (entry_router e)
                 (express (app (world (loadRoutes twoFiles w')))) = 1) /\
   (forall s, result (getServer twoFiles w') = Normal s ->
    forall e, In e (routers (app (world (getServer twoFiles w')))) ->
      entry_loaded e = true /\
      mountCount (entry_router e)
                 (express (app (world (getServer twoFiles w')))) = 1) /\
   (forall error, result (loadRoutes twoFiles w') = Throw error ->
    exists e, In e (routers (app (world (loadRoutes twoFiles w')))) /\
      entry_loaded e = false /\
      mountCount (entry_router e)
                 (express (app (world (loadRoutes twoFiles w')))) = 0 /\
      expressUse twoFiles (mountUrl (baseUrl (app w')) e) = Some error) /\
   express (app (world (loadRoutes twoFiles
                          (world (loadRoutes twoFiles w'))))) =
     express (app (world (loadRoutes twoFiles w'))) /\
   (forall e, In e (routers (app someRoutes)) -> entry_loaded e = true ->
      mountCount (entry_router e) (express (app w')) = 1)).
Proof.
  intros ops. split.
  - exists [RoutesDirectory "routes" NoArg [];
            RouteCall (PathArg (Some "health")) None].
    reflexivity.
  - apply (routers_mounted_exactly_once twoFiles someRoutes ops).
    exists [RoutesDirectory "routes" NoArg [];
            RouteCall (PathArg (Some "health")) None].
    reflexivity.
Defined.

(** The express application after the base URL is set, [health] is
    registered, and the directory is loaded twice before the start: the
    [health] router is mounted once, at [/api/v1/health]; each directory
    load has a hidden router of its own, mounted once at [/api/v1/]. *)
Example health_mounted_once :
  express
    (app (fst (run twoFiles
                 [SetBaseUrl "/api/v1";
                  RouteCall (PathArg (Some "health")) None;
                  RoutesDirectory "routes" NoArg [];
                  RoutesDirectory "routes" NoArg [];
                  GetServer; Listen 3000 7]
                 initialWorld))) =
    [SharedStateInitializer;
     RouterLayer "/api/v1/health" 0;
     RouterLayer "/api/v1/" 1;
     RouterLayer "/api/v1/" 2].
Proof. vm_compute. reflexivity. Qed.

(** * Further properties *)

(** ** Mount points *)

Lemma collapseSlashes_first (s : string) :
  firstChar (Js.collapseSlashes s) = firstChar s.
Proof.
  induction s as [|a rest IH]; [reflexivity|].
  simpl. destruct rest as [|b rest']; [reflexivity|].
  destruct (Ascii.eqb_spec a "/"%char) as [->|Ha]; simpl; [|reflexivity].
  destruct (Ascii.eqb_spec b "/"%char) as [->|Hb]; simpl; [|reflexivity].
  exact IH.
Qed.

Lemma prefix_cons (a b : ascii) (s t : string) :
  String.prefix (String a s) (String b t) =
  if ascii_dec a b then String.prefix s t else false.
Proof. reflexivity. Qed.

Lemma includes_cons (a : ascii) (t text : string) :
  Js.includes (String a t) text =
  (String.prefix text (String a t) || Js.includes t text)%bool.
Proof. reflexivity. Qed.

Lemma double_slash_prefix (a : ascii) (t : string) :
  String.prefix "//" (String a t) =
  (Ascii.eqb a "/"%char &&
   match firstChar t with Some b => Ascii.eqb b "/"%char | None => false end)%bool.
Proof.
  change "//" with (String "/"%char (String "/"%char EmptyString)).
  rewrite prefix_cons. destruct (ascii_dec "/"%char a) as [<-|Ha].
  - rewrite Ascii.eqb_refl, andb_true_l.
    destruct t as [|b t']; [reflexivity|].
    rewrite prefix_cons. cbn [firstChar].
    destruct (ascii_dec "/"%char b) as [<-|Hb].
    + rewrite Ascii.eqb_refl. now destruct t'.
    + symmetry. apply Ascii.eqb_neq. congruence.
  - assert (Ascii.eqb a "/"%char = false) as ->
      by (apply Ascii.eqb_neq; congruence).
    reflexivity.
Qed.

Lemma collapseSlashes_cons (a b : ascii) (rest : string) :
  Js.collapseSlashes (String a (String b rest)) =
  if (Ascii.eqb a "/"%char && Ascii.eqb b "/"%char)%bool
  then Js.collapseSlashes (String b rest)
  else String a (Js.collapseSlashes (String b rest)).
Proof. reflexivity. Qed.

Lemma collapseSlashes_clean (s : string) :
  Js.includes (Js.collapseSlashes s) "//" = false.
Proof.
  induction s as [|a rest IH]; [reflexivity|].
  destruct rest as [|b rest'].
  - cbn [Js.collapseSlashes]. rewrite includes_cons, double_slash_prefix.
    cbn [firstChar]. now rewrite andb_false_r.
  - rewrite collapseSlashes_cons.
    destruct (Ascii.eqb a "/"%char && Ascii.eqb b "/"%char)%bool eqn:E;
      [exact IH|].
    rewrite includes_cons, IH, double_slash_prefix, collapseSlashes_first.
    cbn [firstChar]. rewrite E. reflexivity.
Qed.

Lemma collapseSlashes_fixed (s : string) :
  Js.includes s "//" = false -> Js.collapseSlashes s = s.
Proof.
  induction s as [|a rest IH]; intros H; [reflexivity|].
  rewrite includes_cons in H.
  apply orb_false_elim in H. destruct H as [Hp Hr].
  rewrite double_slash_prefix in Hp.
  destruct rest as [|b rest']; [reflexivity|].
  rewrite collapseSlashes_cons.
  cbn [firstChar] in Hp. rewrite Hp. now rewrite (IH Hr).
Qed.

(** X1: collapsing the slashes of a collapsed string changes nothing. *)
Theorem collapseSlashes_idempotent (s : string) :
  Js.collapseSlashes (Js.collapseSlashes s) = Js.collapseSlashes s.
Proof. apply collapseSlashes_fixed, collapseSlashes_clean. Qed.

Lemma cleanUrls_frame (w w' : World) :
  express (app w') = express (app w) -> cleanUrls w -> cleanUrls w'.
Proof. intros He H url r Hin. rewrite He in Hin. eauto. Qed.

Lemma cleanUrls_modifyApp (f : HttpServer -> HttpServer) :
  (forall this, express (f this) = express this) ->
  respects (keeps cleanUrls) (modifyApp f).
Proof. intros He w Hw. apply (cleanUrls_frame w); simpl; auto. Qed.

Lemma cleanUrls_newObject : respects (keeps cleanUrls) newObject.
Proof. intros w Hw. apply (cleanUrls_frame w); simpl; auto. Qed.

Lemma cleanUrls_putWs ws : respects (keeps cleanUrls) (putWs ws).
Proof. intros w Hw. apply (cleanUrls_frame w); simpl; auto. Qed.

Lemma cleanUrls_loadRoutes env : respects (keeps cleanUrls) (loadRoutes env).
Proof.
  intros w Hw url r Hin. rewrite loadRoutes_run in Hin. simpl in Hin.
  apply in_app_or in Hin. destruct Hin as [Hin|Hin]; [eauto|].
  apply mountPending_layers in Hin. destruct Hin as [e [_ [_ Heq]]].
  inversion Heq; subst. apply collapseSlashes_clean.
Qed.

Lemma cleanUrls_addLayer path middlewares :
  respects (keeps cleanUrls) (addLayer (MiddlewareLayer path middlewares)).
Proof.
  intros w Hw url r Hin. simpl in Hin. apply in_app_or in Hin.
  destruct Hin as [Hin|[Heq|[]]]; [eauto|]. discriminate.
Qed.

Create HintDb clean.

#[local] Hint Resolve cleanUrls_newObject cleanUrls_putWs cleanUrls_loadRoutes
  cleanUrls_addLayer : clean.

Ltac clean_auto :=
  respects_by ltac:(solve [auto with clean nocore]);
  try (apply cleanUrls_modifyApp; intros; reflexivity).

Lemma cleanUrls_exec env op : respects (keeps cleanUrls) (exec env op).
Proof.
  destruct op; simpl;
    unfold setWebSocketServerOptions, address, getHttpServerInstance,
      listen, listenAsync, getServer, initializeWebSocketServer,
      eventsDirectory, onStart, refresh, close, setBaseUrl, routesDirectory,
      route, getRoute, createRoute, onInstance, getInstance, callWs, listen,
      getServer, use, serverListen;
    clean_auto.
Qed.

Lemma cleanUrls_run env ops w : cleanUrls w -> cleanUrls (fst (run env ops w)).
Proof.
  revert w. induction ops as [|op ops IH]; intros w Hw; simpl; [auto|].
  pose proof (cleanUrls_exec env op w Hw) as H. unfold world in H.
  destruct (exec env op w) as [[c w1] t1]. simpl in H.
  specialize (IH w1 H). destruct (run env ops w1) as [w2 t2]. exact IH.
Qed.

(** X2: whatever a client calls, and whatever base URLs and paths it gives,
    no router is ever mounted at a URL with two slashes in a row. *)
Theorem mounted_urls_have_no_double_slash (env : Env) (w : World)
    (url : string) (r : Router) :
  reachable env w ->
  In (RouterLayer url r) (express (app w)) ->
  Js.includes url "//" = false.
Proof.
  intros [ops <-] Hin.
  assert (H0 : cleanUrls initialWorld).
  { intros u x [Heq|[]]. discriminate. }
  exact (cleanUrls_run env ops initialWorld H0 url r Hin).
Qed.

Lemma mounted_urls_have_no_double_slash_witness :
  let w := fst (run twoFiles
                  [SetBaseUrl "//api//v1/";
                   RouteCall (PathArg (Some "/health")) None; GetServer]
                  initialWorld) in
  In (RouterLayer "/api/v1/health" 0) (express (app w)) /\
  Js.includes "/api/v1/health" "//" = false.
Proof.
  intros w.
  assert (Hin : In (RouterLayer "/api/v1/health" 0) (express (app w)))
    by (vm_compute; auto).
  split; [exact Hin|].
  apply (mounted_urls_have_no_double_slash twoFiles w "/api/v1/health" 0).
  - exists [SetBaseUrl "//api//v1/";
            RouteCall (PathArg (Some "/health")) None; GetServer].
    reflexivity.
  - exact Hin.
Defined.

(** ** Quiet computations *)

Section Quiet.

Variable I : World -> Prop.
Variable p : Event -> bool.

Lemma quiet_ret {A} (a : A) : quiet I p (ret a).
Proof. intros w H. split; [exact H|reflexivity]. Qed.

Lemma quiet_throw {A} (e : Js.Error) : quiet I p (@throw A e).
Proof. intros w H. split; [exact H|reflexivity]. Qed.

Lemma quiet_getApp : quiet I p getApp.
Proof. intros w H. split; [exact H|reflexivity]. Qed.

Lemma quiet_getWs : quiet I p getWs.
Proof. intros w H. split; [exact H|reflexivity]. Qed.

Lemma quiet_emit (e : Event) : p e = false -> quiet I p (emit e).
Proof.
  intros He w H. split; [exact H|]. unfold emit, trace. simpl. now rewrite He.
Qed.

Lemma quiet_bind {A B} (m : M A) (k : A -> M B) :
  quiet I p m -> (forall a, quiet I p (k a)) -> quiet I p (bind m k).
Proof.
  intros Hm Hk w H. specialize (Hm w H). unfold bind, world, trace in *.
  destruct (m w) as [[[a|e] w1] t1]; simpl in *; [|exact Hm].
  destruct Hm as [H1 Ht1]. specialize (Hk a w1 H1). unfold world, trace in Hk.
  destruct (k a w1) as [[c w2] t2]; simpl in *. destruct Hk as [H2 Ht2].
  split; [exact H2|]. now rewrite filter_app, Ht1, Ht2.
Qed.

Lemma quiet_silent {A} (m : M A) :
  (forall w, world (m w) = w) ->
  (forall w, filter p (trace (m w)) = []) ->
  quiet I p m.
Proof. intros Hw Ht w H. rewrite Hw. auto. Qed.

Lemma quiet_change {A} (m : M A) :
  (forall w, I w -> I (world (m w))) ->
  (forall w, trace (m w) = []) ->
  quiet I p m.
Proof. intros Hw Ht w H. rewrite Ht. auto. Qed.

End Quiet.

Lemma filter_trace_bind {A B} (p : Event -> bool) (m : M A) (k : A -> M B)
    (w : World) :
  filter p (trace (bind m k w)) =
  filter p (trace (m w)) ++
  match result (m w) with
  | Normal a => filter p (trace (k a (world (m w))))
  | Throw _ => []
  end.
Proof.
  unfold bind, trace, result, world.
  destruct (m w) as [[[a|e] w1] t1]; simpl.
  - destruct (k a w1) as [[c w2] t2]. simpl. apply filter_app.
  - now rewrite app_nil_r.
Qed.

Lemma loadFiles_no (p : Event -> bool) env path target files w :
  (forall f, p (ImportModule f) = false) ->
  (forall f t, p (SetupCall f t) = false) ->
  filter p (trace (loadFiles env path target files w)) = [].
Proof.
  intros Hi Hs. induction files as [|f files IH]; [reflexivity|].
  simpl. unfold bind, emit, ret, throw, trace in *. simpl.
  destruct (importDefault env (resolve env path f)) as [[|]|]; simpl;
    rewrite ?Hi, ?Hs; try reflexivity;
    destruct (loadFiles env path target files w) as [[c w'] t];
    simpl in *; rewrite ?Hi, ?Hs; exact IH.
Qed.

Lemma quiet_loadFiles I p env path target files :
  (forall f, p (ImportModule f) = false) ->
  (forall f t, p (SetupCall f t) = false) ->
  quiet I p (loadFiles env path target files).
Proof.
  intros Hi Hs. apply quiet_silent.
  - apply loadFiles_world.
  - intros w. now apply loadFiles_no.
Qed.

Lemma quiet_readdir I p env path : quiet I p (readdir env path).
Proof.
  apply quiet_silent; intros w; unfold readdir;
    destruct (readdirSync env path); reflexivity.
Qed.

Lemma quiet_callAll I p l :
  (forall c, p (CallbackCall c) = false) -> quiet I p (callAll l).
Proof.
  intros Hc. apply quiet_silent; intros w; rewrite callAll_run; [reflexivity|].
  unfold trace. simpl. induction l; simpl; rewrite ?Hc; auto.
Qed.

Lemma quiet_newObject I p :
  (forall w, I w -> I (world (newObject w))) -> quiet I p newObject.
Proof. intros H. apply quiet_change; auto. Qed.

Lemma quiet_putWs I p ws :
  (forall w, I w -> I (world (putWs ws w))) -> quiet I p (putWs ws).
Proof. intros H. apply quiet_change; auto. Qed.

Lemma quiet_modifyApp I p f :
  (forall w, I w -> I (world (modifyApp f w))) -> quiet I p (modifyApp f).
Proof. intros H. apply quiet_change; auto. Qed.

(** Splitting a computation; [leaf] closes the methods kept whole and
    [side] the conditions on single events and on writes. *)
Ltac quiet_by leaf side :=
  repeat first
    [ leaf
    | apply quiet_ret
    | apply quiet_throw
    | apply quiet_getApp
    | apply quiet_getWs
    | apply quiet_emit; reflexivity
    | apply quiet_callAll; intros; reflexivity
    | apply quiet_loadFiles; intros; reflexivity
    | apply quiet_readdir
    | apply quiet_newObject; side
    | apply quiet_putWs; side
    | apply quiet_modifyApp; side
    | apply quiet_bind; [ | intros ]
    | match goal with
      | |- quiet _ _ (if ?b then _ else _) => destruct b
      | |- quiet _ _ (match ?x with _ => _ end) => destruct x
      | |- quiet _ _ (let '(_, _) := ?x in _) => destruct x
      end ].

(** ** Binding a port *)

Ltac trivial_side := intros; exact Logic.I.

Ltac unfold_methods :=
  unfold setWebSocketServerOptions, address, getHttpServerInstance,
    initializeWebSocketServer, eventsDirectory, onStart, refresh, close, use,
    setBaseUrl, routesDirectory, route, getRoute, createRoute, onInstance,
    getInstance, callWs, getServer, loadRoutes, addLayer.

Lemma quiet_listen_started p env port callback :
  quiet started p (listen env port callback).
Proof.
  intros w H. rewrite listen_when_started by exact H. split; [exact H|reflexivity].
Qed.

Lemma quiet_listenAsync_started p env port callback :
  quiet started p (listenAsync env port callback).
Proof.
  intros w H. rewrite listenAsync_when_started by exact H.
  split; [exact H|reflexivity].
Qed.

Ltac started_side := intros ? ?; unfold started in *; simpl; auto.

Lemma quiet_exec_started env op : quiet started isServerListen (exec env op).
Proof.
  destruct op; simpl; unfold_methods;
    quiet_by ltac:(first [ apply quiet_listen_started
                         | apply quiet_listenAsync_started ])
             ltac:(started_side).
Qed.

Lemma quiet_run_started env ops w :
  started w ->
  started (fst (run env ops w)) /\ binds (snd (run env ops w)) = 0.
Proof.
  revert w. induction ops as [|op ops IH]; intros w H; simpl; [auto|].
  destruct (quiet_exec_started env op w H) as [H1 Ht1].
  unfold world, trace in *.
  destruct (exec env op w) as [[c w1] t1]. simpl in *.
  destruct (IH w1 H1) as [H2 Ht2].
  destruct (run env ops w1) as [w2 t2]. simpl in *.
  split; [exact H2|]. unfold binds in *. rewrite filter_app, length_app.
  rewrite Ht1. simpl. exact Ht2.
Qed.

(** X3: once the server has started, no call a client can make binds a
    port again: there is no [server.listen] in anything that follows, not
    by [listen], not by [listenAsync], and not by [refresh]. *)
Theorem nothing_binds_after_start (env : Env) (w : World) (ops : list Op) :
  isStarted (app w) = true ->
  filter isServerListen (snd (run env ops w)) = [].
Proof.
  intros H. destruct (quiet_run_started env ops w H) as [_ Hb].
  unfold binds in Hb. now apply length_zero_iff_nil.
Qed.

Lemma nothing_binds_after_start_witness :
  filter isServerListen
    (snd (run twoFiles [Refresh; Listen 4000 9; Close; ListenAsync 4000 9]
              configuredAndListening)) = [].
Proof.
  apply (nothing_binds_after_start twoFiles configuredAndListening
           [Refresh; Listen 4000 9; Close; ListenAsync 4000 9]).
  reflexivity.
Defined.

Lemma atMost_bind {A B} p n (m : M A) (k : A -> M B) :
  quiet anyWorld p m -> (forall a, atMost p n (k a)) -> atMost p n (bind m k).
Proof.
  intros Hm Hk w. rewrite filter_trace_bind.
  destruct (Hm w Logic.I) as [_ ->]. simpl.
  destruct (result (m w)); [apply Hk|simpl; lia].
Qed.

Lemma atMost_quiet {A} p n (m : M A) : quiet anyWorld p m -> atMost p n m.
Proof. intros Hm w. destruct (Hm w Logic.I) as [_ ->]. simpl. lia. Qed.

Ltac anyWorld_quiet :=
  unfold_methods; quiet_by fail ltac:(trivial_side).

Lemma serverListen_binds_once {A} s port callback (k : M A) :
  quiet anyWorld isServerListen k ->
  atMost isServerListen 1 (serverListen s port callback;; k).
Proof.
  intros Hk w. rewrite filter_trace_bind. unfold serverListen.
  destruct (port <=? maxPort)%nat; [|simpl; lia].
  unfold emit, result, world. cbn [fst snd].
  destruct (Hk w Logic.I) as [_ ->]. simpl. lia.
Qed.

Lemma listenAsync_binds_once env port callback :
  atMost isServerListen 1 (listenAsync env port callback).
Proof.
  unfold listenAsync.
  apply atMost_bind; [apply quiet_getApp|intros this].
  destruct (isStarted this); [apply atMost_quiet, quiet_ret|].
  repeat (apply atMost_bind; [solve [anyWorld_quiet]|intros]).
  apply serverListen_binds_once. anyWorld_quiet.
Qed.

Lemma listen_binds_once env port callback :
  atMost isServerListen 1 (listen env port callback).
Proof.
  unfold listen.
  apply atMost_bind; [apply quiet_getApp|intros this].
  destruct (isStarted this); [apply atMost_quiet, quiet_ret|].
  repeat (apply atMost_bind; [solve [anyWorld_quiet]|intros]).
  apply serverListen_binds_once. anyWorld_quiet.
Qed.

Lemma refresh_binds env w : binds (trace (refresh env w)) = 0.
Proof.
  destruct (isStarted (app w)) eqn:E.
  - unfold refresh, bind, getApp, emit, throw, trace, binds. simpl. rewrite E.
    simpl. destruct (server (app w)); simpl; [|reflexivity].
    destruct (listenerOptions (app w)) as [lo|]; simpl; [|reflexivity].
    rewrite listen_when_started by exact E. reflexivity.
  - now rewrite refresh_not_started.
Qed.

Lemma discard_result {A} (m : M A) (w : World) :
  trace ((m;; ret tt) w) = trace (m w) /\ world ((m;; ret tt) w) = world (m w).
Proof.
  unfold bind, ret, trace, world. destruct (m w) as [[[a|e] w1] t]; simpl;
    auto using app_nil_r.
Qed.

Lemma listen_binds_or_not env port callback w :
  binds (trace ((listen env port callback;; ret tt) w)) = 0 \/
  (binds (trace ((listen env port callback;; ret tt) w)) = 1 /\
   isStarted (app (world ((listen env port callback;; ret tt) w))) = true).
Proof.
  destruct (discard_result (listen env port callback) w) as [-> ->].
  rewrite listen_started.
  pose proof (listen_binds_once env port callback w) as Hle.
  unfold binds. destruct (length _) as [|[|n]]; auto. lia.
Qed.

Lemma listenAsync_binds_or_not env port callback w :
  binds (trace ((listenAsync env port callback;; ret tt) w)) = 0 \/
  (binds (trace ((listenAsync env port callback;; ret tt) w)) = 1 /\
   isStarted (app (world ((listenAsync env port callback;; ret tt) w))) = true).
Proof.
  destruct (discard_result (listenAsync env port callback) w) as [-> ->].
  rewrite listenAsync_started.
  pose proof (listenAsync_binds_once env port callback w) as Hle.
  unfold binds. destruct (length _) as [|[|n]]; auto. lia.
Qed.

(** A call binds no port, or it binds one and the server is started. *)
Lemma exec_binds env op w :
  binds (trace (exec env op w)) = 0 \/
  (binds (trace (exec env op w)) = 1 /\
   isStarted (app (world (exec env op w))) = true).
Proof.
  assert (Hq : forall m : M unit, quiet anyWorld isServerListen m ->
                 binds (trace (m w)) = 0).
  { intros m Hm. destruct (Hm w Logic.I) as [_ Ht]. unfold binds.
    now rewrite Ht. }
  destruct op; cbn [exec];
    first [ apply listen_binds_or_not
          | apply listenAsync_binds_or_not
          | left; apply refresh_binds
          | left; apply Hq; solve [anyWorld_quiet] ].
Qed.

(** X4: over any sequence of calls, from any world, at most one port is
    ever bound. *)
Theorem at_most_one_bind (env : Env) (ops : list Op) (w : World) :
  binds (snd (run env ops w)) <= 1.
Proof.
  revert w. induction ops as [|op ops IH]; intros w; simpl; [auto|].
  pose proof (exec_binds env op w) as H. unfold world, trace in H.
  destruct (exec env op w) as [[c w1] t1] eqn:E. simpl in H.
  pose proof (IH w1) as IH1.
  pose proof (quiet_run_started env ops w1) as Hq.
  destruct (run env ops w1) as [w2 t2]. simpl in *.
  unfold binds in *. rewrite filter_app, length_app.
  destruct H as [H|[H Hs]].
  - rewrite H. exact IH1.
  - destruct (Hq Hs) as [_ H0]. rewrite H, H0. lia.
Qed.

(** ** What the start settles *)

Lemma settled_refl (w : World) : settled w w.
Proof. constructor; auto. Qed.

Lemma settled_trans (a b c : World) : settled a b -> settled b c -> settled a c.
Proof.
  intros [s1 v1 o1 a1] [s2 v2 o2 a2]. constructor; intros H.
  - auto.
  - rewrite v2, v1; auto.
  - rewrite o2, o1; auto.
  - rewrite a2, a1; auto.
Qed.

Lemma settled_unstarted (w w' : World) :
  isStarted (app w) = false -> settled w w'.
Proof. intros H. constructor; intros H'; congruence. Qed.

#[local] Hint Resolve settled_refl settled_trans : core.

Lemma settled_modifyApp (f : HttpServer -> HttpServer) :
  (forall this, isStarted this = true -> isStarted (f this) = true) ->
  (forall this, server (f this) = server this) ->
  (forall this, listenerOptions (f this) = listenerOptions this) ->
  (forall this, addressInfo (f this) = addressInfo this) ->
  respects settled (modifyApp f).
Proof. intros Hs Hv Ho Ha w. constructor; simpl; auto. Qed.

Lemma settled_newObject : respects settled newObject.
Proof. intros w. constructor; auto. Qed.

Lemma settled_putWs ws : respects settled (putWs ws).
Proof. intros w. constructor; auto. Qed.

Lemma settled_listen env port callback :
  respects settled (listen env port callback).
Proof.
  intros w. destruct (isStarted (app w)) eqn:E.
  - rewrite listen_when_started by exact E. apply settled_refl.
  - now apply settled_unstarted.
Qed.

Lemma settled_listenAsync env port callback :
  respects settled (listenAsync env port callback).
Proof.
  intros w. destruct (isStarted (app w)) eqn:E.
  - rewrite listenAsync_when_started by exact E. apply settled_refl.
  - now apply settled_unstarted.
Qed.

Create HintDb settled.

#[local] Hint Resolve settled_newObject settled_putWs settled_listen
  settled_listenAsync : settled.

Ltac settled_auto :=
  respects_by ltac:(solve [auto with settled nocore]);
  try (apply settled_modifyApp; intros; simpl; auto).

Lemma settled_exec env op : respects settled (exec env op).
Proof. destruct op; cbn [exec]; unfold_methods; settled_auto. Qed.

Lemma settled_run env ops w : settled w (fst (run env ops w)).
Proof.
  revert w. induction ops as [|op ops IH]; intros w; simpl; [auto|].
  pose proof (settled_exec env op w) as H. unfold world in H.
  destruct (exec env op w) as [[c w1] t1]. simpl in H.
  specialize (IH w1). destruct (run env ops w1) as [w2 t2]. simpl in *.
  eauto.
Qed.

Lemma unstarted_frame (w w' : World) :
  isStarted (app w') = isStarted (app w) ->
  server (app w') = server (app w) ->
  listenerOptions (app w') = listenerOptions (app w) ->
  addressInfo (app w') = addressInfo (app w) ->
  unstarted w -> unstarted w'.
Proof. unfold unstarted. intros -> -> -> ->. auto. Qed.

Lemma unstarted_modifyApp (f : HttpServer -> HttpServer) :
  (forall this, isStarted (f this) = isStarted this) ->
  (forall this, server (f this) = server this) ->
  (forall this, listenerOptions (f this) = listenerOptions this) ->
  (forall this, addressInfo (f this) = addressInfo this) ->
  respects (keeps unstarted) (modifyApp f).
Proof. intros Hs Hv Ho Ha w Hw. apply (unstarted_frame w); simpl; auto. Qed.

Lemma unstarted_newObject : respects (keeps unstarted) newObject.
Proof. intros w Hw. exact Hw. Qed.

Lemma unstarted_putWs ws : respects (keeps unstarted) (putWs ws).
Proof. intros w Hw. exact Hw. Qed.

Lemma unstarted_listen env port callback :
  respects (keeps unstarted) (listen env port callback).
Proof. intros w _ H. rewrite listen_started in H. discriminate. Qed.

Lemma unstarted_listenAsync env port callback :
  respects (keeps unstarted) (listenAsync env port callback).
Proof. intros w _ H. rewrite listenAsync_started in H. discriminate. Qed.

Create HintDb unstarted.

#[local] Hint Resolve unstarted_newObject unstarted_putWs unstarted_listen
  unstarted_listenAsync : unstarted.

Ltac unstarted_auto :=
  respects_by ltac:(solve [auto with unstarted nocore]);
  try (apply unstarted_modifyApp; intros; reflexivity).

Lemma unstarted_exec env op : respects (keeps unstarted) (exec env op).
Proof. destruct op; cbn [exec]; unfold_methods; unstarted_auto. Qed.

Lemma unstarted_reachable env w : reachable env w -> unstarted w.
Proof.
  intros [ops <-].
  assert (H0 : unstarted initialWorld) by (intros _; auto).
  revert H0. generalize initialWorld.
  induction ops as [|op ops IH]; intros w Hw; simpl; [exact Hw|].
  pose proof (unstarted_exec env op w Hw) as H. unfold world in H.
  destruct (exec env op w) as [[c w1] t1]. simpl in H.
  specialize (IH w1 H). destruct (run env ops w1) as [w2 t2]. exact IH.
Qed.

(** The three ways [listen] goes on a server that is not started. *)
Lemma listen_unmountable (env : Env) (port : Port) (callback : Callback)
    (w : World) (e : Js.Error) :
  isStarted (app w) = false ->
  mountFailure env w = Some e ->
  result (listen env port callback w) = Throw e /\
  trace (listen env port callback w) = [] /\
  server (app (world (listen env port callback w))) = server (app w) /\
  addressInfo (app (world (listen env port callback w))) =
    addressInfo (app w).
Proof.
  intros Hst Hm. unfold mountFailure in Hm.
  unfold listen, bind, getApp, result, trace, world. simpl.
  rewrite Hst. simpl. rewrite loadRoutes_run. simpl. rewrite Hm. simpl. auto.
Qed.

Lemma listen_bad_port (env : Env) (port : Port) (callback : Callback)
    (w : World) :
  isStarted (app w) = false ->
  mountFailure env w = None ->
  (port <=? maxPort)%nat = false ->
  result (listen env port callback w) =
    Throw (Js.RangeError "ERR_SOCKET_BAD_PORT") /\
  trace (listen env port callback w) = [CreateServer (nextObject w)] /\
  server (app (world (listen env port callback w))) = Some (nextObject w) /\
  addressInfo (app (world (listen env port callback w))) =
    addressInfo (app w).
Proof.
  intros Hst Hm Hp. unfold mountFailure in Hm.
  unfold listen, getServer, serverListen, bind, getApp, result, trace, world.
  simpl. rewrite Hst. simpl. rewrite loadRoutes_run. simpl. rewrite Hm. simpl.
  rewrite loadRoutes_run. simpl. rewrite mountPending_again. simpl.
  rewrite Hm. simpl. rewrite Hp. simpl. auto.
Qed.

Lemma listen_run (env : Env) (port : Port) (callback : Callback) (w : World) :
  isStarted (app w) = false ->
  mountFailure env w = None ->
  (port <=? maxPort)%nat = true ->
  result (listen env port callback w) = Normal (Some (nextObject w)) /\
  trace (listen env port callback w) =
    [CreateServer (nextObject w); ServerListen (nextObject w) port callback] /\
  server (app (world (listen env port callback w))) = Some (nextObject w) /\
  addressInfo (app (world (listen env port callback w))) =
    Some (serverAddress env (nextObject w) port) /\
  listenerOptions (app (world (listen env port callback w))) =
    Some {| lo_port := port; lo_callback := callback |}.
Proof.
  intros Hst Hm Hp. unfold mountFailure in Hm.
  unfold listen, getServer, serverListen, bind, getApp, result, trace, world.
  simpl. rewrite Hst. simpl. rewrite loadRoutes_run. simpl. rewrite Hm. simpl.
  rewrite loadRoutes_run. simpl. rewrite mountPending_again. simpl.
  rewrite Hm. simpl. rewrite Hp. simpl. auto.
Qed.

(** X5: on a server a client has not started, [address()] gives
    [undefined].  A call of [listen] then settles the answer for good:
    whether the call completes or throws, [address()] gives ever after what
    it gives right after the call, whatever is called, [close] and
    [refresh] included.  The call completes when express takes every
    router still to be mounted and the port is no larger than 65535; then
    it has made a new node server, and the answer is what
    [server.address()] reported for it: the port the operating system
    gave, or [null].  When the call throws, the answer stays
    [undefined]. *)
Theorem address_before_and_after_start (env : Env) (w : World) (port : Port)
    (callback : Callback) (ops : list Op) :
  reachable env w ->
  isStarted (app w) = false ->
  let w1 := world (listen env port callback w) in
  result (address w) = Normal None /\
  result (address (fst (run env ops w1))) = result (address w1) /\
  (mountFailure env w = None -> (port <=? maxPort)%nat = true ->
   result (listen env port callback w) = Normal (Some (nextObject w))) /\
  (forall s, result (listen env port callback w) = Normal s ->
     s = Some (nextObject w) /\
     result (address w1) =
       Normal (Some (match osBind env port with
                     | Some bound =>
                         Some {| address_server := nextObject w;
                                 address_port := bound |}
                     | None => None
                     end))) /\
  (forall e, result (listen env port callback w) = Throw e ->
     result (address w1) = Normal None).
Proof.
  intros Hreach Hst w1.
  destruct (unstarted_reachable env w Hreach Hst) as [_ [_ Ha]].
  assert (Haddr : forall w0, result (address w0) = Normal (addressInfo (app w0)))
    by reflexivity.
  rewrite !Haddr. split; [now rewrite Ha|]. split.
  { pose proof (settled_run env ops w1) as Hs.
    now rewrite (settled_address _ _ Hs (listen_started env port callback w)). }
  destruct (mountFailure env w) as [e0|] eqn:Hm.
  - destruct (listen_unmountable env port callback w e0 Hst Hm)
      as [Hr [_ [_ Hadr]]].
    split; [discriminate|]. split.
    + intros s Hs. rewrite Hr in Hs. discriminate.
    + intros e _. subst w1. now rewrite Hadr, Ha.
  - destruct (port <=? maxPort)%nat eqn:Hp.
    + destruct (listen_run env port callback w Hst Hm Hp)
        as [Hr [_ [_ [Hadr _]]]].
      split; [auto|]. split.
      * intros s Hs. rewrite Hr in Hs. inversion Hs; subst s.
        split; [reflexivity|]. subst w1. now rewrite Hadr.
      * intros e He. rewrite Hr in He. discriminate.
    + destruct (listen_bad_port env port callback w Hst Hm Hp)
        as [Hr [_ [_ Hadr]]].
      split; [discriminate|]. split.
      * intros s Hs. rewrite Hr in Hs. discriminate.
      * intros e _. subst w1. now rewrite Hadr, Ha.
Qed.

Lemma address_before_and_after_start_witness :
  let w1 := world (listen twoFiles 3000 7 someRoutes) in
  reachable twoFiles someRoutes /\
  isStarted (app someRoutes) = false /\
  result (address someRoutes) = Normal None /\
  result (address (fst (run twoFiles [Close; Refresh; Listen 4000 9] w1))) =
    result (address w1) /\
  (mountFailure twoFiles someRoutes = None -> (3000 <=? maxPort)%nat = true ->
   result (listen twoFiles 3000 7 someRoutes) =
     Normal (Some (nextObject someRoutes))) /\
  (forall s, result (listen twoFiles 3000 7 someRoutes) = Normal s ->
     s = Some (nextObject someRoutes) /\
     result (address w1) =
       Normal (Some (match osBind twoFiles 3000 with
                     | Some bound =>
                         Some {| address_server := nextObject someRoutes;
                                 address_port := bound |}
                     | None => None
                     end))) /\
  (forall e, result (listen twoFiles 3000 7 someRoutes) = Throw e ->
     result (address w1) = Normal None).
Proof.
  intros w1.
  assert (Hr : reachable twoFiles someRoutes).
  { exists [RoutesDirectory "routes" NoArg [];
            RouteCall (PathArg (Some "health")) None].
    reflexivity. }
  split; [exact Hr|]. split; [reflexivity|].
  apply (address_before_and_after_start twoFiles someRoutes 3000 7
           [Close; Refresh; Listen 4000 9] Hr).
  reflexivity.
Defined.

(** Three starts by [listen] in a world with a route to mount: on a free
    port (an address), on a port that is taken ([null]), and on a port that
    is no port ([undefined], and a RangeError). *)
Example listen_three_ways :
  result (address (world (listen twoFiles 3000 7 someRoutes))) =
    Normal (Some (Some {| address_server := 2; address_port := 3000 |})) /\
  result (address (world (listen nothingReadable 3000 7 someRoutes))) =
    Normal (Some None) /\
  result (address (world (listen twoFiles (S maxPort) 7 someRoutes))) =
    Normal None /\
  result (listen twoFiles (S maxPort) 7 someRoutes) =
    Throw (Js.RangeError "ERR_SOCKET_BAD_PORT") /\
  filter isServerListen (trace (listen twoFiles (S maxPort) 7 someRoutes)) = [].
Proof. repeat split; vm_compute; reflexivity. Qed.

(** X6: when a startup callback fails, [listenAsync] throws its error
    without making a node server, and the server counts as started all the
    same: [close] and [refresh] then throw a [TypeError] (there is no node
    server to close) and [listen] does nothing. *)
Theorem failed_startup_callback (env : Env) (w : World) (port : Port)
    (callback : Callback) (e : Js.Error) :
  reachable env w ->
  isStarted (app w) = false ->
  firstFailure env (startupCallbacks (app w)) = Some e ->
  let w' := world (listenAsync env port callback w) in
  result (listenAsync env port callback w) = Throw e /\
  trace (listenAsync env port callback w) =
    map CallbackCall (startupCallbacks (app w)) /\
  close w' = (Throw (undefinedRead "close"), w', []) /\
  refresh env w' = (Throw (undefinedRead "close"), w', []) /\
  listen env port callback w' = (Normal None, w', []).
Proof.
  intros Hreach Hst Hfail w'.
  destruct (unstarted_reachable env w Hreach Hst) as [Hsrv _].
  assert (Hrun : listenAsync env port callback w =
                 (Throw e, world (modifyApp (set_isStarted true) w),
                  map CallbackCall (startupCallbacks (app w)))).
  { unfold listenAsync, bind, getApp. simpl. rewrite Hst. simpl.
    rewrite callAll_run. simpl. rewrite Hfail. simpl.
    now rewrite app_nil_r. }
  subst w'. rewrite Hrun. simpl. repeat split.
  - unfold close, bind, getApp, throw. simpl. now rewrite Hsrv.
  - unfold refresh, bind, getApp, throw. simpl. now rewrite Hsrv.
Qed.

Lemma failed_startup_callback_witness :
  let w := fst (run nothingReadable [OnStart [4; 5; 6]] initialWorld) in
  let w' := world (listenAsync nothingReadable 3000 7 w) in
  result (listenAsync nothingReadable 3000 7 w) =
    Throw (Js.Rejected "sooner") /\
  trace (listenAsync nothingReadable 3000 7 w) =
    map CallbackCall (startupCallbacks (app w)) /\
  close w' = (Throw (undefinedRead "close"), w', []) /\
  refresh nothingReadable w' = (Throw (undefinedRead "close"), w', []) /\
  listen nothingReadable 3000 7 w' = (Normal None, w', []).
Proof.
  intros w.
  apply (failed_startup_callback nothingReadable w 3000 7
           (Js.Rejected "sooner")).
  - exists [OnStart [4; 5; 6]]. reflexivity.
  - reflexivity.
  - reflexivity.
Defined.

(** Of the callbacks 5 and 6 of [nothingReadable], which both fail, 6 fails
    first in time: its error is the one [Promise.all] rejects with,
    whichever comes first in the list. *)
Example earliest_rejection_wins :
  firstFailure nothingReadable [4; 5; 6] = Some (Js.Rejected "sooner") /\
  firstFailure nothingReadable [6; 5] = Some (Js.Rejected "sooner") /\
  firstFailure nothingReadable [5] = Some (Js.Rejected "startup") /\
  firstFailure nothingReadable [4] = None.
Proof. repeat split; reflexivity. Qed.

(** X7: after a call of [listenAsync], whether it completed or threw, and
    whatever is called next, [listen] and [listenAsync] return [undefined]
    and do nothing: a start that failed cannot be tried again. *)
Theorem no_second_start (env : Env) (w : World) (port : Port)
    (callback : Callback) (ops : list Op) (port' : Port)
    (callback' : Callback) :
  let w' := fst (run env ops (world (listenAsync env port callback w))) in
  listen env port' callback' w' = (Normal None, w', []) /\
  listenAsync env port' callback' w' = (Normal None, w', []).
Proof.
  intros w'.
  assert (H : isStarted (app w') = true).
  { apply (grows_started _ _ (grows_run env ops _)).
    apply listenAsync_started. }
  split.
  - now apply listen_when_started.
  - now apply listenAsync_when_started.
Qed.

(** ** Startup callbacks *)

Lemma calls_in_calls (l : list Callback) :
  filter isCallbackCall (map CallbackCall l) = map CallbackCall l.
Proof. induction l; simpl; congruence. Qed.

Lemma listenAsync_calls env port callback w :
  isStarted (app w) = false ->
  filter isCallbackCall (trace (listenAsync env port callback w)) =
  map CallbackCall (startupCallbacks (app w)).
Proof.
  intros Hst. unfold listenAsync.
  rewrite filter_trace_bind. cbn [getApp trace result world fst snd filter app].
  rewrite Hst.
  rewrite filter_trace_bind.
  cbn [modifyApp trace result world fst snd filter app].
  rewrite filter_trace_bind, callAll_run.
  cbn [trace result world fst snd]. rewrite calls_in_calls.
  match goal with
  | |- context [filter isCallbackCall (trace (?rest ?w1))] =>
      assert (Hq : @quiet anyWorld isCallbackCall (option NodeServer) rest)
        by (unfold serverListen; anyWorld_quiet);
      pose proof (proj2 (Hq w1 Logic.I)) as Hnil
  end.
  rewrite Hnil.
  cbn [app]. apply app_nil_r.
Qed.

(** X8: [onStart] replaces what was registered before: [listenAsync] on a
    server not yet started calls the callbacks of the last [onStart], each
    once and in order, and no other; [listen] calls no startup callback. *)
Theorem startup_callbacks_of_last_onStart (env : Env) (w : World)
    (first last : list Callback) (port : Port) (callback : Callback) :
  isStarted (app w) = false ->
  let w' := world (onStart last (world (onStart first w))) in
  filter isCallbackCall (trace (listenAsync env port callback w')) =
    map CallbackCall last /\
  filter isCallbackCall (trace (listen env port callback w')) = [].
Proof.
  intros Hst w'. split.
  - rewrite listenAsync_calls by exact Hst. reflexivity.
  - assert (Hq : quiet anyWorld isCallbackCall (listen env port callback))
      by (unfold listen, serverListen; anyWorld_quiet).
    apply (Hq w' Logic.I).
Qed.

Lemma startup_callbacks_of_last_onStart_witness :
  let w' := world (onStart [6] (world (onStart [4; 5] initialWorld))) in
  filter isCallbackCall (trace (listenAsync twoFiles 3000 7 w')) =
    map CallbackCall [6] /\
  filter isCallbackCall (trace (listen twoFiles 3000 7 w')) = [].
Proof.
  apply (startup_callbacks_of_last_onStart twoFiles initialWorld
           [4; 5] [6] 3000 7).
  reflexivity.
Defined.

(** ** The WebSocket instance *)

Lemma instanceGrows_refl (w : World) : instanceGrows w w.
Proof.
  constructor. intros ws H. exists ws. repeat split; auto;
    exists []; now rewrite app_nil_r.
Qed.

Lemma instanceGrows_trans (a b c : World) :
  instanceGrows a b -> instanceGrows b c -> instanceGrows a c.
Proof.
  intros [Hab] [Hbc]. constructor. intros ws H.
  destruct (Hab ws H) as [ws1 [H1 [Hs1 [Ho1 [[e1 He1] [l1 Hl1]]]]]].
  destruct (Hbc ws1 H1) as [ws2 [H2 [Hs2 [Ho2 [[e2 He2] [l2 Hl2]]]]]].
  exists ws2. repeat split; try congruence.
  - exists (e1 ++ e2). rewrite He2, He1. now rewrite app_assoc.
  - exists (l1 ++ l2). rewrite Hl2, Hl1. now rewrite app_assoc.
Qed.

#[local] Hint Resolve instanceGrows_refl instanceGrows_trans : core.

Lemma instanceGrows_same (w w' : World) :
  wsInstance w' = wsInstance w -> instanceGrows w w'.
Proof.
  intros H. constructor. intros ws Hws. exists ws. rewrite H.
  repeat split; auto; exists []; now rewrite app_nil_r.
Qed.

Lemma instanceGrows_modifyApp f : respects instanceGrows (modifyApp f).
Proof. intros w. now apply instanceGrows_same. Qed.

Lemma instanceGrows_newObject : respects instanceGrows newObject.
Proof. intros w. now apply instanceGrows_same. Qed.

Lemma instanceGrows_callWs method f :
  addsOnly f -> respects instanceGrows (callWs method f).
Proof.
  intros Hf w. constructor. intros ws H.
  unfold callWs, bind, getWs, world. simpl. rewrite H. simpl.
  exists (f ws). split; [reflexivity|]. apply Hf.
Qed.

Lemma instanceGrows_getInstance env httpServer options :
  respects instanceGrows (getInstance env httpServer options).
Proof.
  intros w. constructor. intros ws H.
  unfold getInstance, bind, getWs, world. simpl. rewrite H. simpl.
  exists ws. repeat split; auto; exists []; now rewrite app_nil_r.
Qed.

Lemma addsOnly_register options callbacks : addsOnly (register options callbacks).
Proof.
  intros ws. unfold register. destruct (enabled options); simpl;
    repeat split; eauto; exists []; now rewrite app_nil_r.
Qed.

Lemma bind_keeps (events : list EventDescriptor) (this : WebSocketServer) :
  let bound :=
    fold_left (fun ws event =>
                 on (name (options event)) (EventListener event) ws)
              events this in
  ws_server bound = ws_server this /\ ws_options bound = ws_options this.
Proof.
  revert this. induction events as [|event events IH]; intros this; simpl;
    [auto|].
  destruct (IH (on (name (options event)) (EventListener event) this))
    as [Hs Ho].
  simpl in *. auto.
Qed.

Lemma addsOnly_loadEvents : addsOnly loadEvents.
Proof.
  intros ws. unfold loadEvents.
  destruct (bind_listeners (ws_events ws) ws) as [Hl He].
  destruct (bind_keeps (ws_events ws) ws) as [Hs Ho].
  cbv zeta in *. split; [exact Hs|]. split; [exact Ho|]. split.
  - exists []. now rewrite app_nil_r.
  - eauto.
Qed.

Lemma addsOnly_connect cb : addsOnly (connect cb).
Proof.
  intros ws. unfold connect, on. simpl. repeat split; eauto.
  exists []. now rewrite app_nil_r.
Qed.

Create HintDb instance.

#[local] Hint Resolve instanceGrows_modifyApp instanceGrows_newObject
  instanceGrows_callWs instanceGrows_getInstance addsOnly_register
  addsOnly_loadEvents addsOnly_connect : instance.

Ltac unfold_api :=
  unfold setWebSocketServerOptions, address, getHttpServerInstance, listen,
    listenAsync, initializeWebSocketServer, eventsDirectory, onStart, refresh,
    close, use, setBaseUrl, routesDirectory, route, getRoute, createRoute,
    onInstance, getServer, loadRoutes, listen, getServer, loadRoutes,
    addLayer, serverListen.

Lemma instanceGrows_exec env op : respects instanceGrows (exec env op).
Proof.
  destruct op; cbn [exec]; unfold_api;
    respects_by ltac:(solve [auto with instance nocore]).
Qed.

Lemma instanceGrows_run env ops w : instanceGrows w (fst (run env ops w)).
Proof.
  revert w. induction ops as [|op ops IH]; intros w; simpl; [auto|].
  pose proof (instanceGrows_exec env op w) as H. unfold world in H.
  destruct (exec env op w) as [[c w1] t1]. simpl in H.
  specialize (IH w1). destruct (run env ops w1) as [w2 t2]. simpl in *.
  eauto.
Qed.

(** X9: the first [WebSocketServer.getInstance] wins.  Once there is an
    instance, whatever is called, it keeps its socket server and its
    options, its events and listeners are never removed or reordered, and
    [getInstance], with any argument and any options, returns it without
    making anything. *)
Theorem first_instance_wins (env : Env) (w : World) (ws : WebSocketServer)
    (ops : list Op) (httpServer : HttpServerValue)
    (options : option ServerOptions) :
  wsInstance w = Some ws ->
  let w' := fst (run env ops w) in
  (exists ws',
     wsInstance w' = Some ws' /\
     ws_server ws' = ws_server ws /\ ws_options ws' = ws_options ws /\
     (exists more, ws_events ws' = ws_events ws ++ more) /\
     (exists more, ws_listeners ws' = ws_listeners ws ++ more)) /\
  getInstance env httpServer options w' = (Normal TheWebSocketServer, w', []).
Proof.
  intros H w'.
  destruct (instance_kept _ _ (instanceGrows_run env ops w) ws H)
    as [ws' [H' Hrest]].
  fold w' in H'. split.
  - exists ws'. auto.
  - unfold getInstance, bind, getWs. simpl. now rewrite H'.
Qed.

Lemma first_instance_wins_witness :
  let w := fst (run twoFiles [WsGetInstance (Some 1)] initialWorld) in
  let w' := fst (run twoFiles
                   [WsGetInstance (Some 2);
                    WsRegister {| name := "chat"; enabled := true;
                                  payload := None |} [3];
                    SetWebSocketServerOptions (Some 3); WsLoadEvents] w) in
  (exists ws',
     wsInstance w' = Some ws' /\
     ws_server ws' = 1 /\ ws_options ws' = Some 1 /\
     (exists more, ws_events ws' = [] ++ more) /\
     (exists more, ws_listeners ws' = [] ++ more)) /\
  getInstance twoFiles TheHttpServer (Some 4) w' =
    (Normal TheWebSocketServer, w', []).
Proof.
  intros w.
  apply (first_instance_wins twoFiles w
           {| ws_server := 1; ws_options := Some 1; ws_events := [];
              ws_listeners := [] |}
           [WsGetInstance (Some 2);
            WsRegister {| name := "chat"; enabled := true;
                          payload := None |} [3];
            SetWebSocketServerOptions (Some 3); WsLoadEvents]
           TheHttpServer (Some 4)).
  reflexivity.
Defined.

(** X10: with the WebSocket switch on and no instance made yet,
    [listenAsync] on a server not started throws.  No port is bound, no
    instance is made, [websocketServer] stays as it was, and the server
    counts as started.  When the startup callbacks all succeed and express
    takes every router still to be mounted, the error is that of
    [getInstance]: it is handed the node server, and its constructor calls
    [getServer()] on it. *)
Theorem listenAsync_cannot_make_instance (env : Env) (w : World) (port : Port)
    (callback : Callback) :
  isStarted (app w) = false ->
  startWebSocketServer (app w) = true ->
  wsInstance w = None ->
  let w' := world (listenAsync env port callback w) in
  (exists e, result (listenAsync env port callback w) = Throw e /\
     (firstFailure env (startupCallbacks (app w)) = None ->
      mountFailure env w = None ->
      e = notAFunction "httpServer.getServer")) /\
  filter isServerListen (trace (listenAsync env port callback w)) = [] /\
  wsInstance w' = None /\
  websocketServer (app w') = websocketServer (app w) /\
  isStarted (app w') = true.
Proof.
  intros Hst Hsw Hws.
  unfold listenAsync, initializeWebSocketServer, getInstance, bind, getApp,
    getWs, result, trace, world, mountFailure.
  simpl. rewrite Hst. simpl. rewrite callAll_run. simpl.
  destruct (firstFailure env (startupCallbacks (app w))) as [e|]; simpl.
  { rewrite app_nil_r, no_listen_in_calls. repeat split; auto.
    eexists. split; [reflexivity|]. discriminate. }
  rewrite loadRoutes_run. simpl.
  destruct (snd (mountPending env (baseUrl (app w)) (routers (app w))))
    as [e|]; simpl.
  { rewrite app_nil_r, no_listen_in_calls. repeat split; auto.
    eexists. split; [reflexivity|]. discriminate. }
  rewrite Hsw. simpl. rewrite Hws. simpl.
  rewrite filter_app, no_listen_in_calls. repeat split; auto.
  eexists. split; reflexivity.
Qed.

Lemma listenAsync_cannot_make_instance_witness :
  let w' := world (listenAsync twoFiles 3000 7 switchedOn) in
  (exists e, result (listenAsync twoFiles 3000 7 switchedOn) = Throw e /\
     (firstFailure twoFiles (startupCallbacks (app switchedOn)) = None ->
      mountFailure twoFiles switchedOn = None ->
      e = notAFunction "httpServer.getServer")) /\
  filter isServerListen (trace (listenAsync twoFiles 3000 7 switchedOn)) = [] /\
  wsInstance w' = None /\
  websocketServer (app w') = websocketServer (app switchedOn) /\
  isStarted (app w') = true.
Proof.
  apply (listenAsync_cannot_make_instance twoFiles switchedOn 3000 7);
    reflexivity.
Defined.

(** X11: [loadEvents] has no memory of what it bound: run twice, it binds
    a listener for every stored descriptor twice. *)
Theorem loadEvents_twice_binds_twice (this : WebSocketServer) :
  let bound :=
    map (fun event => (name (options event), EventListener event))
        (ws_events this) in
  ws_listeners (loadEvents (loadEvents this)) =
    ws_listeners this ++ bound ++ bound /\
  ws_events (loadEvents (loadEvents this)) = ws_events this.
Proof.
  intros bound.
  assert (He : ws_events (loadEvents this) = ws_events this)
    by apply (bind_listeners (ws_events this) this).
  split.
  - rewrite !loadEvents_listeners, He. now rewrite app_assoc.
  - transitivity (ws_events (loadEvents this)); [|exact He].
    apply (bind_listeners (ws_events (loadEvents this)) (loadEvents this)).
Qed.

(** ** Who binds event listeners *)

Lemma sameBound_refl (w : World) : sameBound w w.
Proof. reflexivity. Qed.

Lemma sameBound_trans (a b c : World) :
  sameBound a b -> sameBound b c -> sameBound a c.
Proof. unfold sameBound. congruence. Qed.

#[local] Hint Resolve sameBound_refl sameBound_trans : core.

Lemma sameBound_modifyApp f : respects sameBound (modifyApp f).
Proof. intros w. reflexivity. Qed.

Lemma sameBound_newObject : respects sameBound newObject.
Proof. intros w. reflexivity. Qed.

Lemma sameBound_callWs method f :
  (forall ws, filter isEventListener (ws_listeners (f ws)) =
              filter isEventListener (ws_listeners ws)) ->
  respects sameBound (callWs method f).
Proof.
  intros Hf w. unfold callWs, bind, getWs, world, sameBound, boundEvents.
  simpl. destruct (wsInstance w) as [ws|] eqn:E; simpl; [apply Hf|].
  now rewrite E.
Qed.

Lemma sameBound_getInstance env httpServer options :
  respects sameBound (getInstance env httpServer options).
Proof.
  intros w.
  unfold getInstance, getServer, bind, getWs, world, sameBound, boundEvents.
  simpl. destruct (wsInstance w) as [ws|] eqn:E; simpl.
  - now rewrite E.
  - destruct httpServer; simpl; [|now rewrite E].
    rewrite loadRoutes_run.
    destruct (snd (mountPending env (baseUrl (app w)) (routers (app w))));
      simpl; [now rewrite E|reflexivity].
Qed.

Lemma register_binds_nothing options callbacks ws :
  filter isEventListener (ws_listeners (register options callbacks ws)) =
  filter isEventListener (ws_listeners ws).
Proof. unfold register. now destruct (enabled options). Qed.

Lemma connect_binds_no_event cb ws :
  filter isEventListener (ws_listeners (connect cb ws)) =
  filter isEventListener (ws_listeners ws).
Proof.
  unfold connect, on. simpl. rewrite filter_app. simpl. apply app_nil_r.
Qed.

Create HintDb bound.

#[local] Hint Resolve sameBound_modifyApp sameBound_newObject
  sameBound_callWs sameBound_getInstance register_binds_nothing
  connect_binds_no_event : bound.

Lemma sameBound_exec env op :
  isLoadEvents op = false -> respects sameBound (exec env op).
Proof.
  destruct op; cbn [exec isLoadEvents]; intros Hop; try discriminate;
    unfold_api; respects_by ltac:(solve [auto with bound nocore]).
Qed.

(** X12: only [loadEvents] and [loadEventsAsync] bind listeners for
    registered events.  Over any calls that are neither, [listen] and
    [listenAsync] included, the listeners bound for events are what they
    were: a server start binds none of the events registered. *)
Theorem only_loadEvents_binds_events (env : Env) (ops : list Op) (w : World) :
  forallb (fun op => negb (isLoadEvents op)) ops = true ->
  boundEvents (fst (run env ops w)) = boundEvents w.
Proof.
  revert w. induction ops as [|op ops IH]; intros w Hops; simpl; [auto|].
  simpl in Hops. apply andb_prop in Hops. destruct Hops as [Hop Hops].
  apply negb_true_iff in Hop.
  pose proof (sameBound_exec env op Hop w) as H. unfold world in H.
  destruct (exec env op w) as [[c w1] t1]. simpl in H.
  specialize (IH w1 Hops). destruct (run env ops w1) as [w2 t2]. simpl in *.
  unfold sameBound in H. congruence.
Qed.

Lemma only_loadEvents_binds_events_witness :
  boundEvents
    (fst (run twoFiles
            [SetWebSocketServerOptions None;
             WsRegister {| name := "chat"; enabled := true;
                           payload := None |} [3];
             ListenAsync 3000 7; WsConnect 8]
            initialWorld)) = boundEvents initialWorld.
Proof.
  apply (only_loadEvents_binds_events twoFiles
           [SetWebSocketServerOptions None;
            WsRegister {| name := "chat"; enabled := true;
                          payload := None |} [3];
            ListenAsync 3000 7; WsConnect 8]
           initialWorld).
  reflexivity.
Defined.

(** In that run [listenAsync] completes and the [chat] event is stored; the
    only listener on the socket server is the one for [connection]. *)
Example chat_registered_not_bound :
  let w := fst (run twoFiles
                  [SetWebSocketServerOptions None;
                   WsRegister {| name := "chat"; enabled := true;
                                 payload := None |} [3];
                   ListenAsync 3000 7]
                  initialWorld) in
  option_map (fun ws => (map (fun e => name (options e)) (ws_events ws),
                         map fst (ws_listeners ws)))
             (wsInstance w) = Some (["chat"], ["connection"]) /\
  addressInfo (app w) =
    Some (Some {| address_server := 2; address_port := 3000 |}).
Proof. split; vm_compute; reflexivity. Qed.

(** ** Loading a directory *)

Lemma world_bind {A B} (m : M A) (k : A -> M B) (w : World) :
  world (bind m k w) =
  match result (m w) with
  | Normal a => world (k a (world (m w)))
  | Throw _ => world (m w)
  end.
Proof.
  unfold bind, world, result. destruct (m w) as [[[a|e] w1] t1]; simpl; auto.
  now destruct (k a w1) as [[c w2] t2].
Qed.

Lemma result_bind {A B} (m : M A) (k : A -> M B) (w : World) :
  result (bind m k w) =
  match result (m w) with
  | Normal a => result (k a (world (m w)))
  | Throw e => Throw e
  end.
Proof.
  unfold bind, world, result. destruct (m w) as [[[a|e] w1] t1]; simpl; auto.
  now destruct (k a w1) as [[c w2] t2].
Qed.

Lemma trace_bind {A B} (m : M A) (k : A -> M B) (w : World) :
  trace (bind m k w) =
  trace (m w) ++
  match result (m w) with
  | Normal a => trace (k a (world (m w)))
  | Throw _ => []
  end.
Proof.
  unfold bind, world, result, trace.
  destruct (m w) as [[[a|e] w1] t1]; simpl; auto using app_nil_r.
  now destruct (k a w1) as [[c w2] t2].
Qed.

(** One turn of the loop, for a file whose import does not reject. *)
Lemma loadFiles_step env path target f files w :
  importDefault env (resolve env path f) <> None ->
  result (loadFiles env path target (f :: files) w) =
    result (loadFiles env path target files w) /\
  trace (loadFiles env path target (f :: files) w) =
    ImportModule (resolve env path f) ::
    (if isFunctionExport env path f
     then [SetupCall (resolve env path f) target] else []) ++
    trace (loadFiles env path target files w).
Proof.
  intros Hok. simpl.
  unfold isFunctionExport, bind, emit, ret, throw, result, trace. simpl.
  destruct (importDefault env (resolve env path f)) as [[|]|];
    [| |contradiction]; simpl;
    destruct (loadFiles env path target files w) as [[c w'] t]; auto.
Qed.

(** X13: the loop of the directory loaders, when every import succeeds: it
    completes; it imports every file of the listing, in order, whatever its
    name; it calls the setup of exactly the modules whose default export is
    a function, in order, and passes over the others in silence. *)
Theorem loader_imports_all_and_skips_softly (env : Env) (path : string)
    (target : SetupTarget) (files : list string) (w : World) :
  (forall f, In f files -> importDefault env (resolve env path f) <> None) ->
  result (loadFiles env path target files w) = Normal tt /\
  filter isImportModule (trace (loadFiles env path target files w)) =
    map (fun f => ImportModule (resolve env path f)) files /\
  filter isSetupCall (trace (loadFiles env path target files w)) =
    map (fun f => SetupCall (resolve env path f) target)
        (filter (isFunctionExport env path) files).
Proof.
  induction files as [|f files IH]; intros H; [repeat split|].
  destruct IH as [IHr [IHi IHs]]; [intros x Hx; apply H; now right|].
  destruct (loadFiles_step env path target f files w) as [Hr Ht];
    [apply H; now left|].
  rewrite Hr, Ht. split; [exact IHr|].
  destruct (isFunctionExport env path f) eqn:E; simpl; rewrite E;
    simpl; rewrite IHi, IHs; auto.
Qed.

Lemma loader_imports_all_and_skips_softly_witness :
  let env :=
    {| expressUse := fun _ => None;
       osBind := fun port => Some port;
       rejectedAt := fun _ => 0;
       readdirSync := fun _ => Some ["a.ts"; "notes.md"; "b.spec.ts"];
       resolve := fun path fileName => (path ++ "/" ++ fileName)%string;
       importDefault := fun filePath =>
         if String.eqb filePath "r/notes.md" then Some ExportOther
         else Some ExportFunction;
       callbackFailure := fun _ => None |} in
  let files := ["a.ts"; "notes.md"; "b.spec.ts"] in
  result (loadFiles env "r" ToEventHandler files initialWorld) = Normal tt /\
  filter isImportModule (trace (loadFiles env "r" ToEventHandler files
                                          initialWorld)) =
    map (fun f => ImportModule (resolve env "r" f)) files /\
  filter isSetupCall (trace (loadFiles env "r" ToEventHandler files
                                       initialWorld)) =
    map (fun f => SetupCall (resolve env "r" f) ToEventHandler)
        (filter (isFunctionExport env "r") files).
Proof.
  intros env files.
  apply (loader_imports_all_and_skips_softly env "r" ToEventHandler files
           initialWorld).
  intros f [<-|[<-|[<-|[]]]]; discriminate.
Defined.

Lemma loadFiles_rejected env path target before f after w :
  (forall x, In x before -> importDefault env (resolve env path x) <> None) ->
  importDefault env (resolve env path f) = None ->
  result (loadFiles env path target (before ++ f :: after) w) =
    Throw (Js.Rejected (resolve env path f)) /\
  filter isImportModule
    (trace (loadFiles env path target (before ++ f :: after) w)) =
    map (fun x => ImportModule (resolve env path x)) (before ++ [f]).
Proof.
  intros Hb Hf. induction before as [|b before IH].
  - simpl.
    unfold bind, emit, throw, result, trace. simpl. rewrite Hf. simpl. auto.
  - destruct IH as [IHr IHt]; [intros x Hx; apply Hb; now right|].
    destruct (loadFiles_step env path target b (before ++ f :: after) w)
      as [Hr Ht]; [apply Hb; now left|].
    rewrite <- !app_comm_cons. rewrite Hr, Ht. split; [exact IHr|].
    destruct (isFunctionExport env path b); simpl; now rewrite IHt.
Qed.

(** The entry [routesDirectory] makes when it is given no route. *)
Lemma routesDirectory_world env path arg1 args files w :
  readdirSync env path = Some files ->
  (forall r, arg1 <> RouteHandle r) ->
  let hiddenEntry :=
    {| entry_path := Some "";
       entry_baseUrl :=
         Some (match arg1 with BaseUrlArg s => s | _ => baseUrl (app w) end);
       entry_router := nextObject w; entry_loaded := false;
       entry_hidden := true |} in
  exists w0,
    routers (app w0) = routers (app w) ++ [hiddenEntry] /\
    express (app w0) = express (app w) /\
    nextObject w0 = S (nextObject w) /\
    isStarted (app w0) = isStarted (app w) /\
    result (routesDirectory env path arg1 args w) =
      match result (loadFiles env path (ToRoute (nextObject w)) files w0) with
      | Normal _ => result (loadRoutes env w0)
      | Throw e => Throw e
      end /\
    world (routesDirectory env path arg1 args w) =
      match result (loadFiles env path (ToRoute (nextObject w)) files w0) with
      | Normal _ => world (loadRoutes env w0)
      | Throw _ => w0
      end /\
    trace (routesDirectory env path arg1 args w) =
      match (match arg1 with MiddlewareArg m => m :: args | _ => args end) with
      | [] => []
      | ms => [RouteUse (nextObject w) ms]
      end ++ trace (loadFiles env path (ToRoute (nextObject w)) files w0).
Proof.
  intros Hread Harg hiddenEntry.
  exists (world (createRoute (Some "")
                   (Some (match arg1 with
                          | BaseUrlArg s => s
                          | _ => baseUrl (app w)
                          end)) (Some true) w)).
  split; [reflexivity|]. split; [reflexivity|]. split; [reflexivity|].
  split; [reflexivity|].
  unfold routesDirectory, readdir, createRoute, bind, getApp, newObject,
    modifyApp, emit, ret, result, world, trace.
  rewrite Hread.
  destruct arg1 as [|s|m|r]; [| | |now destruct (Harg r)]; simpl;
    try destruct args; simpl;
    match goal with
    | |- context [loadFiles ?e ?p ?t ?f ?x] =>
        pose proof (loadFiles_world e p t f x) as Hw; unfold world in Hw;
        destruct (loadFiles e p t f x) as [[[u|err] w'] tr];
        simpl in *; subst; rewrite ?loadRoutes_run; simpl;
        rewrite ?app_nil_r; repeat split; reflexivity
    end.
Qed.

Lemma import_in_use (r : Router) (ms : list Middleware) (t : list Event) :
  filter isImportModule
    (match ms with [] => [] | m :: l => [RouteUse r (m :: l)] end ++ t) =
  filter isImportModule t.
Proof. now destruct ms. Qed.

(** X14: how [routesDirectory] fails.  If the directory cannot be read it
    throws before it makes a route: the world is as it was.  If a module
    cannot be imported it throws that rejection; no later file is imported,
    [loadRoutes] is not run, and the hidden route it made stays in the
    registry unflagged, with the express application as it was. *)
Theorem routesDirectory_failures (env : Env) (path : string)
    (arg1 : DirectoryArg) (args : list Middleware) (w : World) :
  (readdirSync env path = None ->
   exists e, routesDirectory env path arg1 args w = (Throw e, w, [])) /\
  (forall before f after,
     readdirSync env path = Some (before ++ f :: after) ->
     (forall r, arg1 <> RouteHandle r) ->
     (forall x, In x before ->
        importDefault env (resolve env path x) <> None) ->
     importDefault env (resolve env path f) = None ->
     let w' := world (routesDirectory env path arg1 args w) in
     result (routesDirectory env path arg1 args w) =
       Throw (Js.Rejected (resolve env path f)) /\
     filter isImportModule (trace (routesDirectory env path arg1 args w)) =
       map (fun x => ImportModule (resolve env path x)) (before ++ [f]) /\
     routers (app w') =
       routers (app w) ++
       [{| entry_path := Some "";
           entry_baseUrl :=
             Some (match arg1 with
                   | BaseUrlArg s => s
                   | _ => baseUrl (app w)
                   end);
           entry_router := nextObject w; entry_loaded := false;
           entry_hidden := true |}] /\
     express (app w') = express (app w)).
Proof.
  split.
  - intros Hread. eexists.
    unfold routesDirectory, readdir, bind, getApp. simpl. rewrite Hread.
    reflexivity.
  - intros before f after Hread Harg Hbefore Hf w'.
    destruct (routesDirectory_world env path arg1 args _ w Hread Harg)
      as [w0 [Hr [He [_ [_ [Hres [Hw Ht]]]]]]].
    destruct (loadFiles_rejected env path (ToRoute (nextObject w))
                before f after w0 Hbefore Hf) as [Hrej Himp].
    subst w'. rewrite Hres, Hw, Ht, Hrej, import_in_use, Himp.
    repeat split; assumption.
Qed.

Lemma routesDirectory_failures_witness :
  (exists e, routesDirectory nothingReadable "routes" NoArg [] initialWorld =
             (Throw e, initialWorld, [])) /\
  (let w' := world (routesDirectory brokenSecond "routes" NoArg [9]
                      initialWorld) in
   result (routesDirectory brokenSecond "routes" NoArg [9] initialWorld) =
     Throw (Js.Rejected (resolve brokenSecond "routes" "b.ts")) /\
   filter isImportModule
     (trace (routesDirectory brokenSecond "routes" NoArg [9] initialWorld)) =
     map (fun x => ImportModule (resolve brokenSecond "routes" x))
         (["a.ts"] ++ ["b.ts"]) /\
   routers (app w') =
     routers (app initialWorld) ++
     [{| entry_path := Some "";
         entry_baseUrl := Some (baseUrl (app initialWorld));
         entry_router := nextObject initialWorld; entry_loaded := false;
         entry_hidden := true |}] /\
   express (app w') = express (app initialWorld)).
Proof.
  split.
  - apply (proj1 (routesDirectory_failures nothingReadable "routes" NoArg []
                    initialWorld)).
    reflexivity.
  - apply (proj2 (routesDirectory_failures brokenSecond "routes" NoArg [9]
                    initialWorld) ["a.ts"] "b.ts" ["c.ts"]).
    + reflexivity.
    + discriminate.
    + intros x [<-|[]]. discriminate.
    + reflexivity.
Defined.

(** ** The router of a directory *)

Lemma loadFiles_target env path target files w f t :
  In (SetupCall f t) (trace (loadFiles env path target files w)) -> t = target.
Proof.
  induction files as [|x files IH]; [intros []|].
  simpl. unfold bind, emit, ret, throw, trace in *. simpl.
  destruct (importDefault env (resolve env path x)) as [[|]|]; simpl;
    try (intros [H|[]]; discriminate);
    destruct (loadFiles env path target files w) as [[c w'] tr]; simpl in *.
  - intros [H|[H|H]]; try discriminate; [now inversion H|auto].
  - intros [H|H]; [discriminate|auto].
Qed.

Lemma hidden_stays (l l' : list RouterEntry) (r : Router) :
  extends l l' ->
  (exists e, In e l /\ entry_router e = r /\ entry_hidden e = true) ->
  exists e', In e' l' /\ entry_router e' = r /\ entry_hidden e' = true.
Proof.
  intros Hext [e [Hin [Hr Hh]]].
  destruct (extends_in _ _ _ Hext Hin) as [e' [Hin' Hstep]].
  exists e'. split; [exact Hin'|].
  rewrite (step_router _ _ Hstep), (step_hidden _ _ Hstep). auto.
Qed.

Lemma found_is_not_hidden (w : World) (path baseUrl : option string)
    (e : RouterEntry) (r : Router) :
  wf w ->
  find (isRoute path baseUrl) (routers (app w)) = Some e ->
  (exists h, In h (routers (app w)) /\ entry_router h = r /\
             entry_hidden h = true) ->
  entry_router e <> r.
Proof.
  intros Hwf Hf [h [Hin [Hr Hh]]] Heq.
  apply find_some in Hf. destruct Hf as [Hine He].
  apply isRoute_true in He. destruct He as [_ [_ Hnh]].
  assert (e = h)
    by (apply (NoDup_map_eq entry_router _ _ _ (wf_nodup _ Hwf));
        congruence).
  subst h. congruence.
Qed.

(** X15: the router [routesDirectory] makes for a directory, and hands to
    every setup it calls, is out of reach afterwards: whatever is called
    next, no [route] and no [getRoute] answers with it. *)
Theorem directory_router_out_of_reach (env : Env) (path : string)
    (arg1 : DirectoryArg) (args : list Middleware) (files : list string)
    (w : World) :
  reachable env w ->
  readdirSync env path = Some files ->
  (forall r, arg1 <> RouteHandle r) ->
  let w1 := world (routesDirectory env path arg1 args w) in
  (forall f t, In (SetupCall f t) (trace (routesDirectory env path arg1 args w)) ->
               t = ToRoute (nextObject w)) /\
  (forall ops a1 a2 r,
     result (route a1 a2 (fst (run env ops w1))) = Normal r ->
     route_router r <> nextObject w) /\
  (forall ops p b r,
     result (getRoute p b (fst (run env ops w1))) = Normal (Some r) ->
     route_router r <> nextObject w).
Proof.
  intros Hreach Hread Harg w1.
  pose proof (wf_reachable env w Hreach) as Hwf.
  destruct (routesDirectory_world env path arg1 args files w Hread Harg)
    as [w0 [Hr [He [_ [_ [_ [Hw Ht]]]]]]].
  assert (Hwf1 : wf w1) by apply (wf_exec env (RoutesDirectory path arg1 args) w Hwf).
  assert (Hh1 : exists h, In h (routers (app w1)) /\
                          entry_router h = nextObject w /\
                          entry_hidden h = true).
  { apply (hidden_stays (routers (app w0))).
    - subst w1. rewrite Hw.
      destruct (result (loadFiles env path (ToRoute (nextObject w)) files w0)).
      + apply (grows_routers _ _ (grows_loadRoutes env w0)).
      + apply extends_refl.
    - eexists. split; [rewrite Hr; apply in_or_app; right; left; reflexivity|].
      auto. }
  assert (Hh2 : forall ops, exists h,
             In h (routers (app (fst (run env ops w1)))) /\
             entry_router h = nextObject w /\ entry_hidden h = true).
  { intros ops. apply (hidden_stays (routers (app w1))); [|exact Hh1].
    apply (grows_routers _ _ (grows_run env ops w1)). }
  split; [|split].
  - intros f t Hin. rewrite Ht in Hin. apply in_app_or in Hin.
    destruct Hin as [Hin|Hin].
    + destruct (match arg1 with MiddlewareArg m => m :: args | _ => args end);
        [destruct Hin|destruct Hin as [Hin|[]]; discriminate].
    + now apply loadFiles_target in Hin.
  - intros ops a1 a2 r Hres.
    set (w2 := fst (run env ops w1)) in *.
    destruct (route_entry a1 a2 w2) as [e [Hre Hf]].
    rewrite Hre in Hres. inversion Hres; subst r. simpl.
    eapply (found_is_not_hidden (world (route a1 a2 w2))).
    + apply wf_route, wf_run, Hwf1.
    + exact Hf.
    + apply (hidden_stays (routers (app w2))); [|apply Hh2].
      apply (grows_routers _ _ (grows_route a1 a2 w2)).
  - intros ops p b r Hres.
    destruct (getRoute_entry _ _ _ _ Hres) as [e [Hf ->]]. simpl.
    eapply (found_is_not_hidden (fst (run env ops w1)) p b e).
    + apply wf_run, Hwf1.
    + exact Hf.
    + apply Hh2.
Qed.

Lemma directory_router_out_of_reach_witness :
  let w1 := world (routesDirectory twoFiles "routes" (BaseUrlArg "/v2") [9]
                     someRoutes) in
  (forall f t,
     In (SetupCall f t)
        (trace (routesDirectory twoFiles "routes" (BaseUrlArg "/v2") [9]
                  someRoutes)) ->
     t = ToRoute (nextObject someRoutes)) /\
  (forall ops a1 a2 r,
     result (route a1 a2 (fst (run twoFiles ops w1))) = Normal r ->
     route_router r <> nextObject someRoutes) /\
  (forall ops p b r,
     result (getRoute p b (fst (run twoFiles ops w1))) = Normal (Some r) ->
     route_router r <> nextObject someRoutes).
Proof.
  apply (directory_router_out_of_reach twoFiles "routes" (BaseUrlArg "/v2")
           [9] ["health.ts"; "foo.spec.ts"] someRoutes).
  - exists [RoutesDirectory "routes" NoArg [];
            RouteCall (PathArg (Some "health")) None].
    reflexivity.
  - reflexivity.
  - discriminate.
Defined.

(** ** The base URL of a route *)

(** With the entries in front all flagged, the loop of [loadRoutes] has
    the ones behind to do. *)
Lemma mountPending_app_loaded (env : Env) (base : string)
    (l more : list RouterEntry) :
  (forall e, In e l -> entry_loaded e = true) ->
  mountPending env base (l ++ more) =
    (l ++ fst (fst (mountPending env base more)),
     snd (fst (mountPending env base more)),
     snd (mountPending env base more)).
Proof.
  induction l as [|a l IH]; intros H; simpl.
  - now destruct (mountPending env base more) as [[l' layers] failure].
  - rewrite (H a) by now left.
    rewrite IH by (intros e He; apply H; now right). reflexivity.
Qed.

(** X16: a route made without a base URL of its own takes the server's
    base URL when it is mounted, not when it is made.  On a server not
    started, with nothing left to mount, [route(path)] for a new pair,
    then [setBaseUrl(url)], then [loadRoutes] hand express the new router
    at [url/path], slashes collapsed: if express takes that mount path the
    router is mounted there and [loadRoutes] completes; if it refuses it,
    [loadRoutes] throws what express throws and nothing is mounted.  Either
    way the base URL is [url]. *)
Theorem base_url_is_read_at_mount_time (env : Env) (w : World)
    (path url : string) :
  isStarted (app w) = false ->
  (forall e, In e (routers (app w)) -> entry_loaded e = true) ->
  find (isRoute (Some path) None) (routers (app w)) = None ->
  let calls := route (PathArg (Some path)) None;;
               setBaseUrl url;; loadRoutes env in
  let mountAt := Js.collapseSlashes (url ++ "/" ++ path)%string in
  baseUrl (app (world (calls w))) = url /\
  (expressUse env mountAt = None ->
   result (calls w) = Normal tt /\
   express (app (world (calls w))) =
     express (app w) ++ [RouterLayer mountAt (nextObject w)]) /\
  (forall e, expressUse env mountAt = Some e ->
   result (calls w) = Throw e /\
   express (app (world (calls w))) = express (app w)).
Proof.
  intros Hst Hloaded Hfind calls mountAt. subst calls mountAt.
  unfold route, routeOptions, getRoute, createRoute, setBaseUrl,
    bind, getApp, newObject, modifyApp, ret, world, result.
  simpl. rewrite Hfind. simpl. rewrite Hst. simpl.
  rewrite loadRoutes_run. simpl.
  rewrite mountPending_app_loaded by assumption. simpl.
  unfold mountUrl. simpl.
  destruct (expressUse env (Js.collapseSlashes (url ++ String "/" path)))
    as [e0|]; simpl.
  - split; [reflexivity|]. split; [discriminate|].
    intros e He. inversion He; subst. split; [reflexivity|].
    apply app_nil_r.
  - split; [reflexivity|]. split; [auto|]. discriminate.
Qed.

Lemma base_url_is_read_at_mount_time_witness :
  let w := world (getServer twoFiles someRoutes) in
  let calls := route (PathArg (Some "users")) None;;
               setBaseUrl "/api/v1";; loadRoutes twoFiles in
  let mountAt := Js.collapseSlashes ("/api/v1" ++ "/" ++ "users")%string in
  baseUrl (app (world (calls w))) = "/api/v1" /\
  (expressUse twoFiles mountAt = None ->
   result (calls w) = Normal tt /\
   express (app (world (calls w))) =
     express (app w) ++ [RouterLayer mountAt (nextObject w)]) /\
  (forall e, expressUse twoFiles mountAt = Some e ->
   result (calls w) = Throw e /\
   express (app (world (calls w))) = express (app w)).
Proof.
  intros w.
  apply (base_url_is_read_at_mount_time twoFiles w "users" "/api/v1").
  - reflexivity.
  - intros e [<-|[<-|[]]]; reflexivity.
  - reflexivity.
Defined.

(** The same calls where express cannot compile the mount path. *)
Example unbalanced_route_is_not_mounted :
  let calls := route (PathArg (Some "(")) None;;
               setBaseUrl "/";; loadRoutes unbalancedPath in
  result (calls initialWorld) = Throw (Js.SyntaxError "Unterminated group") /\
  express (app (world (calls initialWorld))) = [SharedStateInitializer].
Proof. split; reflexivity. Qed.
(** ** The shared state *)

Lemma get_update_same (key : string) (v : Json) (obj : list (string * Json)) :
  get key obj <> None -> get key (update key v obj) = Some v.
Proof.
  induction obj as [|[k old] obj IH]; simpl; [congruence|].
  destruct (String.eqb k key) eqn:E; simpl; rewrite E; auto.
Qed.

Lemma get_update_other (key key' : string) (v : Json)
    (obj : list (string * Json)) :
  key' <> key -> get key' (update key v obj) = get key' obj.
Proof.
  intros Hne. induction obj as [|[k old] obj IH]; simpl; [reflexivity|].
  destruct (String.eqb_spec k key) as [->|Hk]; simpl.
  - destruct (String.eqb_spec key key'); congruence.
  - now rewrite IH.
Qed.

Lemma update_unchanged (key : string) (v : Json) (obj : list (string * Json)) :
  get key obj = Some v -> update key v obj = obj.
Proof.
  induction obj as [|[k old] obj IH]; simpl; [discriminate|].
  destruct (String.eqb_spec k key) as [->|Hk]; intros H.
  - now inversion H.
  - now rewrite IH.
Qed.

Lemma get_insertIndex_same (n : N) (key : string) (v : Json)
    (obj : list (string * Json)) :
  get key obj = None -> get key (insertIndex n key v obj) = Some v.
Proof.
  induction obj as [|[k x] obj IH]; simpl.
  - now rewrite String.eqb_refl.
  - destruct (String.eqb k key) eqn:E; [discriminate|]. intros H.
    destruct (arrayIndex k) as [m|]; [destruct (m <? n)%N|]; simpl;
      rewrite ?E, ?String.eqb_refl; auto.
Qed.

Lemma get_insertIndex_other (n : N) (key key' : string) (v : Json)
    (obj : list (string * Json)) :
  key' <> key -> get key' (insertIndex n key v obj) = get key' obj.
Proof.
  intros Hne.
  assert (Hk : String.eqb key key' = false)
    by (apply String.eqb_neq; congruence).
  induction obj as [|[k x] obj IH]; simpl; [now rewrite Hk|].
  destruct (arrayIndex k) as [m|]; [destruct (m <? n)%N|]; simpl;
    rewrite ?Hk, ?IH; reflexivity.
Qed.

Lemma get_app_new (key key' : string) (v : Json) (obj : list (string * Json)) :
  get key' (obj ++ [(key, v)]) =
  match get key' obj with
  | Some x => Some x
  | None => if String.eqb key key' then Some v else None
  end.
Proof.
  induction obj as [|[k x] obj IH]; simpl; [reflexivity|].
  now destruct (String.eqb k key').
Qed.

Lemma get_define_same (key : string) (v : Json) (obj : list (string * Json)) :
  get key obj = None -> get key (define key v obj) = Some v.
Proof.
  intros H. unfold define. destruct (arrayIndex key).
  - now apply get_insertIndex_same.
  - now rewrite get_app_new, H, String.eqb_refl.
Qed.

Lemma get_define_other (key key' : string) (v : Json)
    (obj : list (string * Json)) :
  key' <> key -> get key' (define key v obj) = get key' obj.
Proof.
  intros Hne. unfold define. destruct (arrayIndex key).
  - now apply get_insertIndex_other.
  - rewrite get_app_new. destruct (get key' obj); [reflexivity|].
    destruct (String.eqb_spec key key'); congruence.
Qed.

(** An assignment to a key other than [__proto__] gives the bag that
    property. *)
Lemma get_assign_same (key : string) (v : Json) (bag : Bag) :
  key <> "__proto__" -> get key (own (assign key v bag)) = Some v.
Proof.
  intros Hne. unfold assign.
  destruct (get key (own bag)) eqn:E; simpl.
  - apply get_update_same. congruence.
  - destruct (String.eqb_spec key "__proto__"); [contradiction|]. simpl.
    now apply get_define_same.
Qed.

(** An assignment leaves the other properties as they are. *)
Lemma get_assign_other (key key' : string) (v : Json) (bag : Bag) :
  key' <> key -> get key' (own (assign key v bag)) = get key' (own bag).
Proof.
  intros Hne. unfold assign.
  destruct (get key (own bag)); simpl.
  - now apply get_update_other.
  - destruct (String.eqb key "__proto__" && inheritsProtoSetter (prototype bag))%bool;
      simpl; [reflexivity|now apply get_define_other].
Qed.

Lemma prototype_assign (key : string) (v : Json) (bag : Bag) :
  key <> "__proto__" -> prototype (assign key v bag) = prototype bag.
Proof.
  intros Hne. unfold assign. destruct (get key (own bag)); [reflexivity|].
  destruct (String.eqb_spec key "__proto__"); [contradiction|reflexivity].
Qed.

Lemma assign_unchanged (key : string) (v : Json) (bag : Bag) :
  get key (own bag) = Some v -> assign key v bag = bag.
Proof.
  intros H. unfold assign. rewrite H, update_unchanged by exact H.
  now destruct bag.
Qed.

(** The loop with its guard evaluated: every key is a string. *)
Lemma setState_fold (state : Json) (bag : Bag) :
  setState state bag =
  fold_left (fun bag entry => assign (fst entry) (snd entry) bag)
            (forIn state) bag.
Proof. reflexivity. Qed.

Lemma fold_assign_get (key : string) (v : Json)
    (entries : list (string * Json)) :
  key <> "__proto__" ->
  (forall entry, In entry entries -> fst entry = key -> snd entry = v) ->
  forall bag,
    get key (own (fold_left (fun bag entry => assign (fst entry) (snd entry) bag)
                            entries bag)) =
    if existsb (fun entry => String.eqb (fst entry) key) entries
    then Some v else get key (own bag).
Proof.
  intros Hne.
  induction entries as [|[k x] entries IH]; intros Hv bag; [reflexivity|].
  simpl. rewrite IH by (intros entry Hin; apply Hv; now right).
  destruct (existsb (fun entry => String.eqb (fst entry) key) entries);
    [now rewrite orb_true_r|].
  rewrite orb_false_r.
  destruct (String.eqb_spec k key) as [->|Hk].
  - rewrite get_assign_same by exact Hne.
    f_equal. apply (Hv (key, x)); [now left|reflexivity].
  - apply get_assign_other. congruence.
Qed.

(** Keys that are not assigned keep what they hold, [__proto__] and the
    prototype included. *)
Lemma fold_assign_untouched (key : string) (entries : list (string * Json)) :
  existsb (fun entry => String.eqb (fst entry) key) entries = false ->
  forall bag,
    get key (own (fold_left (fun bag entry => assign (fst entry) (snd entry) bag)
                            entries bag)) = get key (own bag).
Proof.
  induction entries as [|[k x] entries IH]; intros H bag; [reflexivity|].
  simpl in *. apply orb_false_iff in H. destruct H as [Hk H].
  rewrite IH by exact H. apply get_assign_other.
  apply String.eqb_neq in Hk. congruence.
Qed.

Lemma fold_assign_prototype (entries : list (string * Json)) :
  existsb (fun entry => String.eqb (fst entry) "__proto__") entries = false ->
  forall bag,
    prototype (fold_left (fun bag entry => assign (fst entry) (snd entry) bag)
                         entries bag) = prototype bag.
Proof.
  induction entries as [|[k x] entries IH]; intros H bag; [reflexivity|].
  simpl in *. apply orb_false_iff in H. destruct H as [Hk H].
  rewrite IH by exact H. apply prototype_assign.
  now apply String.eqb_neq in Hk.
Qed.

Lemma get_some_iff (key : string) (members : list (string * Json)) :
  existsb (fun member => String.eqb (fst member) key) members =
  match get key members with Some _ => true | None => false end.
Proof.
  induction members as [|[k x] members IH]; [reflexivity|].
  simpl. destruct (String.eqb k key); auto.
Qed.

Lemma In_insertIndex (n : N) (key : string) (v : Json)
    (obj : list (string * Json)) (entry : string * Json) :
  In entry (insertIndex n key v obj) -> entry = (key, v) \/ In entry obj.
Proof.
  induction obj as [|[k x] obj IH]; simpl.
  - intros [<-|[]]. now left.
  - destruct (arrayIndex k) as [m|]; [destruct (m <? n)%N|]; simpl;
      intros H; try (destruct H as [<-|H]; auto).
    destruct (IH H); auto.
Qed.

Lemma In_define (key : string) (v : Json) (obj : list (string * Json))
    (entry : string * Json) :
  In entry (define key v obj) -> entry = (key, v) \/ In entry obj.
Proof.
  unfold define. destruct (arrayIndex key).
  - apply In_insertIndex.
  - intros H. apply in_app_or in H. destruct H as [H|[<-|[]]]; auto.
Qed.

Section OwnProperties.

Variable members : list (string * Json).

(** What the enumeration holds for a key: what it held, or the object's
    value if the key is among the members gone through. *)
Lemma get_fold_step (key : string) (l seen : list (string * Json)) :
  get key (fold_left (visit members) l seen) =
    match get key seen with
    | Some x => Some x
    | None =>
        match get key l with
        | Some _ => Some (valueOf key members)
        | None => None
        end
    end.
Proof.
  revert seen. induction l as [|[k x] l IH]; intros seen; simpl.
  - now destruct (get key seen).
  - rewrite IH. unfold visit. simpl.
    destruct (get k seen) eqn:Ek.
    + destruct (get key seen) eqn:E; [reflexivity|].
      destruct (String.eqb_spec k key) as [->|Hne]; [congruence|reflexivity].
    + destruct (String.eqb_spec k key) as [->|Hne].
      * now rewrite get_define_same, Ek.
      * rewrite get_define_other by congruence. reflexivity.
Qed.

(** Every entry of the enumeration is there already or made from a
    member, with the object's value. *)
Lemma In_fold_step (entry : string * Json) (l seen : list (string * Json)) :
  In entry (fold_left (visit members) l seen) ->
  In entry seen \/
  (exists member, In member l /\ fst entry = fst member) /\
  snd entry = valueOf (fst entry) members.
Proof.
  revert seen. induction l as [|m l IH]; intros seen; simpl; [auto|].
  intros H. destruct (IH _ H) as [Hin|[[x [Hx Hk]] Hv]].
  - unfold visit in Hin. destruct (get (fst m) seen); [auto|].
    apply In_define in Hin. destruct Hin as [->|Hin]; [|auto].
    right. split; [exists m; auto|reflexivity].
  - right. split; [exists x; auto|exact Hv].
Qed.

End OwnProperties.

(** The enumeration of an object holds what the object holds. *)
Lemma get_forIn (key : string) (members : list (string * Json)) :
  get key (forIn (JObject members)) = get key members.
Proof.
  simpl. unfold ownProperties. rewrite get_fold_step. simpl.
  unfold valueOf. now destruct (get key members).
Qed.

Lemma forIn_object_keys (key : string) (members : list (string * Json)) :
  existsb (fun entry => String.eqb (fst entry) key) (forIn (JObject members)) =
  existsb (fun member => String.eqb (fst member) key) members.
Proof. now rewrite !get_some_iff, get_forIn. Qed.

(** A member of an object is a key the object has. *)
Lemma member_get (members : list (string * Json)) (member : string * Json) :
  In member members -> get (fst member) members <> None.
Proof.
  intros Hin E.
  assert (H : existsb (fun m => String.eqb (fst m) (fst member)) members = true).
  { apply existsb_exists. exists member. split; [exact Hin|].
    apply String.eqb_refl. }
  rewrite get_some_iff, E in H. discriminate.
Qed.

(** An entry of the enumeration is a key of the object with its value. *)
Lemma forIn_entry (members : list (string * Json)) (entry : string * Json) :
  In entry (forIn (JObject members)) ->
  get (fst entry) members = Some (snd entry).
Proof.
  intros Hin. simpl in Hin. unfold ownProperties in Hin.
  apply In_fold_step in Hin. destruct Hin as [[]|[[member [Hm Hk]] Hv]].
  pose proof (member_get members member Hm) as Hget.
  rewrite <- Hk in Hget. rewrite Hv. unfold valueOf.
  destruct (get (fst entry) members); [reflexivity|contradiction].
Qed.

Lemma forIn_object_values (key : string) (v : Json)
    (members : list (string * Json)) (entry : string * Json) :
  get key members = Some v ->
  In entry (forIn (JObject members)) -> fst entry = key -> snd entry = v.
Proof.
  intros Hget Hin Hk. apply forIn_entry in Hin. rewrite Hk in Hin. congruence.
Qed.

Lemma get_In (key : string) (v : Json) (obj : list (string * Json)) :
  get key obj = Some v -> In (key, v) obj.
Proof.
  induction obj as [|[k x] obj IH]; simpl; [discriminate|].
  destruct (String.eqb_spec k key) as [->|Hne]; intros H.
  - inversion H. now left.
  - right. auto.
Qed.

Lemma get_none (key : string) (obj : list (string * Json)) :
  get key obj = None -> ~ In key (map fst obj).
Proof.
  induction obj as [|[k x] obj IH]; simpl; [auto|].
  destruct (String.eqb_spec k key) as [->|Hne]; [discriminate|].
  intros H [Heq|Hin]; [contradiction|]. now apply IH.
Qed.

Lemma no_such_key (key : string) (obj : list (string * Json)) :
  ~ In key (map fst obj) ->
  existsb (fun entry => String.eqb (fst entry) key) obj = false.
Proof.
  intros H. destruct (existsb _ obj) eqn:E; [|reflexivity].
  apply existsb_exists in E. destruct E as [entry [Hin Heq]].
  apply String.eqb_eq in Heq. exfalso. apply H. rewrite <- Heq.
  now apply in_map.
Qed.

(** A new property is added once. *)
Lemma NoDup_define (key : string) (v : Json) (obj : list (string * Json)) :
  ~ In key (map fst obj) -> NoDup (map fst obj) ->
  NoDup (map fst (define key v obj)).
Proof.
  intros Hnew Hnd. unfold define. destruct (arrayIndex key) as [n|].
  - induction obj as [|[k x] obj IH]; simpl in *.
    + repeat constructor. intros [].
    + inversion Hnd as [|y ys Hk Hnd']; subst.
      assert (Hrest : ~ In key (map fst obj)) by tauto.
      destruct (arrayIndex k) as [m|]; [destruct (m <? n)%N|]; simpl;
        try (constructor; [simpl; tauto|now constructor]).
      constructor; [|now apply IH].
      intros Hin. apply in_map_iff in Hin. destruct Hin as [entry [Hf Hin]].
      apply In_insertIndex in Hin. destruct Hin as [->|Hin].
      * simpl in Hf. apply Hnew. left. congruence.
      * apply Hk. rewrite <- Hf. now apply in_map.
  - rewrite map_app. simpl. apply NoDup_app; auto.
    + repeat constructor. intros [].
    + intros k Hin [<-|[]]. contradiction.
Qed.

(** The enumeration of an object visits each key once. *)
Lemma NoDup_forIn (members : list (string * Json)) :
  NoDup (map fst (forIn (JObject members))).
Proof.
  simpl. unfold ownProperties.
  assert (H : forall l seen, NoDup (map fst seen) ->
                NoDup (map fst (fold_left (visit members) l seen))).
  { induction l as [|m l IH]; intros seen Hnd; simpl; [exact Hnd|].
    apply IH. unfold visit. destruct (get (fst m) seen) eqn:E; [exact Hnd|].
    apply NoDup_define; [now apply get_none|exact Hnd]. }
  apply H. constructor.
Qed.

(** The one assignment to [__proto__] in a loop over distinct keys, on a
    bag without such a property that inherits the setter: the setter runs,
    and the bag gets no property. *)
Lemma fold_assign_proto (v : Json) (entries : list (string * Json)) :
  NoDup (map fst entries) ->
  In ("__proto__", v) entries ->
  forall bag,
    get "__proto__" (own bag) = None ->
    inheritsProtoSetter (prototype bag) = true ->
    prototype (fold_left (fun bag entry => assign (fst entry) (snd entry) bag)
                         entries bag) = setPrototype v (prototype bag) /\
    get "__proto__"
        (own (fold_left (fun bag entry => assign (fst entry) (snd entry) bag)
                        entries bag)) = None.
Proof.
  induction entries as [|[k x] entries IH]; intros Hnd Hin bag Hown Hset;
    [contradiction|].
  simpl in Hnd. inversion Hnd as [|y ys Hk Hnd']; subst. simpl.
  destruct (String.eqb_spec k "__proto__") as [->|Hne].
  - assert (x = v).
    { destruct Hin as [Heq|Hin]; [now inversion Heq|].
      exfalso. apply Hk. change "__proto__" with (fst ("__proto__", v)).
      now apply in_map. }
    subst x. pose proof (no_such_key "__proto__" entries Hk) as Hno.
    rewrite fold_assign_prototype, fold_assign_untouched by exact Hno.
    unfold assign. rewrite Hown, Hset. simpl. auto.
  - destruct Hin as [Heq|Hin]; [inversion Heq; contradiction|].
    destruct (IH Hnd' Hin (assign k x bag)) as [Hp Ho].
    + rewrite get_assign_other by congruence. exact Hown.
    + rewrite prototype_assign by exact Hne. exact Hset.
    + rewrite Hp, Ho, prototype_assign by exact Hne. auto.
Qed.

Lemma setState_get (members : list (string * Json)) (bag : Bag)
    (key : string) :
  key <> "__proto__" ->
  get key (own (setState (JObject members) bag)) =
    match get key members with
    | Some v => Some v
    | None => get key (own bag)
    end.
Proof.
  intros Hne. rewrite setState_fold.
  destruct (get key members) as [v|] eqn:E.
  - rewrite (fold_assign_get key v (forIn (JObject members)) Hne)
      by (intros entry; apply (forIn_object_values key v members entry E)).
    now rewrite forIn_object_keys, get_some_iff, E.
  - apply fold_assign_untouched.
    now rewrite forIn_object_keys, get_some_iff, E.
Qed.

(** X17: [setState] merges.  After it, a key of the state given, other
    than [__proto__], is a property of the bag with the state's value, and
    every other such key holds what it held.  If the state has no key
    [__proto__], the bag's prototype and its property [__proto__], if it
    has one, are as they were.  If the state has one, and the bag has none
    and inherits the setter (as a bag fresh from the initializer does), the
    value goes to the setter: an object or [null] becomes the bag's
    prototype, and the bag gets no property.  A state that is [undefined],
    [null], a boolean or a number changes nothing. *)
Theorem setState_merges (members : list (string * Json)) (bag : Bag)
    (key : string) :
  (key <> "__proto__" ->
   get key (own (setState (JObject members) bag)) =
     match get key members with
     | Some v => Some v
     | None => get key (own bag)
     end) /\
  (get "__proto__" members = None ->
   prototype (setState (JObject members) bag) = prototype bag /\
   get "__proto__" (own (setState (JObject members) bag)) =
     get "__proto__" (own bag)) /\
  (forall v,
     get "__proto__" members = Some v ->
     get "__proto__" (own bag) = None ->
     inheritsProtoSetter (prototype bag) = true ->
     prototype (setState (JObject members) bag) =
       setPrototype v (prototype bag) /\
     get "__proto__" (own (setState (JObject members) bag)) = None) /\
  setState JUndefined bag = bag /\ setState JNull bag = bag /\
  (forall b, setState (JBool b) bag = bag) /\
  (forall n, setState (JNumber n) bag = bag).
Proof.
  split; [apply setState_get|]. split; [|split; [|repeat split]].
  - intros Hnone. rewrite setState_fold. split.
    + apply fold_assign_prototype.
      now rewrite forIn_object_keys, get_some_iff, Hnone.
    + apply fold_assign_untouched.
      now rewrite forIn_object_keys, get_some_iff, Hnone.
  - intros v Hv Hown Hset. rewrite setState_fold.
    apply fold_assign_proto; auto using NoDup_forIn.
    apply get_In. now rewrite get_forIn.
Qed.

Lemma setState_merges_witness :
  let members := [("user", JString "a"); ("7", JNull)] in
  let bag := {| own := [("role", JString "admin")];
                prototype := ObjectPrototype |} in
  get "user" (own (setState (JObject members) bag)) = Some (JString "a") /\
  get "role" (own (setState (JObject members) bag)) =
    Some (JString "admin") /\
  prototype (setState (JObject members) bag) = ObjectPrototype /\
  get "__proto__" (own (setState (JObject members) bag)) = None /\
  prototype (setState (JObject [("__proto__", JArray []); ("a", JNull)]) bag)
    = ValuePrototype (JArray []).
Proof.
  intros members bag.
  destruct (setState_merges members bag "user") as [Huser [Hproto _]].
  destruct (setState_merges members bag "role") as [Hrole _].
  destruct (setState_merges [("__proto__", JArray []); ("a", JNull)] bag "a")
    as [_ [_ [Hsetter _]]].
  split; [apply Huser; discriminate|].
  split; [apply Hrole; discriminate|].
  split; [apply Hproto; reflexivity|].
  split; [apply Hproto; reflexivity|].
  apply (Hsetter (JArray [])); reflexivity.
Defined.

Lemma fold_assign_fixed (entries : list (string * Json)) :
  forall bag,
    (forall entry, In entry entries ->
       get (fst entry) (own bag) = Some (snd entry)) ->
    fold_left (fun bag entry => assign (fst entry) (snd entry) bag)
              entries bag = bag.
Proof.
  induction entries as [|entry entries IH]; intros bag H; [reflexivity|].
  simpl. rewrite assign_unchanged by (apply H; now left).
  apply IH. intros x Hx. apply H. now right.
Qed.

(** X18: [setState] with the same object a second time changes nothing,
    when the object has no key [__proto__]: the bag, the order of its keys
    and its prototype included, is as the first call left it. *)
Theorem setState_idempotent (members : list (string * Json)) (bag : Bag) :
  get "__proto__" members = None ->
  setState (JObject members) (setState (JObject members) bag) =
  setState (JObject members) bag.
Proof.
  intros Hnone.
  rewrite (setState_fold (JObject members) (setState (JObject members) bag)).
  apply fold_assign_fixed. intros entry Hin.
  apply forIn_entry in Hin.
  rewrite setState_get by congruence. now rewrite Hin.
Qed.

Lemma setState_idempotent_witness :
  let state := JObject [("b", JNull); ("10", JNull); ("2", JNull)] in
  setState state (setState state makeSharedStateInitializer) =
  setState state makeSharedStateInitializer.
Proof.
  apply (setState_idempotent [("b", JNull); ("10", JNull); ("2", JNull)]
           makeSharedStateInitializer).
  reflexivity.
Defined.

(** A state with a key [__proto__] of its own, as [JSON.parse] makes one:
    the first call goes to the setter that the bag inherits and takes the
    bag's prototype away; the second finds no setter and gives the bag a
    property. *)
Example proto_key_twice :
  let state := JObject [("__proto__", JNull)] in
  setState state makeSharedStateInitializer =
    {| own := []; prototype := NullPrototype |} /\
  setState state (setState state makeSharedStateInitializer) =
    {| own := [("__proto__", JNull)]; prototype := NullPrototype |}.
Proof. split; reflexivity. Qed.

(** A bag fresh from the initializer: the state set can be read back. *)
Example shared_state_round_trip :
  makeSetStateInRequest makeSharedStateInitializer
    (JObject [("user", JString "a"); ("role", JString "admin")]) =
  {| own := [("user", JString "a"); ("role", JString "admin")];
     prototype := ObjectPrototype |}.
Proof. reflexivity. Qed.

(** An array is merged under its indices, and indices come first, in
    ascending order, whenever they are written. *)
Example shared_state_array :
  setState (JArray [JString "x"; JString "y"])
           {| own := [("1", JNull); ("a", JNull)];
              prototype := ObjectPrototype |} =
    {| own := [("0", JString "x"); ("1", JString "y"); ("a", JNull)];
       prototype := ObjectPrototype |}.
Proof. reflexivity. Qed.

(** ** A chain of adapted middlewares *)

Lemma middlewareAdapter_request (toCamel toSnake : Json -> Json)
    (middleware : Controller) (request : Request) :
  fst (middlewareAdapter toCamel toSnake middleware request) =
    {| body := toCamel (body request); params := toCamel (params request);
       query := toCamel (query request);
       sharedState := sharedState request |}.
Proof. reflexivity. Qed.

(** X19: the conversion to camelCase is done once for each object
    middleware of a chain, not once for the request: after a chain has run,
    [body], [params] and [query] have been converted as many times as the
    chain has middlewares with a [handle]; plain functions convert nothing,
    and the shared state is untouched. *)
Theorem chain_converts_once_per_object_middleware
    (toCamel toSnake : Json -> Json) (middlewares : list RouteMiddleware)
    (request : Request) :
  let n := length (filter isObjectMiddleware middlewares) in
  threadRequest (adaptMiddlewares toCamel toSnake middlewares) request =
    {| body := Nat.iter n toCamel (body request);
       params := Nat.iter n toCamel (params request);
       query := Nat.iter n toCamel (query request);
       sharedState := sharedState request |}.
Proof.
  revert request. induction middlewares as [|m ms IH]; intros request.
  - now destruct request.
  - unfold threadRequest in *. cbn [adaptMiddlewares map fold_left].
    change (map _ ms) with (adaptMiddlewares toCamel toSnake ms).
    destruct m as [f|m]; cbn [filter isObjectMiddleware length].
    + cbn [fst]. apply IH.
    + rewrite middlewareAdapter_request, IH. cbn [body params query sharedState].
      now rewrite <- !Nat.iter_succ_r.
Qed.

(** Two controllers on a route, a body with a key of two underscores, and
    the converters modelled in [Util]: the second controller sees a key
    that the first did not. *)
Example second_controller_sees_converted_twice :
  let request1 :=
    fst (middlewareAdapter Util.convertSnakeCaseKeysToCamelCase
           Util.convertCamelCaseKeysToSnakeCase userController
           {| body := JObject [("a__b", JNull)]; params := JNull;
              query := JNull; sharedState := JObject [] |}) in
  let request2 :=
    fst (middlewareAdapter Util.convertSnakeCaseKeysToCamelCase
           Util.convertCamelCaseKeysToSnakeCase userController request1) in
  body request1 = JObject [("a_b", JNull)] /\
  body request2 = JObject [("aB", JNull)].
Proof. split; reflexivity. Qed.

(** ** Which server is bound *)

Lemma quiet_not_in p (t : list Event) (e : Event) :
  filter p t = [] -> p e = true -> ~ In e t.
Proof.
  intros Hf He Hin.
  assert (H : In e (filter p t)) by (apply filter_In; auto).
  rewrite Hf in H. destruct H.
Qed.

Lemma listenAsync_binds_its_own env port callback w s p c :
  In (ServerListen s p c) (trace (listenAsync env port callback w)) ->
  s = nextObject w.
Proof.
  intros Hin.
  destruct (Nat.eq_dec s (nextObject w)) as [|Hne]; [assumption|].
  exfalso. revert Hin. apply (quiet_not_in (bindsOther (nextObject w))).
  2:{ simpl. apply Nat.eqb_neq in Hne. now rewrite Hne. }
  assert (Hc : forall l, filter (bindsOther (nextObject w))
                 (map CallbackCall l) = []).
  { induction l; simpl; auto. }
  unfold listenAsync, initializeWebSocketServer, getInstance, eventsDirectory,
    readdir, callWs, serverListen, bind, getApp, getWs, trace.
  simpl. destruct (isStarted (app w)); [reflexivity|]. simpl.
  rewrite callAll_run. simpl.
  destruct (firstFailure env (startupCallbacks (app w))); simpl;
    [now rewrite app_nil_r|].
  rewrite loadRoutes_run. simpl.
  destruct (snd (mountPending env (baseUrl (app w)) (routers (app w))));
    simpl; [now rewrite app_nil_r|].
  destruct (startWebSocketServer (app w)); simpl.
  - destruct (wsInstance w) as [ws|]; simpl;
      [|now rewrite filter_app, Hc].
    destruct (readdirSync env "src/main/events") as [files|]; simpl;
      [|now rewrite filter_app, Hc].
    match goal with
    | |- context [loadFiles ?e ?p ?t ?f ?x] =>
        pose proof (loadFiles_no (bindsOther (nextObject w)) e p t f x
                      (fun _ => eq_refl) (fun _ _ => eq_refl)) as Hl;
        unfold trace in Hl;
        pose proof (loadFiles_world e p t f x) as Hw; unfold world in Hw;
        destruct (loadFiles e p t f x) as [[[u|err] w'] tr]
    end; simpl in *; subst w'; simpl.
    + destruct (port <=? maxPort)%nat; simpl;
        rewrite ?filter_app, Hc; simpl; rewrite ?filter_app, Hl; simpl;
        rewrite ?Nat.eqb_refl; reflexivity.
    + rewrite ?filter_app, Hc. simpl. rewrite ?filter_app, Hl. reflexivity.
  - destruct (websocketServer (app w)) as [[]|]; simpl.
    + destruct (wsInstance w); simpl; [|now rewrite ?filter_app, Hc].
      destruct (port <=? maxPort)%nat; simpl; rewrite ?filter_app, Hc; simpl;
        rewrite ?Nat.eqb_refl; reflexivity.
    + now rewrite filter_app, Hc.
Qed.

Lemma listen_binds_its_own env port callback w s p c :
  In (ServerListen s p c) (trace (listen env port callback w)) ->
  s = nextObject w.
Proof.
  destruct (isStarted (app w)) eqn:E.
  { rewrite listen_when_started by exact E. intros []. }
  destruct (mountFailure env w) as [e|] eqn:Hm.
  { destruct (listen_unmountable env port callback w e E Hm) as [_ [-> _]].
    intros []. }
  destruct (port <=? maxPort)%nat eqn:Hp.
  - destruct (listen_run env port callback w E Hm Hp) as [_ [-> _]].
    intros [H|[H|[]]]; [discriminate|]. now inversion H.
  - destruct (listen_bad_port env port callback w E Hm Hp) as [_ [-> _]].
    intros [H|[]]. discriminate.
Qed.

Lemma exec_binds_fresh env op w s p c :
  In (ServerListen s p c) (trace (exec env op w)) -> nextObject w <= s.
Proof.
  assert (Hq : forall m : M unit, quiet anyWorld isServerListen m ->
                 In (ServerListen s p c) (trace (m w)) -> nextObject w <= s).
  { intros m Hm Hin. exfalso. revert Hin.
    apply (quiet_not_in isServerListen); [apply (Hm w Logic.I)|reflexivity]. }
  destruct op; cbn [exec];
    try (apply Hq; solve [anyWorld_quiet]).
  - (* listen *)
    rewrite (proj1 (discard_result _ w)). intros Hin.
    apply listen_binds_its_own in Hin. lia.
  - (* listenAsync *)
    rewrite (proj1 (discard_result _ w)). intros Hin.
    apply listenAsync_binds_its_own in Hin. lia.
  - (* refresh *)
    intros Hin. exfalso. revert Hin.
    apply (quiet_not_in isServerListen); [|reflexivity].
    apply length_zero_iff_nil. apply refresh_binds.
Qed.

Lemma run_binds_fresh env ops w s p c :
  In (ServerListen s p c) (snd (run env ops w)) -> nextObject w <= s.
Proof.
  revert w. induction ops as [|op ops IH]; intros w; simpl; [intros []|].
  pose proof (exec_binds_fresh env op w s p c) as H1.
  pose proof (grows_objects _ _ (grows_exec env op w)) as Hg.
  unfold trace, world in *.
  destruct (exec env op w) as [[r w1] t1]. simpl in *.
  specialize (IH w1). destruct (run env ops w1) as [w2 t2]. simpl in *.
  intros Hin. apply in_app_or in Hin. destruct Hin as [Hin|Hin]; auto.
  specialize (IH Hin). lia.
Qed.

(** X21: [getServer] starts nothing: it leaves [isStarted] and the
    server field as they are and binds no port.  It completes when express
    takes every router still to be mounted, and then it hands out a new
    node server, which is never the one bound: whatever is called
    afterwards, every [server.listen] is on another server. *)
Theorem getServer_is_never_bound (env : Env) (w : World) (ops : list Op) :
  let w1 := world (getServer env w) in
  isStarted (app w1) = isStarted (app w) /\
  server (app w1) = server (app w) /\
  filter isServerListen (trace (getServer env w)) = [] /\
  (mountFailure env w = None ->
   result (getServer env w) = Normal (nextObject w)) /\
  (forall s, result (getServer env w) = Normal s ->
     s = nextObject w /\
     trace (getServer env w) = [CreateServer s] /\
     forall s' p c,
       In (ServerListen s' p c) (snd (run env ops w1)) -> s' <> s).
Proof.
  intros w1.
  assert (Hrun : forall s' p c,
            In (ServerListen s' p c) (snd (run env ops w1)) ->
            nextObject w1 <= s')
    by (intros s' p c; apply run_binds_fresh).
  revert Hrun. subst w1.
  unfold getServer, mountFailure, bind, newObject, emit, ret, result, world,
    trace.
  rewrite loadRoutes_run. simpl.
  destruct (snd (mountPending env (baseUrl (app w)) (routers (app w))));
    simpl; intros Hrun.
  - split; [reflexivity|]. split; [reflexivity|]. split; [reflexivity|].
    split; [discriminate|]. intros s Hs. discriminate.
  - split; [reflexivity|]. split; [reflexivity|]. split; [reflexivity|].
    split; [reflexivity|]. intros s Hs. inversion Hs; subst s.
    split; [reflexivity|]. split; [reflexivity|].
    intros s' p c Hin Heq. apply Hrun in Hin. simpl in Hin. lia.
Qed.

Lemma getServer_is_never_bound_witness :
  let w1 := world (getServer twoFiles someRoutes) in
  result (getServer twoFiles someRoutes) = Normal (nextObject someRoutes) /\
  trace (getServer twoFiles someRoutes) =
    [CreateServer (nextObject someRoutes)] /\
  forall s' p c,
    In (ServerListen s' p c)
       (snd (run twoFiles [Listen 3000 7; Refresh] w1)) ->
    s' <> nextObject someRoutes.
Proof.
  intros w1.
  destruct (getServer_is_never_bound twoFiles someRoutes
              [Listen 3000 7; Refresh]) as [_ [_ [_ [Hdone Hnew]]]].
  split; [apply Hdone; reflexivity|].
  apply (Hnew (nextObject someRoutes)). apply Hdone. reflexivity.
Defined.

(** The server of the integration test: [getServer] first, then [listen];
    the server bound is server 1, not the server 0 handed out. *)
Example getServer_then_listen :
  snd (run twoFiles [SetBaseUrl "/api/v1"; GetServer; Listen 3000 7]
           initialWorld) =
    [CreateServer 0; CreateServer 1; ServerListen 1 3000 7].
Proof. vm_compute. reflexivity. Qed.

(** ** The express application *)

(** X22: what the express application has been told to use is never taken
    back, replaced or put in another order: whatever is called, the layers
    there are stay at the head of the list, as they are.  A router mounted
    before [setBaseUrl] is not moved by it. *)
Theorem express_layers_only_added (env : Env) (ops : list Op) (w : World) :
  exists added,
    express (app (fst (run env ops w))) = express (app w) ++ added.
Proof. apply (grows_express _ _ (grows_run env ops w)). Qed.

(** [getServer] mounts [health] under the base URL of the moment; the
    base URL set afterwards is used for the routes made afterwards only. *)
Example mounted_router_is_not_moved :
  express
    (app (fst (run twoFiles
                 [RouteCall (PathArg (Some "health")) None; GetServer;
                  SetBaseUrl "/api/v1";
                  RouteCall (PathArg (Some "users")) None; Listen 3000 7]
                 initialWorld))) =
    [SharedStateInitializer; RouterLayer "/health" 0;
     RouterLayer "/api/v1/users" 2].
Proof. vm_compute. reflexivity. Qed.

(** ** close, later *)

Lemma switchStays_refl (w : World) : switchStays w w.
Proof. intros H. exact H. Qed.

Lemma switchStays_trans (a b c : World) :
  switchStays a b -> switchStays b c -> switchStays a c.
Proof. unfold switchStays. auto. Qed.

#[local] Hint Resolve switchStays_refl switchStays_trans : core.

Lemma switchStays_modifyApp f :
  (forall this, startWebSocketServer this = true ->
                startWebSocketServer (f this) = true) ->
  respects switchStays (modifyApp f).
Proof. intros Hf w H. simpl. auto. Qed.

Lemma switchStays_newObject : respects switchStays newObject.
Proof. intros w H. exact H. Qed.

Lemma switchStays_putWs ws : respects switchStays (putWs ws).
Proof. intros w H. exact H. Qed.

Create HintDb stays.

#[local] Hint Resolve switchStays_newObject switchStays_putWs : stays.

Lemma switchStays_exec env op : respects switchStays (exec env op).
Proof.
  destruct op; cbn [exec]; unfold_api; unfold getInstance, callWs;
    respects_by ltac:(solve [auto with stays nocore]);
    try (apply switchStays_modifyApp; intros; simpl; auto).
Qed.

Lemma switchStays_run env ops w : switchStays w (fst (run env ops w)).
Proof.
  revert w. induction ops as [|op ops IH]; intros w; simpl; [auto|].
  pose proof (switchStays_exec env op w) as H. unfold world in H.
  destruct (exec env op w) as [[c w1] t1]. simpl in H.
  specialize (IH w1). destruct (run env ops w1) as [w2 t2]. simpl in *.
  eauto.
Qed.

(** X23: nothing a client can call repairs [close]: on a started server
    with a node server and the WebSocket switch on, after any calls,
    [close] again closes the same node server and throws a [TypeError];
    the switch cannot be turned off and the server is never replaced. *)
Theorem close_throws_ever_after (env : Env) (w : World) (s : NodeServer)
    (ops : list Op) :
  isStarted (app w) = true ->
  server (app w) = Some s ->
  startWebSocketServer (app w) = true ->
  let w' := fst (run env ops w) in
  exists message,
    close w' = (Throw (Js.TypeError message), w',
                [ServerClose s "Shutting down server"]).
Proof.
  intros Hst Hsrv Hsw w'.
  pose proof (settled_run env ops w) as Hs. fold w' in Hs.
  pose proof (switchStays_run env ops w Hsw) as Hsw'. fold w' in Hsw'.
  pose proof (settled_started _ _ Hs Hst) as Hst'.
  pose proof (settled_server _ _ Hs Hst) as Hsrv'. rewrite Hsrv in Hsrv'.
  unfold close, bind, getApp, emit, ret, throw. simpl.
  rewrite Hst', Hsrv', Hsw'. simpl.
  destruct (websocketServer (app w')) as [[]|]; eexists; reflexivity.
Qed.

Lemma close_throws_ever_after_witness :
  let w' := fst (run twoFiles
                   [Close; Refresh; SetWebSocketServerOptions (Some 1);
                    WsGetInstance None; ListenAsync 4000 9]
                   configuredAndListening) in
  exists message,
    close w' = (Throw (Js.TypeError message), w',
                [ServerClose 0 "Shutting down server"]).
Proof.
  apply (close_throws_ever_after twoFiles configuredAndListening 0
           [Close; Refresh; SetWebSocketServerOptions (Some 1);
            WsGetInstance None; ListenAsync 4000 9]);
    reflexivity.
Defined.
